(** * Convergence verification and build-event consumption of the now CLI

    A shallow embedding of the two command files of the repository:

    - the scale command ([Module Scale]): [main], [waitDcs], [onExit],
      [waitForScale], [isInstanceCountBetween], [isMinOrMaxArgument],
      [toMin], [toMax], [isNumeric];
    - the deploy command ([Module Deploy]): the build-event loop of [sync],
      [waitForScale], [getMatchingScalePresets], [matchMinPresets],
      [formatText].

    Asynchronous code is modelled by explicit state passing over a script of
    what the environment answers (clock readings, fetch results, events);
    exceptions and process exits are explicit completions. *)

From Stdlib Require Import ZArith Lia Ascii.
From stdpp Require Import gmap strings list.

Local Open Scope string_scope.
Local Open Scope Z_scope.
Local Open Scope list_scope.

(** ** JavaScript values shared by both commands *)

Module Js.

(** The numbers the two commands compare: integers, [Infinity] and [NaN]
    (what [ToNumber] gives for the string ['auto']). *)
Inductive number :=
| Int (z : Z)
| Infinity
| NaN.

(** [a < b] on numbers: any comparison with [NaN] is false. *)
Definition lt (a b : number) : bool :=
  match a, b with
  | NaN, _ | _, NaN => false
  | Int x, Int y => x <? y
  | Int _, Infinity => true
  | Infinity, _ => false
  end.

Definition gt (a b : number) : bool := lt b a.

(** [a >= b] on numbers. *)
Definition ge (a b : number) : bool :=
  match a, b with
  | NaN, _ | _, NaN => false
  | Int x, Int y => y <=? x
  | Infinity, _ => true
  | Int _, Infinity => false
  end.

(** [Math.max(a, b)]: [NaN] as soon as one argument is [NaN]. *)
Definition Math_max (a b : number) : number :=
  match a, b with
  | NaN, _ | _, NaN => NaN
  | Infinity, _ | _, Infinity => Infinity
  | Int x, Int y => Int (Z.max x y)
  end.

(** Error values that are thrown. [Error] is [new Error(message)];
    [TypeError] is what the engine raises on a property read of
    [undefined]; [ApiError] is a rejection of [now.fetch] with its [status]
    and [code] properties; [CodedError] is an error with a [code] and an
    [id] property, as the region normalisation throws. *)
Inductive exn :=
| Error (message : string)
| TypeError (message : string)
| ApiError (status : Z) (code : string)
| CodedError (code : string) (id : string).

(** How a piece of code ends: it is still running when the scripted
    environment is used up ([Pending]), it returns, it throws, or it ends the
    process with an exit code. *)
Inductive completion (A : Type) :=
| Pending
| Returned (a : A)
| Threw (e : exn)
| Exited (code : Z).
Arguments Pending {A}.
Arguments Returned {A} a.
Arguments Threw {A} e.
Arguments Exited {A} code.

(** A JS [Set] of strings: its elements in insertion order. *)
Abbreviation StrSet := (list string).

Definition Set_has (s : StrSet) (x : string) : bool := bool_decide (x ∈ s).

Definition Set_add (s : StrSet) (x : string) : StrSet :=
  if Set_has s x then s else s ++ [x].

Definition Set_delete (s : StrSet) (x : string) : StrSet :=
  filter (λ y, y ≠ x) s.

(** [new Set(iterable)] *)
Definition Set_new (l : list string) : StrSet := foldl Set_add [] l.

Definition Set_size (s : StrSet) : nat := length s.

(** What a call gives: a value, or a thrown error. *)
Inductive result (A : Type) :=
| Ok (a : A)
| Raise (e : exn).
Arguments Ok {A} a.
Arguments Raise {A} e.

(** [s.split(c)] for a one-character separator: the pieces between the
    separators, the empty string included. *)
Fixpoint split (c : ascii) (s : string) : list string :=
  match s with
  | EmptyString => [EmptyString]
  | String a s' =>
      if decide (a = c) then EmptyString :: split c s'
      else match split c s' with
           | [] => [String a EmptyString]
           | p :: ps => String a p :: ps
           end
  end.

Definition isDigit (a : ascii) : bool :=
  let n := nat_of_ascii a in (48 <=? n)%nat && (n <=? 57)%nat.

Fixpoint allDigits (s : string) : bool :=
  match s with
  | EmptyString => true
  | String a s' => isDigit a && allDigits s'
  end.

(** [/^\d+$/.test(v)] *)
Definition test_digits (v : string) : bool :=
  match v with
  | EmptyString => false
  | _ => allDigits v
  end.

Fixpoint digitsValue (acc : Z) (s : string) : Z :=
  match s with
  | EmptyString => acc
  | String a s' => digitsValue (10 * acc + (Z.of_nat (nat_of_ascii a) - 48)) s'
  end.

(** [Number(v)] on a string of decimal digits (read exactly; the rounding of
    doubles beyond 2^53 is not modelled). *)
Definition Number (v : string) : Z := digitsValue 0 v.

End Js.

Import Js.

(** A value given for [min] or [max]: the string ['auto'] or a number. *)
Inductive scaleValue :=
| Auto
| Num (n : Z).

#[global] Instance scaleValue_eq_dec : EqDecision scaleValue.
Proof. solve_decision. Defined.

(** [ToNumber] on a scale value, as the comparison operators apply it. *)
Definition toNumber (v : scaleValue) : number :=
  match v with
  | Auto => NaN
  | Num n => Int n
  end.

(** One entry of a scale object: [{ min, max }]. *)
Record scaleRule := { min : scaleValue; max : scaleValue }.

(** A scale object [{ dc: { min, max }, ... }]: its own properties in the
    order [Object.keys] lists them. *)
Abbreviation scaleObj := (list (string * scaleRule)).

Definition Object_keys (o : scaleObj) : list string := o.*1.

(** [o[dc]] *)
Fixpoint get (o : scaleObj) (dc : string) : option scaleRule :=
  match o with
  | [] => None
  | (k, r) :: o' => if decide (k = dc) then Some r else get o' dc
  end.

(** [o[dc] = r]: overwrite in place, or append a new property. *)
Fixpoint set (o : scaleObj) (dc : string) (r : scaleRule) : scaleObj :=
  match o with
  | [] => [(dc, r)]
  | (k, r') :: o' =>
      if decide (k = dc) then (k, r) :: o' else (k, r') :: set o' dc r
  end.

(** One entry of the instances snapshot: [{ instances: [...] }]. *)
Record instancesObj := { instances : list string }.

(** [o.instances.length] *)
Definition instancesLength (o : instancesObj) : Z :=
  Z.of_nat (length (instances o)).

(** The answer of [GET /v3/now/deployments/:id/instances?init=1]: an object
    from dc to its instances; [data !! dc = None] is [data[dc] === undefined]. *)
Abbreviation snapshot := (gmap string instancesObj).

(** What one [await now.fetch(...)] of the snapshot gives. *)
Inductive fetchResult :=
| FetchOk (data : snapshot)
| FetchFailed (e : exn).

(** One turn of a polling loop as the environment scripts it: what
    [Date.now()] reads at the top of the loop and what the fetch of that turn
    answers if it is made. *)
Record cycle := { clock : Z; fetched : fetchResult }.

(** ** The scale command *)

Module Scale.

(** the "auto" value for scaling *)
Definition AUTO : scaleValue := Auto.

Definition TYPE_STATIC : string := "STATIC".
Definition STATE_ERROR : string := "ERROR".

(** What the command prints; colours and elapsed times are left out. *)
Inductive message :=
| ScaleLsDeprecated
| AtLeastTwoArguments
| AtMostFourArguments
| VerifyTimeoutWithNoVerify
| InvalidTimeString
| ExpectedMaxArgument (maybeMax : string) (min : scaleValue)
| InvalidNumberOfArguments (min : scaleValue)
| NormalizedTo (dcIdOrMin : string) (dcIds : list string)
| InvalidDc (id : string)
| AllWithOthers
| InvalidMinParameter (v : string)
| InvalidMaxParameter (v : string)
| FetchingDeployment (id : string)
| FailedToFindDeployment (id : string)
| FetchedDeployment (url : string)
| StaticDeployment
| DeploymentInErrorState
| ScaleArgs (scaleArgs : scaleObj)
| SettingScaleRules (dcIds : list string) (min max : scaleValue)
| ForbiddenMinInstances
| ForbiddenMaxInstances
| WrongMinMaxRelation
| ScaleRulesSaved (dcIds : list string) (min max : scaleValue)
| WaitingForInstances (remaining : list string)
| Verified (dcId : string) (instanceCount : Z)
| VerificationAborted
| ScaleStateVerified
| MissingDataForDc (dc : string)
| DcMatch (dc : string)
| DcMiss (dc : string) (min max : scaleValue) (current : Z).

(** What the command does to the outside, in the order it does it. *)
Inductive effect :=
| HandleError (e : exn)
| Help
| Error_ (m : message)
| Log (m : message)
| Debug (m : message)
| Success (m : message)
| ConsoleLog (m : message)
| WaitStart (m : message)
| WaitStop
| FindDeployment (id : string)
| PatchInstances (deploymentId : string) (scale : scaleObj)
| GetInstances (deploymentId : string)
| Sleep (ms : Z)
| ProcessOn (event : string)
| ProcessRemoveListener (event : string)
| Exit (code : Z)
| NowClose.

(** *** [waitDcs]: the progress display and the closure it returns *)

(** The closure state of [waitDcs] is its [remaining] set. *)
Definition renderWait (remaining : StrSet) : list effect :=
  [WaitStart (WaitingForInstances remaining)].

Definition waitDcs (scaleArgs : scaleObj) : StrSet * list effect :=
  let remaining := Set_new (Object_keys scaleArgs) in
  (remaining, renderWait remaining).

(** The function [waitDcs] returns, [(dcId = null, instanceCount = null) =>
    ...]: [None] is a call without both arguments. *)
Definition cancelVerifyWait (args : option (string * Z)) (remaining : StrSet)
  : StrSet * list effect :=
  match args with
  | Some (dcId, instanceCount) =>
      let remaining' := Set_delete remaining dcId in
      (remaining', [WaitStop; Log (Verified dcId instanceCount)] ++ renderWait remaining')
  | None => (remaining, [WaitStop])
  end.

(** *** [onExit] *)

Section OnExit.

Context {W : Type}.

(** The wrapped callback: code that acts on a world [W], may emit events on
    the process ([process.emit(event)]; [process.exit()] emits [exit]), and
    returns or throws. [Do f k] changes the world by [f] and goes on with
    [k] of the new world; [Emit event k] emits [event], which runs the
    listeners before it returns, and goes on with [k r], [r] being how the
    emit ended: normally ([None]) or by the exception of a listener (code
    that does not catch it goes on with [Throw]). The callback has no
    access to the closure variable [exit]. *)
Inductive callback :=
| Return
| Throw (e : exn)
| Do (f : W → W) (k : W → callback)
| Emit (event : string) (k : option exn → callback).

(** The closure of [onExit]: its variable [exit] and the process events its
    handler is still registered on. *)
Record exitHook := { exit : bool; listening : list string }.

Definition onExit : exitHook * list effect :=
  ({| exit := false; listening := ["SIGTERM"; "SIGINT"; "exit"] |},
   [ProcessOn "SIGTERM"; ProcessOn "SIGINT"; ProcessOn "exit"]).

(** How a piece of code ends in the state it leaves: normally or by an
    exception; nothing when handlers are nested deeper than the bound. *)
Abbreviation outcome := (option ((exitHook * W) * option exn)).

(** The process emits [event]: [handler] runs if it is registered on it. *)
Definition listenerOf (handler : exitHook * W → outcome)
  (event : string) (st : exitHook * W) : outcome :=
  if bool_decide (event ∈ listening st.1) then handler st else Some (st, None).

(** A run of callback code, [listener] being what an emitted event does. *)
Fixpoint call (listener : string → exitHook * W → outcome) (c : callback)
  (st : exitHook * W) : outcome :=
  match c with
  | Return => Some (st, None)
  | Throw e => Some (st, Some e)
  | Do f k => call listener (k (f st.2)) (st.1, f st.2)
  | Emit event k =>
      match listener event st with
      | None => None
      | Some (st', r) => call listener (k r) st'
      end
  end.

Variable fn : callback.

(** The handler [onExit_]: [if (exit) return; fn(); exit = true]. When [fn]
    throws, the assignment is not reached; when [fn] emits an event the
    handler is registered on, the handler is entered again with [exit]
    still false. [depth] bounds how deep it is entered. *)
Fixpoint onExit_ (depth : nat) (st : exitHook * W) : outcome :=
  match depth with
  | O => None
  | S depth' =>
      if exit st.1 then Some (st, None)
      else
        match call (listenerOf (onExit_ depth')) fn st with
        | None => None
        | Some (st', Some e) => Some (st', Some e)
        | Some ((h, w), None) =>
            Some (({| exit := true; listening := listening h |}, w), None)
        end
  end.

(** [process.removeListener(event, onExit_)]: one registration less. *)
Fixpoint removeListener (event : string) (listening : list string) : list string :=
  match listening with
  | [] => []
  | e :: listening' =>
      if decide (e = event) then listening' else e :: removeListener event listening'
  end.

(** The function [onExit] returns: it removes the three listeners. *)
Definition cancelExit (h : exitHook) : exitHook * list effect :=
  ({| exit := exit h;
      listening :=
        removeListener "exit"
          (removeListener "SIGINT" (removeListener "SIGTERM" (listening h))) |},
   [ProcessRemoveListener "SIGTERM"; ProcessRemoveListener "SIGINT";
    ProcessRemoveListener "exit"]).

(** The process emits [event] from outside the callback. *)
Definition emit (depth : nat) : string → exitHook * W → outcome :=
  listenerOf (onExit_ depth).

(** The handler invoked [n] times in a row, each invocation a call of its
    own by the event emitter: the state after the last one. *)
Fixpoint invoke (depth n : nat) (st : exitHook * W) : option (exitHook * W) :=
  match n with
  | O => Some st
  | S n' =>
      match onExit_ depth st with
      | None => None
      | Some (st', _) => invoke depth n' st'
      end
  end.

(** The process emits the events [events] one after the other. *)
Fixpoint deliver (depth : nat) (events : list string) (st : exitHook * W)
  : option (exitHook * W) :=
  match events with
  | [] => Some st
  | event :: events' =>
      match emit depth event st with
      | None => None
      | Some (st', _) => deliver depth events' st'
      end
  end.

End OnExit.

Arguments callback : clear implicits.

(** *** [isInstanceCountBetween] *)

Definition isInstanceCountBetween (v : Z) (min max : scaleValue) : bool :=
  if lt (Int v) (toNumber min) then false
  else if gt (Int v) (if decide (max = AUTO) then Infinity else toNumber max)
  then false
  else true.

(** *** [waitForScale] *)

Definition timeoutError : exn :=
  Error "Timeout while verifying instance count (10m)".

Section WaitForScale.

(** [C] is the closure state of the [onDCScaled] callback; the callback
    gives its new state and what it does to the outside. *)
Context {C : Type}.

(** The last argument of [waitForScale]; [None] is a property left out
    ([timeout] and [checkInterval]) or [null] ([onDCScaled]). *)
Record options := {
  timeout : option Z;
  checkInterval : option Z;
  onDCScaled : option (string → Z → C → C * list effect)
}.

(** The state of one invocation: the set [intendedScaleDcs], the state of
    the callback's closure, and the effects so far. *)
Record state := {
  intendedScaleDcs : StrSet;
  closure : C;
  trace : list effect
}.

Definition say (es : list effect) (st : state) : state :=
  {| intendedScaleDcs := intendedScaleDcs st;
     closure := closure st;
     trace := trace st ++ es |}.

Definition callOnDCScaled (cb : option (string → Z → C → C * list effect))
  (dc : string) (instanceCount : Z) (st : state) : state :=
  match cb with
  | None => st
  | Some f =>
      let '(c', es) := f dc instanceCount (closure st) in
      {| intendedScaleDcs := intendedScaleDcs st;
         closure := c';
         trace := trace st ++ es |}
  end.

Definition deleteDc (dc : string) (st : state) : state :=
  {| intendedScaleDcs := Set_delete (intendedScaleDcs st) dc;
     closure := closure st;
     trace := trace st |}.

Variable intendedScale : scaleObj.
Variable opts : options.

(** The body of [for (const dc of intendedScaleDcs)] over the elements still
    to visit. Only the element being visited is ever deleted, so the
    elements to visit are the rest of the list. [None]: the loop ended (at
    its end or by [break]); [Some e]: it threw. *)
Fixpoint forDcs (data : snapshot) (todo : list string) (st : state)
  : state * option exn :=
  match todo with
  | [] => (st, None)
  | dc :: todo' =>
      match data !! dc with
      | None => (say [Debug (MissingDataForDc dc)] st, None)
      | Some currentScale =>
          let instanceCount := instancesLength currentScale in
          match get intendedScale dc with
          | None =>
              (st, Some (TypeError "Cannot destructure property 'min' of undefined"))
          | Some r =>
              if isInstanceCountBetween instanceCount (min r) (max r) then
                forDcs data todo'
                  (say [Debug (DcMatch dc)]
                     (deleteDc dc (callOnDCScaled (onDCScaled opts) dc instanceCount st)))
              else
                forDcs data todo'
                  (say [Debug (DcMiss dc (min r) (max r) instanceCount)] st)
          end
      end
  end.

(** [start + timeout <= Date.now()] *)
Definition timedOut (timeout start now : Z) : bool := start + timeout <=? now.

(** The [while (true)] loop over the scripted turns. *)
Fixpoint loop (deploymentId : string) (timeout checkInterval : Z)
  (start : Z) (script : list cycle) (st : state) : state * completion () :=
  match script with
  | [] => (st, Pending)
  | c :: script' =>
      if timedOut timeout start (clock c) then (st, Threw timeoutError)
      else
        let st := say [GetInstances deploymentId] st in
        match fetched c with
        | FetchFailed e => (st, Threw e)
        | FetchOk data =>
            match forDcs data (intendedScaleDcs st) st with
            | (st, Some e) => (st, Threw e)
            | (st, None) =>
                if bool_decide (Set_size (intendedScaleDcs st) = 0%nat)
                then (st, Returned ())
                else loop deploymentId timeout checkInterval start script'
                       (say [Sleep checkInterval] st)
            end
        end
  end.

End WaitForScale.

Arguments options : clear implicits.
Arguments state : clear implicits.

(** [ms('2m')]: what the [ms] package gives for two minutes, in
    milliseconds. *)
Definition ms_2m : Z := 120000.

(** [waitForScale(now, deploymentId, intendedScale, { debug }, opts)], run
    from the clock reading [start] over the scripted turns, with [c0] the
    initial state of the callback's closure and [tr] the effects so far. *)
Definition waitForScale {C : Type} (deploymentId : string)
  (intendedScale : scaleObj) (opts : options C)
  (start : Z) (script : list cycle) (c0 : C) (tr : list effect)
  : state C * completion () :=
  loop intendedScale opts deploymentId
    (default ms_2m (timeout opts))
    (default 500 (checkInterval opts))
    start script
    {| intendedScaleDcs := Set_new (Object_keys intendedScale);
       closure := c0;
       trace := tr |}.

(** whether it's a numeric or "auto" *)
Definition isNumeric (v : string) : bool := test_digits v.

Definition isMinOrMaxArgument (v : string) : bool :=
  bool_decide (v = "auto") || isNumeric v.

Definition toMin (v : string) : scaleValue :=
  if decide (v = "auto") then Auto else Num (Number v).

Definition toMax (v : string) : scaleValue :=
  if decide (v = "auto") then Auto else Num (Number v).

(** *** [main] *)

(** What [arg(ctx.argv.slice(3), ...)] gives: the flags the command reads
    and the positional arguments [argv._]. *)
Record argv := {
  help : bool;
  noVerify : bool;
  verifyTimeout : option string;
  positional : list string
}.

Record deployment := {
  uid : string;
  url : string;
  type : string;
  state_ : string
}.

(** Everything [main] receives from outside: the parsed command line, the
    [ms] and [normalizeRegionsList] helpers, the stored credentials, the
    answers of the API, and the clock and snapshots of the verification. *)
Record input := {
  parsed : result argv;
  ms : string → option Z;
  normalizeRegionsList : list string → result (list string);
  credentials : list (string * string);
  found : result deployment;
  patched : result ();
  start : Z;
  script : list cycle
}.

(** A computation of [main]: it adds to the effects so far and either goes
    on with a value or ends the command. *)
Definition M (A : Type) : Type := list effect → list effect * (A + completion Z).

#[global] Instance M_ret : MRet M := λ A a tr, (tr, inl a).

#[global] Instance M_bind : MBind M := λ A B f m tr,
  match m tr with
  | (tr', inl a) => f a tr'
  | (tr', inr c) => (tr', inr c)
  end.

Definition perform (es : list effect) : M () := λ tr, (tr ++ es, inl ()).

Definition finish {A} (c : completion Z) : M A := λ tr, (tr, inr c).

Definition return_ {A} (code : Z) : M A := finish (Returned code).

Definition throw {A} (e : exn) : M A := finish (Threw e).

Definition status (e : exn) : option Z :=
  match e with
  | ApiError s _ => Some s
  | _ => None
  end.

Definition code (e : exn) : option string :=
  match e with
  | ApiError _ c | CodedError c _ => Some c
  | _ => None
  end.

(** The first half of the argument handling: the legacy form
    [now scale <url> <min> [max]], which applies to all dcs. It gives
    [dcIdOrMin] and the [min] and [max] set so far ([None] is [null]). *)
Definition legacyArguments (args : list string) (dcIdOrMin : string)
  : M (string * option (scaleValue * scaleValue)) :=
  if isMinOrMaxArgument dcIdOrMin then
    let min := toMin dcIdOrMin in
    mm ← match args !! 2%nat with
         | Some maybeMax =>
             if isMinOrMaxArgument maybeMax then
               if bool_decide (3 < length args)%nat then
                 perform [Error_ (InvalidNumberOfArguments min)];; return_ 1
               else mret (min, toMax maybeMax)
             else perform [Error_ (ExpectedMaxArgument maybeMax min)];; return_ 1
         | None =>
             if decide (min = AUTO) then mret (Num 0, AUTO) else mret (min, min)
         end;
    mret ("all", Some mm)
  else mret (dcIdOrMin, None).

(** The second half: [<dc> [min] [max]], only if [min] is still [null]. *)
Definition numericArguments (args : list string)
  (minmax : option (scaleValue * scaleValue)) : M (scaleValue * scaleValue) :=
  match minmax with
  | Some mm => mret mm
  | None =>
      match args !! 2%nat with
      | Some a2 =>
          if isMinOrMaxArgument a2 then
            let min := toMin a2 in
            match args !! 3%nat with
            | Some a3 =>
                if isMinOrMaxArgument a3 then mret (min, toMax a3)
                else perform [Error_ (InvalidMaxParameter a3)];; return_ 1
            | None =>
                if decide (min = AUTO) then mret (min, AUTO) else mret (min, min)
            end
          else perform [Error_ (InvalidMinParameter a2)];; return_ 1
      | None => mret (Num 0, AUTO)
      end
  end.

(** [for (const dc of dcIds) scaleArgs[dc] = { min, max }] *)
Definition buildScaleArgs (dcIds : list string) (min max : scaleValue) : scaleObj :=
  foldl (λ scaleArgs dc, set scaleArgs dc {| min := min; max := max |}) [] dcIds.

(** The callback [main] hands to [onExit]: it stops the progress display,
    says that the settings were saved and ends the process with code 0. *)
Definition abortVerification : callback (StrSet * list effect) :=
  Do (λ '(remaining, tr),
        let '(remaining', es) := cancelVerifyWait None remaining in
        (remaining', tr ++ es ++ [Log VerificationAborted; Exit 0]))
     (λ _, Return).

(** The verification at the end of [main]: the progress display, the exit
    hook, [waitForScale] inside [try ... catch ... finally]. *)
Definition verification (i : input) (a : argv) (d : deployment)
  (scaleArgs : scaleObj) : M Z := λ tr,
  let '(remaining, es) := waitDcs scaleArgs in
  let '(hook, es') := onExit in
  let opts :=
    {| timeout := match verifyTimeout a with
                  | Some vt => ms i vt
                  | None => Some ms_2m
                  end;
       checkInterval := Some 500;
       onDCScaled :=
         Some (λ id instanceCount, cancelVerifyWait (Some (id, instanceCount))) |} in
  let '(st, c) :=
    waitForScale (uid d) scaleArgs opts (start i) (script i) remaining
      (tr ++ es ++ es') in
  let stop := (cancelVerifyWait None (closure st)).2 ++ (cancelExit hook).2 in
  match c with
  | Returned _ =>
      (trace st ++ stop ++ [Success ScaleStateVerified; NowClose],
       inr (Returned 0))
  | Threw err => (trace st ++ stop, inr (Threw err))
  | Pending => (trace st, inr Pending)
  | Exited n => (trace st, inr (Exited n))
  end.

(** The end of [main], from the saved scale rules on: the verification, or
    its omission for a binary deployment or under [--no-verify]. *)
Definition verify (i : input) (a : argv) (d : deployment)
  (scaleArgs : scaleObj) (dcIds : list string) (min max : scaleValue) : M Z :=
  if bool_decide (type d = "BINARY") || noVerify a then
    perform [ConsoleLog (ScaleRulesSaved dcIds min max); NowClose];;
    return_ 0
  else
    perform [ConsoleLog (ScaleRulesSaved dcIds min max)];;
    verification i a d scaleArgs.

Definition main (i : input) : M Z :=
  a ← match parsed i with
      | Ok a => mret a
      | Raise err => perform [HandleError err];; return_ 1
      end;
  if help a then perform [Help];; return_ 2 else
  let args := positional a in
  (* extract the first parameter; `now scale ls` has been deprecated *)
  if bool_decide (args !! 0%nat = Some "ls") then
    perform [Error_ ScaleLsDeprecated];; return_ 1
  else if bool_decide (length args < 2)%nat then
    perform [Error_ AtLeastTwoArguments; Help];; return_ 1
  else if bool_decide (4 < length args)%nat then
    perform [Error_ AtMostFourArguments; Help];; return_ 1
  else if bool_decide (is_Some (verifyTimeout a)) && noVerify a then
    perform [Error_ VerifyTimeoutWithNoVerify];; return_ 1
  else if match verifyTimeout a with
          | Some vt => bool_decide (ms i vt = None)
          | None => false
          end then
    perform [Error_ InvalidTimeString];; return_ 1
  else
  let id := default "" (args !! 0%nat) in
  '(dcIdOrMin, minmax) ← legacyArguments args (default "" (args !! 1%nat));
  (* extract the dcs *)
  dcIds ← match normalizeRegionsList i (split "," dcIdOrMin) with
          | Ok dcIds => perform [Debug (NormalizedTo dcIdOrMin dcIds)];; mret dcIds
          | Raise err =>
              if bool_decide (code err = Some "INVALID_ID") then
                perform [Error_ (InvalidDc (match err with
                                            | CodedError _ id => id
                                            | _ => ""
                                            end))];;
                return_ 1
              else if bool_decide (code err = Some "INVALID_ALL") then
                perform [Error_ AllWithOthers];; return_ 1
              else throw err
          end;
  (* convert numeric parameters into actual numbers *)
  '(min, max) ← numericArguments args minmax;
  _ ← match list_find (λ item, item.1 = "sh") (credentials i) with
      | Some _ => mret ()
      | None => throw (TypeError "Cannot destructure property 'token' of undefined")
      end;
  (* resolve the deployment, since we might have been given an alias *)
  perform [WaitStart (FetchingDeployment id); FindDeployment id; WaitStop];;
  d ← match found i with
      | Ok d => mret d
      | Raise err =>
          if bool_decide (status err = Some 404) then
            perform [Error_ (FailedToFindDeployment id); NowClose];; return_ 1
          else throw err
      end;
  perform [Log (FetchedDeployment (url d))];;
  if bool_decide (type d = TYPE_STATIC) then
    perform [Error_ StaticDeployment; NowClose];; return_ 1
  else if bool_decide (state_ d = STATE_ERROR) then
    perform [Error_ DeploymentInErrorState; NowClose];; return_ 1
  else
  let scaleArgs := buildScaleArgs dcIds min max in
  perform [Debug (ScaleArgs scaleArgs);
           WaitStart (SettingScaleRules dcIds min max);
           PatchInstances (uid d) scaleArgs; WaitStop];;
  _ ← match patched i with
      | Ok _ => mret ()
      | Raise err =>
          if bool_decide (status err = Some 400) then
            if bool_decide (code err = Some "forbidden_min_instances") then
              perform [Error_ ForbiddenMinInstances];; return_ 1
            else if bool_decide (code err = Some "forbidden_max_instances") then
              perform [Error_ ForbiddenMaxInstances];; return_ 1
            else if bool_decide (code err = Some "wrong_min_max_relation") then
              perform [Error_ WrongMinMaxRelation];; return_ 1
            else throw err
          else throw err
      end;
  verify i a d scaleArgs dcIds min max.

(** The command run from an empty record of effects. *)
Definition run (i : input) : list effect * completion Z :=
  match main i [] with
  | (tr, inl code) => (tr, Returned code)
  | (tr, inr c) => (tr, c)
  end.

End Scale.

(** ** The deploy command *)

Module Deploy.

(** What the command does to the outside, in the order it does it. *)
Inductive effect :=
| Log (text : string)
| LogVerified (dc : string) (instanceCount : Z)
| Error_ (text : string)
| Success (text : string)
| WaitStart (remainingDcs : list string)
| WaitStop
| GetInstances (deploymentId : string)
| Sleep (ms : Z).

(** *** The text of build events *)

Definition newline : ascii := "010"%char.

(** [text.replace(/\n$/, '')]: drop one newline at the very end. *)
Fixpoint dropFinalNewline (text : string) : string :=
  match text with
  | EmptyString => EmptyString
  | String a EmptyString =>
      if decide (a = newline) then EmptyString else String a EmptyString
  | String a rest => String a (dropFinalNewline rest)
  end.

(** [text.replace(/^\n/, '')]: drop one newline at the very start. *)
Definition dropFirstNewline (text : string) : string :=
  match text with
  | String a rest => if decide (a = newline) then rest else text
  | EmptyString => EmptyString
  end.

Definition formatText (text : string) : string :=
  dropFirstNewline (dropFinalNewline text).

(** [v.replace(/^> /, '')] *)
Definition dropPrompt (v : string) : string :=
  match v with
  | String ">" (String " " rest) => rest
  | _ => v
  end.

(** *** The build events of [sync] *)

Record payload := { value : string; text : string }.

(** An event of the deployment: its [type] and the two properties of its
    [payload] that the command reads. *)
Record event := { type : string; payload_ : payload }.

(** How the sequence of events goes on after the scripted events: the
    iterator is done, it throws, or nothing more arrives. *)
Inductive ending :=
| Ended
| Failed (e : exn)
| Waiting.

(** What the loop body prints for an event that is not a final state. *)
Definition display (ev : event) : list effect :=
  if decide (type ev = "build-start") then [Log "Building…"]
  else if decide (type ev = "command") then
    [Log ("▲ " +:+ formatText (text (payload_ ev)))]
  else if bool_decide (type ev = "stdout") || bool_decide (type ev = "stderr") then
    (λ v, Log (dropPrompt v)) <$> split newline (formatText (text (payload_ ev)))
  else [].

Definition isStateChange (ev : event) (v : string) : bool :=
  bool_decide (type ev = "state-change") && bool_decide (value (payload_ ev) = v).

(** The state of the event loop: what was printed and how many events were
    taken from the iterator. *)
Record consumer := { printed : list effect; taken : nat }.

Definition take (es : list effect) (c : consumer) : consumer :=
  {| printed := printed c ++ es; taken := S (taken c) |}.

(** Modelled from the spec: the [exit] helper ([util/exit]) is not among the
    sources. [await exit(code)] ends the process with that code; nothing
    after it runs, so the consumer stops there. It is the completion
    [Exited code]. *)
Definition exit {A} (code : Z) : completion A := Exited code.

(** [for await (const event of events) { ... }] of [sync]. [Returned ()] is
    the loop left by [break] or by the end of the iterator. *)
Fixpoint forAwait (events : list event) (after : ending) (c : consumer)
  : consumer * completion () :=
  match events with
  | [] =>
      match after with
      | Ended => (c, Returned ())
      | Failed e => (c, Threw e)
      | Waiting => (c, Pending)
      end
  | ev :: events' =>
      (* Stop when the deployment is ready *)
      if isStateChange ev "READY" then
        (take [Log "Build completed"] c, Returned ())
      (* Stop then there is an error state *)
      else if isStateChange ev "ERROR" then
        (take [Error_ "Build failed"] c, exit 1)
      (* For any relevant event we receive, print the result *)
      else forAwait events' after (take (display ev) c)
  end.

(** *** [matchMinPresets] and [getMatchingScalePresets] *)

(** [instancesObj] is [instances[dc]]: [None] is [undefined], and reading
    its [instances] throws. *)
Definition matchMinPresets (scalePreset : scaleRule)
  (instancesObj : option instancesObj) : result bool :=
  let value := Math_max (Int 1) (toNumber (min scalePreset)) in
  match instancesObj with
  | None => Raise (TypeError "Cannot read property 'instances' of undefined")
  | Some o => Ok (ge (Int (instancesLength o)) value)
  end.

(** The [reduce] of [getMatchingScalePresets] over the keys still to visit,
    [result] being the accumulator. *)
Fixpoint reduceKeys (scale : scaleObj) (instances : snapshot)
  (predicate : scaleRule → option instancesObj → result bool)
  (keys : list string) (result : list string) : Js.result (list string) :=
  match keys with
  | [] => Ok result
  | dc :: keys' =>
      match get scale dc with
      | None => Raise (TypeError "Cannot read property 'min' of undefined")
      | Some preset =>
          match predicate preset (instances !! dc) with
          | Raise e => Raise e
          | Ok true => reduceKeys scale instances predicate keys' (result ++ [dc])
          | Ok false => reduceKeys scale instances predicate keys' result
          end
      end
  end.

Definition getMatchingScalePresets (scale : scaleObj) (instances : snapshot)
  (predicate : scaleRule → option instancesObj → result bool)
  : Js.result (list string) :=
  reduceKeys scale instances predicate (Object_keys scale) [].

(** *** [waitForScale] *)

Definition timeoutError : exn :=
  Error "Timeout while verifying instance count (10m)".

Definition checkInterval : Z := 1000.

(** [ms('2m')] *)
Definition timeout : Z := 120000.

Record state := { remainingMatches : StrSet; trace : list effect }.

Definition say (es : list effect) (st : state) : state :=
  {| remainingMatches := remainingMatches st; trace := trace st ++ es |}.

Definition renderRemainingDCsWait (remainingDcs : list string) : list effect :=
  [WaitStart remainingDcs].

(** The lines printed for the new matches; the count is read from the
    snapshot of this turn. *)
Definition printNewMatches (instances : snapshot) (newMatches : StrSet)
  : list effect :=
  (λ dc, LogVerified dc (from_option instancesLength 0 (instances !! dc)))
    <$> newMatches.

(** The [while (true)] loop over the scripted turns. *)
Fixpoint loop (deploymentId : string) (scale : scaleObj) (start : Z)
  (script : list cycle) (st : state) : state * completion () :=
  match script with
  | [] => (st, Pending)
  | c :: script' =>
      if start + timeout <=? clock c then
        (say [WaitStop] st, Threw timeoutError)
      else
        (* Get the matches for deployment scale args *)
        let st := say [GetInstances deploymentId] st in
        match fetched c with
        | FetchFailed e => (st, Threw e)
        | FetchOk instances =>
            match getMatchingScalePresets scale instances matchMinPresets with
            | Raise e => (st, Threw e)
            | Ok found =>
                let matches := Set_new found in
                let newMatches := filter (λ dc, Set_has matches dc) (remainingMatches st) in
                let remaining := filter (λ dc, ¬ Set_has matches dc) (remainingMatches st) in
                let st := {| remainingMatches := remaining; trace := trace st |} in
                (* When there are new matches we print and check if we are done *)
                if bool_decide (Set_size newMatches ≠ 0%nat) then
                  let st := say (WaitStop :: printNewMatches instances newMatches) st in
                  if bool_decide (Set_size remaining = 0%nat) then (st, Returned ())
                  else
                    loop deploymentId scale start script'
                      (say (renderRemainingDCsWait remaining ++ [Sleep checkInterval]) st)
                else
                  loop deploymentId scale start script' (say [Sleep checkInterval] st)
            end
        end
  end.

Definition waitForScale (deploymentId : string) (scale : scaleObj)
  (start : Z) (script : list cycle) (tr : list effect) : state * completion () :=
  loop deploymentId scale start script
    {| remainingMatches := Set_new (Object_keys scale);
       trace := tr ++ renderRemainingDCsWait (Object_keys scale) |}.

(** *** The end of [sync]: build logs, then the verification *)

(** What the end of [sync] receives from outside. *)
Record input := {
  noVerify : bool;
  deploymentId : string;
  scale : scaleObj;
  events : list event;
  after : ending;
  start : Z;
  script : list cycle
}.

(** The branch of [sync] for a deployment that is not ready yet: the event
    loop, the verification unless [noVerify], and the exit code. *)
Definition sync (i : input) : list effect * completion Z :=
  match forAwait (events i) (after i) {| printed := []; taken := 0 |} with
  | (c, Returned _) =>
      (* Wait for scale if we need to and exit *)
      if noVerify i then (printed c ++ [Success "Deployment ready"], exit 0)
      else
        match waitForScale (deploymentId i) (scale i) (start i) (script i) (printed c) with
        | (st, Returned _) => (trace st ++ [Success "Deployment ready"], exit 0)
        | (st, Threw _) =>
            (trace st ++ [Error_ "Instance verification timed out (2m)";
                          Log "Read more: https://err.sh/now-cli/verification-timeout"],
             exit 1)
        | (st, Pending) => (trace st, Pending)
        | (st, Exited n) => (trace st, Exited n)
        end
  | (c, Threw e) => (printed c, Threw e)
  | (c, Pending) => (printed c, Pending)
  | (c, Exited n) => (printed c, Exited n)
  end.

End Deploy.

(** ** Notions used to state the properties *)

Module Notions.

(** The region [dc] is in the snapshot with a count inside its bounds. *)
Definition satisfied (intendedScale : scaleObj) (data : snapshot) (dc : string)
  : bool :=
  match data !! dc, get intendedScale dc with
  | Some o, Some r => Scale.isInstanceCountBetween (instancesLength o) (min r) (max r)
  | _, _ => false
  end.

(** What one turn of the scale command's loop leaves of the regions it
    visits in order: it drops the satisfied ones up to the first region that
    is missing from the snapshot and keeps everything from there on. *)
Fixpoint survivors (intendedScale : scaleObj) (data : snapshot)
  (todo : list string) : list string :=
  match todo with
  | [] => []
  | dc :: todo' =>
      match data !! dc with
      | None => dc :: todo'
      | Some _ =>
          if satisfied intendedScale data dc
          then survivors intendedScale data todo'
          else dc :: survivors intendedScale data todo'
      end
  end.

(** A state-change event to one of the two final states. *)
Definition isFinal (ev : Deploy.event) : bool :=
  Deploy.isStateChange ev "READY" || Deploy.isStateChange ev "ERROR".

(** A turn of the script made before the deadline in which the snapshot
    arrives without the region [dc]. *)
Definition missingBefore (deadline : Z) (dc : string) (c : cycle) : Prop :=
  clock c < deadline ∧ ∃ data, fetched c = FetchOk data ∧ data !! dc = None.

(** Callback code lifted to a world with a counter beside it. *)
Fixpoint lift {W : Type} (c : Scale.callback W) : Scale.callback (W * nat) :=
  match c with
  | Scale.Return => Scale.Return
  | Scale.Throw e => Scale.Throw e
  | Scale.Do f k => Scale.Do (λ w, (f w.1, w.2)) (λ w, lift (k w.1))
  | Scale.Emit event k => Scale.Emit event (λ r, lift (k r))
  end.

(** The callback [fn] with a counter of its calls added to the world. *)
Definition counted {W : Type} (fn : Scale.callback W) : Scale.callback (W * nat) :=
  Scale.Do (λ w, (w.1, S w.2)) (λ _, lift fn).

(** Callback code that, whatever it does, emits none of the three events
    the handler of [onExit] is registered on. *)
Inductive silent {W : Type} : Scale.callback W → Prop :=
| silent_Return : silent Scale.Return
| silent_Throw e : silent (Scale.Throw e)
| silent_Do f k : (∀ w, silent (k w)) → silent (Scale.Do f k)
| silent_Emit event k :
    event ∉ ["SIGTERM"; "SIGINT"; "exit"] →
    (∀ r, silent (k r)) → silent (Scale.Emit event k).

(** What callback code does to the world when no listener is registered
    on the events it emits. *)
Fixpoint plain {W : Type} (c : Scale.callback W) (w : W) : W * option exn :=
  match c with
  | Scale.Return => (w, None)
  | Scale.Throw e => (w, Some e)
  | Scale.Do f k => plain (k (f w)) (f w)
  | Scale.Emit _ k => plain (k None) w
  end.

(** The input of the scale command with another clock and other snapshots
    for the verification. *)
Definition withPolling (i : Scale.input) (start : Z) (script : list cycle)
  : Scale.input :=
  {| Scale.parsed := Scale.parsed i;
     Scale.ms := Scale.ms i;
     Scale.normalizeRegionsList := Scale.normalizeRegionsList i;
     Scale.credentials := Scale.credentials i;
     Scale.found := Scale.found i;
     Scale.patched := Scale.patched i;
     Scale.start := start;
     Scale.script := script |}.

(** The effects that only the verification of the scale command has: the
    snapshot requests, the pauses between them, the progress display of
    [waitDcs] and the exit hook. *)
Definition ofVerification (e : Scale.effect) : bool :=
  match e with
  | Scale.GetInstances _ | Scale.Sleep _ | Scale.ProcessOn _
  | Scale.ProcessRemoveListener _
  | Scale.WaitStart (Scale.WaitingForInstances _)
  | Scale.Success _ => true
  | _ => false
  end.

(** [Q] holds of the effects and of the end of the computation [m] run
    after the effects [tr]. *)
Definition post {A : Type} (m : Scale.M A) (tr : list Scale.effect)
  (Q : list Scale.effect → A + completion Z → Prop) : Prop :=
  Q (m tr).1 (m tr).2.

Definition isPatchInstances (e : Scale.effect) : bool :=
  match e with
  | Scale.PatchInstances _ _ => true
  | _ => false
  end.

(** What a run of the scale command that leaves the verification out looks
    like: none of its effects belongs to the verification, and if it sent
    the scale rules, the confirmation and the closing of the client are all
    that follows, with exit code 0. *)
Definition skipped (tr : list Scale.effect) (r : Z + completion Z) : Prop :=
  forallb (λ e, negb (ofVerification e)) tr = true ∧
  (existsb isPatchInstances tr = true →
   r = inr (Returned 0) ∧
   ∃ pre uid scaleArgs dcIds lo hi,
     tr = pre ++ [Scale.PatchInstances uid scaleArgs; Scale.WaitStop;
                  Scale.ConsoleLog (Scale.ScaleRulesSaved dcIds lo hi);
                  Scale.NowClose]).

End Notions.

(** ** The inspect command *)

Module Inspect.

Definition STATIC : string := "STATIC".

(** A string as [chalk] styles it. *)
Inductive styled :=
| Plain (s : string)
| Bold (s : string)
| Yellow (s : string)
| Red (s : string)
| Gray (s : string)
| Green (s : string).

(** An entry of the events answer: its name, the two properties of its
    payload the command reads ([dc] is [None] when [payload.dc] is [null] or
    absent), and its time. *)
Record payload := { value : string; dc : option string }.
Record Event := { event : string; payload_ : payload; created : Z }.

(** gets the metadata that should be printed next to each event *)
Definition getEventMetadata (e : Event) : styled :=
  if decide (event e = "state") then Bold (value (payload_ e))
  else if bool_decide (event e = "instance-start")
          || bool_decide (event e = "instance-stop") then
    match dc (payload_ e) with
    | Some d => Green ("(" +:+ d +:+ ")")
    | None => Plain ""
    end
  else Plain "".

(** What a promise wrapped in [caught] resolves to: the error instead of a
    rejection, or the value. *)
Inductive settled (A : Type) :=
| IsError (e : exn)
| Value (a : A).
Arguments IsError {A} e.
Arguments Value {A} a.

(** makes sure the promise never rejects, exposing the error as the resolved
    value instead *)
Definition caught {A} (p : result A) : settled A :=
  match p with
  | Ok a => Value a
  | Raise e => IsError e
  end.

(** renders the state string *)
Definition stateString (s : string) : styled :=
  if decide (s = "INITIALIZING") then Yellow s
  else if decide (s = "ERROR") then Red s
  else if decide (s = "READY") then Plain s
  else Gray "UNKNOWN".

Record argv := { help : bool; positional : list string }.

Record deployment := {
  uid : string;
  name : string;
  state : string;
  type : string;
  url : string;
  created_ : Z;
  scale : scaleObj
}.

(** A line of the scale table: dc, min, max, current. *)
Record row := {
  rowDc : string;
  rowMin : scaleValue;
  rowMax : scaleValue;
  rowCurrent : Z
}.

(** [v || 0] for a configured bound: [undefined] and [0] give [0]. *)
Definition orZero (v : option scaleValue) : scaleValue :=
  match v with
  | None | Some (Num 0) => Num 0
  | Some v => v
  end.

(** The lines of the scale table, one for each dc of the instances answer:
    [cfg = deployment.scale[dc] || {}], then [cfg.min || 0], [cfg.max || 0]
    and [instances.length]. *)
Definition tableRows (d : deployment) (answer : list (string * instancesObj))
  : list row :=
  (λ '(dc, o),
     let cfg := get (scale d) dc in
     {| rowDc := dc;
        rowMin := orZero (min <$> cfg);
        rowMax := orZero (max <$> cfg);
        rowCurrent := instancesLength o |}) <$> answer.

(** What the command prints with [print]. *)
Inductive text :=
| Newline
| MetaHeader
| MetaUid (uid : string)
| MetaName (name : string)
| MetaState (state : styled)
| MetaType (type : string)
| MetaUrl (url : string)
| MetaCreated (created : Z)
| ScaleHeader
| ScaleTable (rows : list row)
| EventsHeader
| EventLine (created : Z) (event : string) (metadata : styled).

Inductive message :=
| ExpectsOneArgument
| FetchingDeployment (id : string)
| FailedToFindDeployment (id : string)
| NoPermission (id : string)
| FetchedDeployment (url : string)
| ScaleUnavailable (scale : exn)
| EventsUnavailable (scale : settled (list (string * instancesObj))).

Inductive effect :=
| HandleError (e : exn)
| Help
| Error_ (m : message)
| Log (m : message)
| Print (t : text)
| WaitStart (m : message)
| WaitStop
| FindDeployment (id : string)
| GetInstances (uid : string)
| GetEvents (uid : string).

(** Everything [main] receives from outside: the parsed command line, the
    stored credentials and the answers of the API. The instances answer is an
    object from dc to its instances, in the order of its keys; the events
    answer is a list, or [None] for an answer that is not truthy. *)
Record input := {
  parsed : result argv;
  credentials : list (string * string);
  found : result deployment;
  instancesAnswer : result (list (string * instancesObj));
  eventsAnswer : result (option (list Event))
}.

Definition status (e : exn) : option Z :=
  match e with
  | ApiError s _ => Some s
  | _ => None
  end.

(** The [Meta] block. *)
Definition printMeta (d : deployment) : list effect :=
  Print <$> [Newline; MetaHeader; MetaUid (uid d); MetaName (name d);
             MetaState (stateString (state d)); MetaType (type d);
             MetaUrl (url d); MetaCreated (created_ d); Newline].

(** The [Scale] block and the exit code it leaves. *)
Definition printScale (d : deployment)
  (scale : settled (list (string * instancesObj))) : list effect * Z :=
  match scale with
  | IsError e => ([Print ScaleHeader; Error_ (ScaleUnavailable e)], 1)
  | Value answer =>
      ([Print ScaleHeader; Print (ScaleTable (tableRows d answer)); Print Newline], 0)
  end.

(** The [Events] block; [exitCode] is the code so far. The message for
    events that could not be fetched interpolates [scale]. *)
Definition printEvents (scale : settled (list (string * instancesObj)))
  (events : settled (option (list Event))) (exitCode : Z) : list effect * Z :=
  match events with
  | IsError _ => ([Print EventsHeader; Error_ (EventsUnavailable scale)], 1)
  | Value (Some events) =>
      (Print EventsHeader ::
       ((λ data, Print (EventLine (created data) (event data) (getEventMetadata data)))
          <$> events) ++ [Print Newline],
       exitCode)
  | Value None => ([Print EventsHeader], exitCode)
  end.

Definition main (i : input) : list effect * completion Z :=
  match parsed i with
  | Raise err => ([HandleError err], Returned 1)
  | Ok a =>
      if help a then ([Help], Returned 2)
      else if bool_decide (length (positional a) ≠ 1%nat) then
        ([Error_ ExpectsOneArgument; Help], Returned 1)
      else
        (* extract the first parameter *)
        let id := default "" (positional a !! 0%nat) in
        match list_find (λ item, item.1 = "sh") (credentials i) with
        | None =>
            ([], Threw (TypeError "Cannot destructure property 'token' of undefined"))
        | Some _ =>
            (* resolve the deployment, since we might have been given an alias *)
            let tr := [WaitStart (FetchingDeployment id); FindDeployment id] in
            match found i with
            | Raise err =>
                if bool_decide (status err = Some 404) then
                  (tr ++ [WaitStop; Error_ (FailedToFindDeployment id)], Returned 1)
                else if bool_decide (status err = Some 403) then
                  (tr ++ [WaitStop; Error_ (NoPermission id)], Returned 1)
                else (tr ++ [WaitStop], Threw err)
            | Ok d =>
                let static := bool_decide (type d = STATIC) in
                let scale := caught (instancesAnswer i) in
                let tr :=
                  tr ++ [GetInstances (uid d)]
                     ++ (if static then [] else [GetEvents (uid d)])
                     ++ [WaitStop; Log (FetchedDeployment (url d))]
                     ++ printMeta d in
                if static then (tr, Returned 0)
                else
                  let '(es, exitCode) := printScale d scale in
                  let '(es', exitCode) :=
                    printEvents scale (caught (eventsAnswer i)) exitCode in
                  (tr ++ es ++ es', Returned exitCode)
            end
        end
  end.

End Inspect.

(** ** The options of the deploy command *)

Module DeployOptions.

(** *** Objects with string keys *)

(** An ordinary object is given as its own enumerable properties in the
    order [Object.keys] lists them: the array indices in ascending order
    first, then the other keys in the order of their creation. *)

(** [o[key]] for a key of [Object.keys(o)]: the own property; [None] when
    the object has no own property [key]. *)
Fixpoint getProp {V} (o : list (string * V)) (key : string) : option V :=
  match o with
  | [] => None
  | (k, v) :: o' => if decide (k = key) then Some v else getProp o' key
  end.

(** [key] as an array index: a canonical numeric string below [2^32 - 1]. *)
Definition arrayIndex (key : string) : option Z :=
  let canonical := match key with
                   | String "0" (String _ _) => false
                   | _ => test_digits key
                   end in
  if canonical && (Number key <? 4294967295) then Some (Number key) else None.

(** Whether a new property [key] is listed before the property [k]. *)
Definition precedes (key k : string) : bool :=
  match arrayIndex key, arrayIndex k with
  | Some n, Some m => n <? m
  | Some _, None => true
  | None, _ => false
  end.

(** The value of the own property [key] replaced; its place is kept. *)
Fixpoint replaceProp {V} (o : list (string * V)) (key : string) (v : V)
  : list (string * V) :=
  match o with
  | [] => []
  | (k, v') :: o' =>
      if decide (k = key) then (k, v) :: o' else (k, v') :: replaceProp o' key v
  end.

(** A new own property [key], at its place in the order of the keys. *)
Fixpoint createProp {V} (o : list (string * V)) (key : string) (v : V)
  : list (string * V) :=
  match o with
  | [] => [(key, v)]
  | (k, v') :: o' =>
      if precedes key k then (key, v) :: o else (k, v') :: createProp o' key v
  end.

(** *** The paths to deploy *)

(** The start of [main]: a leading [sh] and then a leading [deploy] are
    dropped from [argv._]; what is left is resolved against the working
    directory, which is the path itself when nothing is left. *)
Definition commandPaths (resolve : string → string) (cwd : string)
  (args : list string) : list string :=
  let args := match args with
              | "sh" :: rest => rest
              | _ => args
              end in
  let args := match args with
              | "deploy" :: rest => rest
              | _ => args
              end in
  if bool_decide (0 < length args)%nat then resolve <$> args else [cwd].

(** The list of paths in the message [Deploying ... under ...]: [render] is
    the bold human path. *)
Definition deployingList (render : string → string) (paths : list string)
  : string :=
  let n := length paths in
  foldr String.append ""
    (imap (λ index path,
             let suffix :=
               if bool_decide (1 < n)%nat && bool_decide (index ≠ n - 1)%nat
               then if bool_decide (index < n - 2)%nat then ", " else " and "
               else "" in
             render path +:+ suffix)
          paths).

(** *** Environment variables *)

(** A value of an env object: [undefined] (inherit from the user's env),
    [null] (prompt for it), a string, or the reference [{ uid }] to a
    secret. *)
Inductive envValue :=
| Undefined
| Null
| Str (s : string)
| SecretRef (uid : string).

#[global] Instance envValue_eq_dec : EqDecision envValue.
Proof. solve_decision. Defined.

Abbreviation envObj := (list (string * envValue)).

(** An object that is written to: its own properties, and whether its
    prototype is [null]. An object literal has the prototype
    [Object.prototype], from which it inherits the accessor [__proto__];
    all other inherited properties are writable data properties. *)
Record object := { protoNull : bool; own : envObj }.

(** [{}] *)
Definition emptyObject : object := {| protoNull := false; own := [] |}.

(** [o[key] = v]. An own property is overwritten. The key [__proto__] that
    is not an own property reaches the inherited setter, which creates no
    property: [null] becomes the prototype, an object too (it inherits the
    setter in turn), any other value is ignored. Every other key becomes a
    new own property. *)
Definition setProp (o : object) (key : string) (v : envValue) : object :=
  if bool_decide (key ∈ (own o).*1) then
    {| protoNull := protoNull o; own := replaceProp (own o) key v |}
  else if bool_decide (key = "__proto__") && negb (protoNull o) then
    match v with
    | Null => {| protoNull := true; own := own o |}
    | _ => o
    end
  else {| protoNull := protoNull o; own := createProp (own o) key v |}.

(** [Object.assign(target, source)]: every own property of the source is
    written to the target with [target[key] = value]. *)
Definition Object_assign (target : object) (source : envObj) : object :=
  foldl (λ o kv, setProp o kv.1 kv.2) target source.

(** The [env] argument of [parseEnv]: nothing, one string, an array of
    strings, or an object. *)
Inductive envArg :=
| NoEnv
| OneEnv (e : string)
| ManyEnv (l : list string)
| EnvObject (o : envObj).

(** [e.indexOf(c)] *)
Fixpoint indexOf (c : ascii) (e : string) : option nat :=
  match e with
  | EmptyString => None
  | String a e' => if decide (a = c) then Some 0%nat else S <$> indexOf c e'
  end.

(** [e.substr(0, n)] *)
Fixpoint substrTo (n : nat) (e : string) : string :=
  match n, e with
  | S n', String a e' => String a (substrTo n' e')
  | _, _ => EmptyString
  end.

(** [e.substr(n)] *)
Fixpoint substrFrom (n : nat) (e : string) : string :=
  match n, e with
  | S n', String _ e' => substrFrom n' e'
  | _, _ => e
  end.

(** The body of the [reduce] of [parseEnv]. *)
Definition addEntry (empty : envValue) (o : object) (e : string) : object :=
  match indexOf "=" e with
  | None => setProp o e empty
  | Some equalsSign =>
      setProp o (substrTo equalsSign e) (Str (substrFrom (equalsSign + 1) e))
  end.

(** Converts [env] Arrays, Strings and Objects into env Objects. The empty
    string is not truthy, an empty array is. The result is given as its
    own properties: [sync] passes it to [Object.assign] as a source, which
    reads nothing else of it. *)
Definition parseEnv (env : envArg) (empty : envValue) : envObj :=
  match env with
  | NoEnv => []
  | OneEnv "" => []
  | OneEnv e => own (foldl (addEntry empty) emptyObject [e])
  | ManyEnv l => own (foldl (addEntry empty) emptyObject l)
  | EnvObject o => o
  end.

(** Merge dotenv config, [env] from now.json, and [--env] / [-e] arguments:
    the own properties of the merged object. *)
Definition mergeEnv (dotenvConfig : option envObj) (nowConfigEnv argvEnv : envArg)
  : envObj :=
  own (Object_assign
         (Object_assign (Object_assign emptyObject (default [] dotenvConfig))
            (parseEnv nowConfigEnv Null))
         (parseEnv argvEnv Undefined)).

(** If there's any envs with [null] then prompt the user for the values *)
Definition askFor (deploymentEnv : envObj) : list string :=
  (filter (λ kv, kv.2 = Null) deploymentEnv).*1.

Inductive message :=
| PleaseEnterValues
| EnterAValueFor (answer : string)
| MissingName
| InvalidKey (key : string)
| ReadingFromEnv (key : string)
| NoValueSpecified (key : string)
| EmptyReference (key : string)
| NoSecretFound (uidOrName : string)
| AmbiguousSecret (uidOrName : string) (matches : nat)
| InvalidScaleKey (scaleKey : string)
| RegionsAndScale
| InvalidRegion (id : string)
| AllWithOthers.

Inductive effect :=
| Log (m : message)
| Error_ (m : message)
| HandleError (m : message)
| Prompt (questions : list string).

(** [promptForEnvFields(list)]; [answers] is what [inquirer.prompt] gives.
    The first empty answer stops the deployment. *)
Definition promptForEnvFields (list_ : list string) (answers : list (string * string))
  : list effect * completion (list (string * string)) :=
  if bool_decide (length list_ = 0%nat) then ([], Returned [])
  else
    let tr := [Log PleaseEnterValues; Prompt list_] in
    match list_find (λ answer, answer.2 = "") answers with
    | Some (_, (answer, _)) =>
        (tr ++ [HandleError (EnterAValueFor answer)], Deploy.exit 1)
    | None => (tr, Returned answers)
    end.

(** The members of the class [[A-z0-9_]]. *)
Definition classMembers : list ascii :=
  ascii_of_nat <$> (seq 65 58 ++ seq 48 10 ++ [95%nat]).

(** [Canonicalize] under the [i] flag: the upper case of a letter. *)
Definition canonicalize (a : ascii) : ascii :=
  let n := nat_of_ascii a in
  if (97 <=? n)%nat && (n <=? 122)%nat then ascii_of_nat (n - 32) else a.

(** A character matches [[^A-z0-9_]] under the [i] flag when no member of
    the class has its canonical form. *)
Definition matchesNegatedClass (a : ascii) : bool :=
  negb (existsb (λ m, bool_decide (canonicalize m = canonicalize a)) classMembers).

(** [/[^A-z0-9_]/i.test(key)] *)
Fixpoint testInvalid (key : string) : bool :=
  match key with
  | EmptyString => false
  | String a key' => matchesNegatedClass a || testInvalid key'
  end.

(** [v.replace(/^@/, '\\@')] *)
Definition escapeAt (v : string) : string :=
  match v with
  | String "@" _ => String "\" v
  | _ => v
  end.

(** [val.replace(/^\\@/, '@')] *)
Definition unescapeAt (val : string) : string :=
  match val with
  | String "\" (String "@" rest) => String "@" rest
  | _ => val
  end.

Record secret := { name : string; uid : string }.

(** [findSecret(uidOrName)] on the listed secrets. *)
Definition findSecret (secrets : list secret) (uidOrName : string) : list secret :=
  filter (λ secret, name secret = uidOrName ∨ uid secret = uidOrName) secrets.

(** The callback that [sync] maps over the keys of the merged env, for one
    key: the pair [[key, val]] it gives, or the error after which it ends
    the process with code 1. [processEnv] is [process.env], [secrets] the
    answer of [now.listSecrets()]. How the callbacks of several keys
    interleave is not part of this. *)
Definition envEntry (processEnv : gmap string string) (secrets : list secret)
  (deploymentEnv : envObj) (key : string)
  : list effect * completion (string * envValue) :=
  if decide (key = "") then ([Error_ MissingName], Deploy.exit 1)
  else if testInvalid key then ([Error_ (InvalidKey key)], Deploy.exit 1)
  else
    let read :=
      match default Undefined (getProp deploymentEnv key) with
      | Undefined =>
          match processEnv !! key with
          | Some v => ([Log (ReadingFromEnv key)], Some (Str (escapeAt v)))
          | None => ([Error_ (NoValueSpecified key)], None)
          end
      | val => ([], Some val)
      end in
    match read with
    | (tr, None) => (tr, Deploy.exit 1)
    | (tr, Some (Str (String "@" uidOrName))) =>
        match findSecret secrets uidOrName with
        | [] =>
            (tr ++ [Error_ (if decide (uidOrName = "")
                            then EmptyReference key
                            else NoSecretFound uidOrName)],
             Deploy.exit 1)
        | [s] => (tr, Returned (key, SecretRef (uid s)))
        | _secrets =>
            (tr ++ [Error_ (AmbiguousSecret uidOrName (length _secrets))],
             Deploy.exit 1)
        end
    | (tr, Some (Str val)) => (tr, Returned (key, Str (unescapeAt val)))
    | (tr, Some Null) =>
        (tr, Threw (TypeError "Cannot read property '0' of null"))
    | (tr, Some val) => (tr, Returned (key, val))
    end.

(** *** Regions and scale *)

(** The [regions] and [scale] settings of now.json; [None] is a setting
    left out. *)
Record nowConfig := {
  configRegions : option (list string);
  configScale : option scaleObj
}.

(** The first key of the scale settings that is not a region or dc. *)
Definition firstInvalidKey (isValidRegionOrDcId : string → bool) (scale : scaleObj)
  : option string :=
  snd <$> list_find (λ scaleKey, isValidRegionOrDcId scaleKey = false)
            (Object_keys scale).

(** [for (const dcId of dcIds) scale[dcId] = { min: 0, max: 1 }] *)
Definition enableDcs (scale : scaleObj) (dcIds : list string) : scaleObj :=
  foldl (λ scale dcId, set scale dcId {| min := Num 0; max := Num 1 |}) scale dcIds.

(** The part of [sync] that settles the scale of the new deployment from the
    [--regions] option and now.json. [isValidRegionOrDcId] and
    [normalizeRegionsList] are the helpers of [util/dcs]. *)
Definition resolveScale (isValidRegionOrDcId : string → bool)
  (normalizeRegionsList : list string → result (list string))
  (regions : list string) (config : option nowConfig)
  : list effect * completion scaleObj :=
  let '(regions, scale) :=
    if bool_decide (length regions ≠ 0%nat) then
      (* ignore now.json if regions cli option exists *)
      (regions, [])
    else
      (default [] (config ≫= configRegions), default [] (config ≫= configScale)) in
  (* get all the region or dc identifiers from the scale settings *)
  match firstInvalidKey isValidRegionOrDcId scale with
  | Some scaleKey => ([Error_ (InvalidScaleKey scaleKey)], Deploy.exit 1)
  | None =>
      if bool_decide (length regions ≠ 0%nat) then
        if bool_decide (length (Object_keys scale) ≠ 0%nat) then
          ([Error_ RegionsAndScale], Deploy.exit 1)
        else
          match normalizeRegionsList regions with
          | Ok dcIds => ([], Returned (enableDcs scale dcIds))
          | Raise err =>
              if bool_decide (Scale.code err = Some "INVALID_ID") then
                ([Error_ (InvalidRegion (match err with
                                         | CodedError _ id => id
                                         | _ => ""
                                         end))],
                 Deploy.exit 1)
              else if bool_decide (Scale.code err = Some "INVALID_ALL") then
                ([Error_ AllWithOthers], Deploy.exit 1)
              else ([], Threw err)
          end
      else ([], Returned scale)
  end.

End DeployOptions.

(** ** Further notions used to state properties *)

Module Facts.

(** The region [dc] is in the snapshot with at least [max(1, min)]
    instances: what the deploy command waits for. *)
Definition reached (scale : scaleObj) (data : snapshot) (dc : string) : bool :=
  match data !! dc, get scale dc with
  | Some o, Some preset =>
      ge (Int (instancesLength o)) (Math_max (Int 1) (toNumber (min preset)))
  | _, _ => false
  end.

(** What an effect does to the progress line on the screen: [wait(...)]
    shows a line, the function it returns takes the line away. *)
Definition showStep (line : option Scale.message) (e : Scale.effect)
  : option Scale.message :=
  match e with
  | Scale.WaitStart m => Some m
  | Scale.WaitStop => None
  | _ => line
  end.

(** The progress line on the screen after the effects [tr]. *)
Definition showing (tr : list Scale.effect) : option Scale.message :=
  foldl showStep None tr.

(** The display and [waitForScale] agree: the closure of [waitDcs] holds
    the set [waitForScale] still waits for, and the line on the screen
    lists it. *)
Definition inStep (st : Scale.state StrSet) : Prop :=
  Scale.closure st = Scale.intendedScaleDcs st ∧
  showing (Scale.trace st)
  = Some (Scale.WaitingForInstances (Scale.intendedScaleDcs st)).

(** The process events on which a handler is registered after the effects
    [tr], starting from [on]. *)
Definition listeners (on : list string) (tr : list Scale.effect) : list string :=
  foldl (λ on e,
           match e with
           | Scale.ProcessOn event => on ++ [event]
           | Scale.ProcessRemoveListener event => filter (λ x, x ≠ event) on
           | _ => on
           end) on tr.

(** The effects of the process on its listeners. *)
Definition isProcessEffect (e : Scale.effect) : bool :=
  match e with
  | Scale.ProcessOn _ | Scale.ProcessRemoveListener _ => true
  | _ => false
  end.

(** The input of the scale command with other positional arguments. *)
Definition withPositional (i : Scale.input) (a : Scale.argv) (args : list string)
  : Scale.input :=
  {| Scale.parsed := Ok {| Scale.help := Scale.help a;
                           Scale.noVerify := Scale.noVerify a;
                           Scale.verifyTimeout := Scale.verifyTimeout a;
                           Scale.positional := args |};
     Scale.ms := Scale.ms i;
     Scale.normalizeRegionsList := Scale.normalizeRegionsList i;
     Scale.credentials := Scale.credentials i;
     Scale.found := Scale.found i;
     Scale.patched := Scale.patched i;
     Scale.start := Scale.start i;
     Scale.script := Scale.script i |}.

(** The pieces [l] put together with [c] between them. *)
Fixpoint join (c : ascii) (l : list string) : string :=
  match l with
  | [] => ""
  | [s] => s
  | s :: l' => s +:+ String c (join c l')
  end.

(** The number of times [c] occurs in [s]. *)
Fixpoint occurrences (c : ascii) (s : string) : nat :=
  match s with
  | EmptyString => 0
  | String a s' => (if decide (a = c) then 1 else 0) + occurrences c s'
  end.

(** The character [c] occurs in [s]. *)
Fixpoint contains (c : ascii) (s : string) : bool :=
  match s with
  | EmptyString => false
  | String a s' => bool_decide (a = c) || contains c s'
  end.

(** [c] is a digit, a letter, or one of the five characters between [Z]
    and [a] in ASCII, the underscore among them. *)
Definition digitOrAtoz (a : ascii) : bool :=
  let n := nat_of_ascii a in
  ((48 <=? n) && (n <=? 57) || (65 <=? n) && (n <=? 122))%nat.

Fixpoint allChars (P : ascii → bool) (s : string) : bool :=
  match s with
  | EmptyString => true
  | String a s' => P a && allChars P s'
  end.

(** [s] starts with the character [c]. *)
Definition startsWith (c : ascii) (s : string) : bool :=
  match s with
  | String a _ => bool_decide (a = c)
  | EmptyString => false
  end.

(** [s] ends with the character [c]. *)
Fixpoint endsWith (c : ascii) (s : string) : bool :=
  match s with
  | EmptyString => false
  | String a EmptyString => bool_decide (a = c)
  | String _ s' => endsWith c s'
  end.

(** The items [l] as a sentence reads them: [a], [a and b],
    [a, b and c]. *)
Fixpoint enumeration (l : list string) : string :=
  match l with
  | [] => ""
  | [x] => x
  | [x; y] => x +:+ " and " +:+ y
  | x :: l' => x +:+ ", " +:+ enumeration l'
  end.

End Facts.

(** * Properties *)

(** ** Inclusive bounds of the scale command's check *)

Section Bounds.

Import Scale.

Lemma isInstanceCountBetween_Num (v lo hi : Z) :
  isInstanceCountBetween v (Num lo) (Num hi) = bool_decide (lo ≤ v ≤ hi).
Proof.
  unfold isInstanceCountBetween, gt, lt; simpl.
  destruct (decide (Num hi = AUTO)) as [E|_]; [discriminate E|].
  destruct (Z.ltb_spec v lo), (Z.ltb_spec hi v);
    symmetry; first [apply bool_decide_eq_true | apply bool_decide_eq_false]; lia.
Qed.

Lemma isInstanceCountBetween_Auto (v lo : Z) :
  isInstanceCountBetween v (Num lo) Auto = bool_decide (lo ≤ v).
Proof.
  unfold isInstanceCountBetween, gt, lt; simpl.
  destruct (Z.ltb_spec v lo);
    symmetry; first [apply bool_decide_eq_true | apply bool_decide_eq_false]; lia.
Qed.

(** C1. For a region constraint [{min, max}] (so [min <= max] when [max] is
    a number), [isInstanceCountBetween] is true at [v = min] and at
    [v = max]; it is false at [v = min - 1] and at [v = max + 1]; and with
    [max = 'auto'] it is true for every [v >= min]. *)
Theorem isInstanceCountBetween_inclusive (lo hi : Z) :
  (lo ≤ hi →
     isInstanceCountBetween lo (Num lo) (Num hi) = true ∧
     isInstanceCountBetween hi (Num lo) (Num hi) = true) ∧
  isInstanceCountBetween (lo - 1) (Num lo) (Num hi) = false ∧
  isInstanceCountBetween (hi + 1) (Num lo) (Num hi) = false ∧
  (∀ v, lo ≤ v → isInstanceCountBetween v (Num lo) Auto = true) ∧
  isInstanceCountBetween (lo - 1) (Num lo) Auto = false.
Proof.
  rewrite !isInstanceCountBetween_Num, !isInstanceCountBetween_Auto.
  repeat split.
  - apply bool_decide_eq_true; lia.
  - apply bool_decide_eq_true; lia.
  - apply bool_decide_eq_false; lia.
  - apply bool_decide_eq_false; lia.
  - intros v Hv. rewrite isInstanceCountBetween_Auto.
    apply bool_decide_eq_true; lia.
  - apply bool_decide_eq_false; lia.
Qed.

Lemma isInstanceCountBetween_inclusive_witness :
  isInstanceCountBetween 2 (Num 2) (Num 5) = true ∧
  isInstanceCountBetween 5 (Num 2) (Num 5) = true ∧
  isInstanceCountBetween 9 (Num 2) Auto = true.
Proof.
  destruct (isInstanceCountBetween_inclusive 2 5) as (Hin & _ & _ & Hauto & _).
  destruct Hin as [Hlo Hhi]; [lia|].
  split; [exact Hlo|]. split; [exact Hhi|]. apply Hauto. lia.
Defined.

End Bounds.

(** ** The deploy path's predicate against the scale path's *)

Section Policies.

Import Scale Deploy.

(** The claim of C2 fails: with the preset [{min: 0, max: 1}] and no
    instance running, the scale path is satisfied and the deploy path is
    not; with [{min: 1, max: 1}] and two instances it is the other way
    round. *)
Lemma matchMinPresets_differs_from_isInstanceCountBetween :
  matchMinPresets {| min := Num 0; max := Num 1 |} (Some {| instances := [] |})
    = Ok false ∧
  isInstanceCountBetween (instancesLength {| instances := [] |}) (Num 0) (Num 1)
    = true ∧
  matchMinPresets {| min := Num 1; max := Num 1 |}
    (Some {| instances := ["a"; "b"] |}) = Ok true ∧
  isInstanceCountBetween (instancesLength {| instances := ["a"; "b"] |})
    (Num 1) (Num 1) = false.
Proof. repeat split; reflexivity. Qed.

(** C2, amended. [matchMinPresets({min, max}, obs)] is true exactly when
    [obs.instances.length >= max(1, min)]: it is the scale path's check for
    the bounds [max(1, min)] and ['auto'], whatever [max] is. The two paths
    agree when [min >= 1] and the count does not exceed [max]. *)
Theorem matchMinPresets_policy (lo : Z) (hi : scaleValue) (obs : instancesObj) :
  matchMinPresets {| min := Num lo; max := hi |} (Some obs)
    = Ok (bool_decide (Z.max 1 lo ≤ instancesLength obs)) ∧
  matchMinPresets {| min := Num lo; max := hi |} (Some obs)
    = Ok (isInstanceCountBetween (instancesLength obs) (Num (Z.max 1 lo)) Auto) ∧
  (1 ≤ lo →
   isInstanceCountBetween (instancesLength obs) (Num lo) hi = true →
   matchMinPresets {| min := Num lo; max := hi |} (Some obs) = Ok true) ∧
  (1 ≤ lo →
   (∀ n, hi = Num n → instancesLength obs ≤ n) →
   matchMinPresets {| min := Num lo; max := hi |} (Some obs)
     = Ok (isInstanceCountBetween (instancesLength obs) (Num lo) hi)).
Proof.
  assert (Hm : matchMinPresets {| min := Num lo; max := hi |} (Some obs)
               = Ok (bool_decide (Z.max 1 lo ≤ instancesLength obs))).
  { unfold matchMinPresets, ge; simpl. f_equal.
    destruct (Z.leb_spec (Z.max 1 lo) (instancesLength obs));
      symmetry; first [apply bool_decide_eq_true | apply bool_decide_eq_false]; lia. }
  split; [exact Hm|]. split; [|split].
  - rewrite Hm, isInstanceCountBetween_Auto. reflexivity.
  - intros Hlo Hb. rewrite Hm. f_equal. apply bool_decide_eq_true.
    destruct hi as [|n].
    + rewrite isInstanceCountBetween_Auto in Hb.
      apply bool_decide_eq_true in Hb. lia.
    + rewrite isInstanceCountBetween_Num in Hb.
      apply bool_decide_eq_true in Hb. lia.
  - intros Hlo Hhi. rewrite Hm. f_equal.
    destruct hi as [|n].
    + rewrite isInstanceCountBetween_Auto. apply bool_decide_ext. lia.
    + rewrite isInstanceCountBetween_Num. specialize (Hhi n eq_refl).
      apply bool_decide_ext. lia.
Qed.

Lemma matchMinPresets_policy_witness :
  matchMinPresets {| min := Num 2; max := Num 3 |}
    (Some {| instances := ["a"; "b"] |}) = Ok true ∧
  matchMinPresets {| min := Num 2; max := Num 3 |}
    (Some {| instances := ["a"; "b"] |})
  = Ok (isInstanceCountBetween (instancesLength {| instances := ["a"; "b"] |})
          (Num 2) (Num 3)).
Proof.
  destruct (matchMinPresets_policy 2 (Num 3) {| instances := ["a"; "b"] |})
    as (_ & _ & Himp & Hagree).
  split.
  - apply Himp; [lia | reflexivity].
  - apply Hagree; [lia|]. intros n [= <-]. vm_compute. discriminate.
Defined.

End Policies.

(** ** The polling loop of the scale command *)

Section ScaleLoop.

Import Scale Notions.

Context {C : Type}.
Variable intendedScale : scaleObj.
Variable opts : options C.

Lemma Set_delete_sublist (s : StrSet) (x : string) :
  Set_delete s x `sublist_of` s.
Proof. apply sublist_filter. Qed.

Lemma Set_delete_absent (s : StrSet) (x : string) :
  x ∉ s → Set_delete s x = s.
Proof.
  unfold Set_delete. induction s as [|y s IH]; intros Hx; [reflexivity|].
  rewrite filter_cons_True by (intros ->; apply Hx; left).
  f_equal. apply IH. intros H. apply Hx. right. exact H.
Qed.

Lemma Set_delete_middle (l1 l2 : list string) (x : string) :
  NoDup (l1 ++ x :: l2) → Set_delete (l1 ++ x :: l2) x = l1 ++ l2.
Proof.
  intros Hnd. apply NoDup_app in Hnd as (_ & Hdisj & Hnd2).
  apply NoDup_cons in Hnd2 as [Hx2 _].
  unfold Set_delete.
  rewrite filter_app, filter_cons_False by (intros H; apply H; reflexivity).
  f_equal; apply Set_delete_absent.
  - intros Hx1. apply (Hdisj x Hx1). left.
  - exact Hx2.
Qed.

Lemma Set_new_elem_of (l : list string) (x : string) :
  x ∈ Set_new l ↔ x ∈ l.
Proof.
  unfold Set_new.
  assert (Hgen : ∀ acc, x ∈ foldl Set_add acc l ↔ x ∈ acc ∨ x ∈ l).
  { induction l as [|y l IH]; intros acc; simpl.
    - rewrite elem_of_nil. tauto.
    - rewrite IH, elem_of_cons. unfold Set_add, Set_has.
      case_bool_decide as Hy.
      + split; [tauto|]. intros [?|[->|?]]; auto.
      + rewrite elem_of_app, list_elem_of_singleton. tauto. }
  rewrite Hgen, elem_of_nil. tauto.
Qed.

Lemma Set_new_NoDup (l : list string) : NoDup (Set_new l).
Proof.
  unfold Set_new.
  assert (Hgen : ∀ acc, NoDup acc → NoDup (foldl Set_add acc l)).
  { induction l as [|y l IH]; intros acc Hacc; simpl; [exact Hacc|].
    apply IH. unfold Set_add, Set_has. case_bool_decide as Hy; [exact Hacc|].
    apply NoDup_app. split; [exact Hacc|]. split.
    - intros z Hz Hz'. apply list_elem_of_singleton in Hz'. subst. exact (Hy Hz).
    - apply NoDup_singleton. }
  apply Hgen, NoDup_nil_2.
Qed.

Lemma get_is_Some (o : scaleObj) (dc : string) :
  dc ∈ Object_keys o → is_Some (get o dc).
Proof.
  unfold Object_keys. induction o as [|[k r] o IH]; simpl.
  - intros H. apply elem_of_nil in H. contradiction.
  - intros H. destruct (decide (k = dc)); [eauto|].
    apply elem_of_cons in H as [->|H]; [congruence | auto].
Qed.

Lemma callOnDCScaled_dcs cb dc n (st : state C) :
  intendedScaleDcs (callOnDCScaled cb dc n st) = intendedScaleDcs st.
Proof.
  unfold callOnDCScaled. destruct cb as [f|]; [|reflexivity].
  destruct (f dc n (closure st)); reflexivity.
Qed.

(** One turn only ever deletes from the set. *)
Lemma forDcs_sublist (data : snapshot) (todo : list string) (st : state C) :
  intendedScaleDcs (forDcs intendedScale opts data todo st).1
    `sublist_of` intendedScaleDcs st.
Proof.
  revert st. induction todo as [|dc todo IH]; intros st; simpl; [reflexivity|].
  destruct (data !! dc) as [o|]; [|reflexivity].
  destruct (get intendedScale dc) as [r|]; [|reflexivity].
  destruct (isInstanceCountBetween _ _ _).
  - etrans; [apply IH|]. simpl. rewrite callOnDCScaled_dcs.
    apply Set_delete_sublist.
  - etrans; [apply IH|]. reflexivity.
Qed.

(** What one turn leaves in the set. *)
Lemma forDcs_survivors (data : snapshot) (todo kept : list string) (st : state C) :
  intendedScaleDcs st = kept ++ todo →
  NoDup (kept ++ todo) →
  (∀ b, b ∈ todo → is_Some (get intendedScale b)) →
  ∃ st', forDcs intendedScale opts data todo st = (st', None) ∧
         intendedScaleDcs st' = kept ++ survivors intendedScale data todo.
Proof.
  revert kept st. induction todo as [|dc todo IH]; intros kept st Hst Hnd Hrules.
  - exists st. split; [reflexivity|]. exact Hst.
  - simpl. unfold satisfied.
    destruct (Hrules dc) as [r Hr]; [left|].
    destruct (data !! dc) as [o|] eqn:Ho.
    + rewrite Hr.
      destruct (isInstanceCountBetween _ _ _) eqn:Hb.
      * apply IH.
        -- simpl. rewrite callOnDCScaled_dcs, Hst.
           apply Set_delete_middle, Hnd.
        -- apply NoDup_app in Hnd as (H1 & H2 & H3).
           apply NoDup_cons in H3 as [H3 H4].
           apply NoDup_app. split; [exact H1|]. split; [|exact H4].
           intros x Hx Hx'. apply (H2 x Hx). right. exact Hx'.
        -- intros b Hb'. apply Hrules. right. exact Hb'.
      * destruct (IH (kept ++ [dc])
                    (say [Debug (DcMiss dc (min r) (max r) (instancesLength o))] st))
          as (st' & Hrun & Hset).
        -- simpl. rewrite Hst, <- app_assoc. reflexivity.
        -- rewrite <- app_assoc. exact Hnd.
        -- intros b Hb'. apply Hrules. right. exact Hb'.
        -- exists st'. split; [exact Hrun|].
           rewrite Hset, <- app_assoc. reflexivity.
    + eexists. split; [reflexivity|]. exact Hst.
Qed.

Lemma survivors_absent (data : snapshot) (before after : list string) (dc : string) :
  (∀ b, b ∈ before → is_Some (data !! b)) →
  data !! dc = None →
  survivors intendedScale data (before ++ dc :: after)
  = filter (λ b, satisfied intendedScale data b = false) before ++ dc :: after.
Proof.
  intros Hpresent Hdc. induction before as [|b before IH]; simpl.
  - rewrite Hdc. reflexivity.
  - destruct (Hpresent b) as [o Ho]; [left|]. rewrite Ho.
    rewrite IH by (intros b' Hb'; apply Hpresent; right; exact Hb').
    destruct (satisfied intendedScale data b) eqn:Hs.
    + rewrite filter_cons_False by (rewrite Hs; discriminate). reflexivity.
    + rewrite filter_cons_True by exact Hs. reflexivity.
Qed.

Lemma survivors_present (data : snapshot) (todo : list string) :
  (∀ b, b ∈ todo → is_Some (data !! b)) →
  survivors intendedScale data todo
  = filter (λ b, satisfied intendedScale data b = false) todo.
Proof.
  intros Hpresent. induction todo as [|b todo IH]; simpl; [reflexivity|].
  destruct (Hpresent b) as [o Ho]; [left|]. rewrite Ho.
  rewrite IH by (intros b' Hb'; apply Hpresent; right; exact Hb').
  destruct (satisfied intendedScale data b) eqn:Hs.
  - rewrite filter_cons_False by (rewrite Hs; discriminate). reflexivity.
  - rewrite filter_cons_True by exact Hs. reflexivity.
Qed.

Lemma forDcs_no_throw (data : snapshot) (todo : list string) (st : state C) :
  (∀ b, b ∈ todo → is_Some (get intendedScale b)) →
  (forDcs intendedScale opts data todo st).2 = None.
Proof.
  revert st. induction todo as [|dc todo IH]; intros st Hrules; simpl; [reflexivity|].
  destruct (data !! dc) as [o|]; [|reflexivity].
  destruct (Hrules dc) as [r ->]; [left|].
  destruct (isInstanceCountBetween _ _ _);
    apply IH; intros b Hb; apply Hrules; right; exact Hb.
Qed.

(** A region that is not in the snapshot stays in the set. *)
Lemma forDcs_keeps_missing (data : snapshot) (todo : list string) (st : state C)
  (dc : string) :
  data !! dc = None →
  dc ∈ intendedScaleDcs st →
  dc ∈ intendedScaleDcs (forDcs intendedScale opts data todo st).1.
Proof.
  intros Hdc. revert st. induction todo as [|b todo IH]; intros st Hin; simpl; [exact Hin|].
  destruct (data !! b) as [o|] eqn:Hb; [|exact Hin].
  destruct (get intendedScale b) as [r|]; [|exact Hin].
  destruct (isInstanceCountBetween _ _ _).
  - apply IH. simpl. rewrite callOnDCScaled_dcs.
    apply list_elem_of_filter. split; [|exact Hin].
    intros ->. congruence.
  - apply IH. exact Hin.
Qed.

Variable deploymentId : string.
Variables timeout checkInterval start : Z.

Local Abbreviation loop := (loop intendedScale opts deploymentId timeout checkInterval start).

(** A script in two parts: the second part runs only if the loop is still
    going after the first. *)
Lemma loop_app (s1 s2 : list cycle) (st : state C) :
  loop (s1 ++ s2) st =
  match loop s1 st with
  | (st', Pending) => loop s2 st'
  | r => r
  end.
Proof.
  revert st. induction s1 as [|c s1 IH]; intros st; simpl.
  - reflexivity.
  - destruct (timedOut timeout start (clock c)); [reflexivity|].
    destruct (fetched c) as [data|e]; [|reflexivity].
    destruct (forDcs _ _ _ _ _) as [st1 [e|]]; [reflexivity|].
    case_bool_decide; [reflexivity|]. apply IH.
Qed.

Lemma loop_sublist (script : list cycle) (st : state C) :
  intendedScaleDcs (loop script st).1 `sublist_of` intendedScaleDcs st.
Proof.
  revert st. induction script as [|c script IH]; intros st; simpl; [reflexivity|].
  destruct (timedOut timeout start (clock c)); [reflexivity|].
  destruct (fetched c) as [data|e]; [|reflexivity].
  pose proof (forDcs_sublist data (intendedScaleDcs st)
                (say [GetInstances deploymentId] st)) as Hsub.
  simpl in Hsub.
  destruct (forDcs _ _ _ _ _) as [st1 [e|]]; simpl in *; [exact Hsub|].
  case_bool_decide; [exact Hsub|].
  etrans; [apply IH|]. exact Hsub.
Qed.

(** While the region [dc] is missing from every snapshot and the deadline
    has not come, the loop keeps going and [dc] stays in the set. *)
Lemma loop_missing (dc : string) (pre : list cycle) (st : state C) :
  dc ∈ intendedScaleDcs st →
  (∀ b, b ∈ intendedScaleDcs st → is_Some (get intendedScale b)) →
  Forall (missingBefore (start + timeout) dc) pre →
  ∃ st', loop pre st = (st', Pending) ∧ dc ∈ intendedScaleDcs st'.
Proof.
  intros Hin Hrules Hpre. revert st Hin Hrules.
  induction Hpre as [|c pre [Hclock (data & Hdata & Hdc)] _ IH]; intros st Hin Hrules.
  - exists st. split; [reflexivity | exact Hin].
  - simpl. unfold timedOut.
    destruct (Z.leb_spec (start + timeout) (clock c)) as [Hle|_]; [lia|].
    rewrite Hdata.
    pose proof (forDcs_no_throw data (intendedScaleDcs st)
                  (say [GetInstances deploymentId] st) Hrules) as Hno.
    pose proof (forDcs_keeps_missing data (intendedScaleDcs st)
                  (say [GetInstances deploymentId] st) dc Hdc Hin) as Hkeep.
    pose proof (forDcs_sublist data (intendedScaleDcs st)
                  (say [GetInstances deploymentId] st)) as Hsub.
    destruct (forDcs _ _ _ _ _) as [st1 r]; simpl in *. subst r.
    case_bool_decide as Hsize.
    + unfold Set_size in Hsize. destruct (intendedScaleDcs st1); [|discriminate].
      apply elem_of_nil in Hkeep. contradiction.
    + apply IH; [exact Hkeep|].
      intros b Hb. apply Hrules. eapply elem_of_sublist; [exact Hb | exact Hsub].
Qed.

End ScaleLoop.

(** ** The polling loop of the deploy command *)

Section DeployLoop.

Import Deploy.

Variable deploymentId : string.
Variable scale : scaleObj.
Variable start : Z.

Local Abbreviation loop := (loop deploymentId scale start).

Lemma deploy_loop_app (s1 s2 : list cycle) (st : state) :
  loop (s1 ++ s2) st =
  match loop s1 st with
  | (st', Pending) => loop s2 st'
  | r => r
  end.
Proof.
  revert st. induction s1 as [|c s1 IH]; intros st; simpl.
  - reflexivity.
  - destruct (start + timeout <=? clock c); [reflexivity|].
    destruct (fetched c) as [data|e]; [|reflexivity].
    destruct (getMatchingScalePresets _ _ _) as [found|e]; [|reflexivity].
    case_bool_decide; [|apply IH].
    case_bool_decide; [reflexivity|]. apply IH.
Qed.

Lemma deploy_loop_sublist (script : list cycle) (st : state) :
  remainingMatches (loop script st).1 `sublist_of` remainingMatches st.
Proof.
  revert st. induction script as [|c script IH]; intros st; simpl; [reflexivity|].
  destruct (start + timeout <=? clock c); [reflexivity|].
  destruct (fetched c) as [data|e]; [|reflexivity].
  destruct (getMatchingScalePresets _ _ _) as [found|e]; [|reflexivity].
  simpl.
  assert (Hsub : filter (λ dc, ¬ Set_has (Set_new found) dc) (remainingMatches st)
                   `sublist_of` remainingMatches st) by apply sublist_filter.
  case_bool_decide.
  - case_bool_decide; [exact Hsub|]. etrans; [apply IH|]. exact Hsub.
  - etrans; [apply IH|]. exact Hsub.
Qed.

End DeployLoop.

(** ** A region missing from the snapshot *)

Section MissingRegion.

Import Scale Notions.

(** The claim of C3 fails. The regions are visited in the order ["bru1"],
    ["sfo1"]; the snapshot has ["sfo1"] with a count inside its bounds and
    has no ["bru1"]. The turn stops at ["bru1"]: ["sfo1"] is not looked at
    and stays in the set. *)
Lemma forDcs_breaks_at_missing_region :
  let rule := {| min := Num 0; max := Num 1 |} in
  let intendedScale := [("bru1", rule); ("sfo1", rule)] in
  let opts := {| timeout := None; checkInterval := None; onDCScaled := None |} in
  let data : snapshot := {[ "sfo1" := {| instances := [] |} ]} in
  let st := {| intendedScaleDcs := ["bru1"; "sfo1"]; closure := (); trace := [] |} in
  data !! "bru1" = None ∧
  is_Some (data !! "sfo1") ∧
  satisfied intendedScale data "sfo1" = true ∧
  forDcs intendedScale opts data (intendedScaleDcs st) st
  = ({| intendedScaleDcs := ["bru1"; "sfo1"];
        closure := ();
        trace := [Debug (MissingDataForDc "bru1")] |}, None).
Proof.
  repeat split; try reflexivity. exists {| instances := [] |}. reflexivity.
Qed.

(** C3, amended. In a poll cycle of [waitForScale], a still-unconverged
    region that is missing from the snapshot raises no error and ends the
    visit of that cycle: the regions before it in iteration order were
    checked against their bounds (the satisfied ones are removed), the
    missing region and all regions after it stay in the set unchecked. *)
Theorem forDcs_stops_at_missing_region {C : Type} (intendedScale : scaleObj)
  (opts : options C) (data : snapshot) (before after : list string)
  (dc : string) (st : state C) :
  intendedScaleDcs st = before ++ dc :: after →
  NoDup (intendedScaleDcs st) →
  (∀ b, b ∈ intendedScaleDcs st → is_Some (get intendedScale b)) →
  (∀ b, b ∈ before → is_Some (data !! b)) →
  data !! dc = None →
  ∃ st', forDcs intendedScale opts data (intendedScaleDcs st) st = (st', None) ∧
         intendedScaleDcs st'
         = filter (λ b, satisfied intendedScale data b = false) before ++ dc :: after.
Proof.
  intros Hst Hnd Hrules Hbefore Hdc.
  destruct (forDcs_survivors intendedScale opts data (intendedScaleDcs st) [] st)
    as (st' & Hrun & Hset); [reflexivity | exact Hnd | exact Hrules |].
  exists st'. split; [exact Hrun|].
  rewrite Hset, Hst. simpl. apply survivors_absent; assumption.
Qed.

Lemma forDcs_stops_at_missing_region_witness :
  let rule := {| min := Num 0; max := Num 1 |} in
  let intendedScale := [("sfo1", rule); ("bru1", rule); ("gru1", rule)] in
  let opts := {| timeout := None; checkInterval := None; onDCScaled := None |} in
  let data : snapshot :=
    {[ "sfo1" := {| instances := ["i1"] |}; "gru1" := {| instances := [] |} ]} in
  let st := {| intendedScaleDcs := ["sfo1"; "bru1"; "gru1"]; closure := (); trace := [] |} in
  ∃ st', forDcs intendedScale opts data (intendedScaleDcs st) st = (st', None) ∧
         intendedScaleDcs st' = ["bru1"; "gru1"].
Proof.
  intros rule intendedScale opts data st.
  apply (forDcs_stops_at_missing_region intendedScale opts data ["sfo1"] ["gru1"] "bru1" st).
  - reflexivity.
  - apply (bool_decide_unpack _). vm_compute. exact I.
  - intros b Hb. apply get_is_Some. exact Hb.
  - intros b Hb. apply list_elem_of_singleton in Hb. subst b.
    exists {| instances := ["i1"] |}. reflexivity.
  - reflexivity.
Defined.

End MissingRegion.

(** ** The unconverged set only shrinks *)

Section Monotone.

(** C7. Within one invocation of [waitForScale], of the scale command and
    of the deploy command alike, the set of unconverged regions after more
    poll cycles is a sublist of the set after fewer: its size does not grow
    and a region that left it is never back, whatever the later snapshots
    show. *)
Theorem waitForScale_set_shrinks {C : Type} (deploymentId : string)
  (scale : scaleObj) (opts : Scale.options C) (start : Z)
  (s1 s2 : list cycle) (c0 : C) (tr : list Scale.effect) (tr' : list Deploy.effect) :
  let earlier := Scale.intendedScaleDcs
                   (Scale.waitForScale deploymentId scale opts start s1 c0 tr).1 in
  let later := Scale.intendedScaleDcs
                 (Scale.waitForScale deploymentId scale opts start (s1 ++ s2) c0 tr).1 in
  let earlier' := Deploy.remainingMatches
                    (Deploy.waitForScale deploymentId scale start s1 tr').1 in
  let later' := Deploy.remainingMatches
                  (Deploy.waitForScale deploymentId scale start (s1 ++ s2) tr').1 in
  (later `sublist_of` earlier ∧ (length later ≤ length earlier)%nat ∧
   ∀ dc, dc ∉ earlier → dc ∉ later) ∧
  (later' `sublist_of` earlier' ∧ (length later' ≤ length earlier')%nat ∧
   ∀ dc, dc ∉ earlier' → dc ∉ later').
Proof.
  assert (Hgen : ∀ l1 l2 : list string,
             l2 `sublist_of` l1 →
             l2 `sublist_of` l1 ∧ (length l2 ≤ length l1)%nat ∧
             ∀ dc, dc ∉ l1 → dc ∉ l2).
  { intros l1 l2 Hsub. split; [exact Hsub|]. split; [apply sublist_length, Hsub|].
    intros dc Hnot Hin. apply Hnot. eapply elem_of_sublist; eassumption. }
  simpl. split; apply Hgen.
  - unfold Scale.waitForScale. rewrite loop_app.
    destruct (Scale.loop _ _ _ _ _ _ s1 _) as [st1 [| | |]]; simpl; try reflexivity.
    apply loop_sublist.
  - unfold Deploy.waitForScale. rewrite deploy_loop_app.
    destruct (Deploy.loop _ _ _ s1 _) as [st1 [| | |]]; simpl; try reflexivity.
    apply deploy_loop_sublist.
Qed.

End Monotone.

(** ** The deadline *)

Section Deadline.

Import Notions.

(** The claim of C4 fails: the error thrown at the deadline is the same
    value whatever regions are left; the regions are in the state of the
    invocation only. Two invocations that run into the deadline, one with
    ["sfo1"] left and one with ["bru1"] left, throw the same error. *)
Lemma timeout_error_carries_no_regions :
  let rule := {| min := Num 1; max := Num 1 |} in
  let opts := {| Scale.timeout := Some 1000; Scale.checkInterval := None;
                 Scale.onDCScaled := None |} in
  let late := [{| clock := 1000; fetched := FetchOk ∅ |}] in
  Scale.waitForScale "d" [("sfo1", rule)] opts 0 late () []
  = ({| Scale.intendedScaleDcs := ["sfo1"]; Scale.closure := (); Scale.trace := [] |},
     Threw (Error "Timeout while verifying instance count (10m)")) ∧
  Scale.waitForScale "d" [("bru1", rule)] opts 0 late () []
  = ({| Scale.intendedScaleDcs := ["bru1"]; Scale.closure := (); Scale.trace := [] |},
     Threw (Error "Timeout while verifying instance count (10m)")).
Proof. split; reflexivity. Qed.

(** C4, amended. When [waitForScale] comes to its deadline test with the
    deadline elapsed, it fails with the plain [Error] whose only content is
    the message "Timeout while verifying instance count (10m)": the error
    carries no regions. That holds for the scale command and for the
    deploy command (which stops its spinner first). In the scale command, a
    region that is missing from every snapshot fetched before the deadline
    is still in the set of unconverged regions when that error is thrown. *)
Theorem waitForScale_deadline {C : Type} (deploymentId : string)
  (scale : scaleObj) (opts : Scale.options C) (start : Z)
  (pre : list cycle) (c : cycle) (post : list cycle)
  (c0 : C) (tr : list Scale.effect) (tr' : list Deploy.effect) :
  (∀ st, Scale.waitForScale deploymentId scale opts start pre c0 tr = (st, Pending) →
         start + default Scale.ms_2m (Scale.timeout opts) ≤ clock c →
         Scale.waitForScale deploymentId scale opts start (pre ++ c :: post) c0 tr
         = (st, Threw (Error "Timeout while verifying instance count (10m)"))) ∧
  (∀ st, Deploy.waitForScale deploymentId scale start pre tr' = (st, Pending) →
         start + Deploy.timeout ≤ clock c →
         Deploy.waitForScale deploymentId scale start (pre ++ c :: post) tr'
         = (Deploy.say [Deploy.WaitStop] st,
            Threw (Error "Timeout while verifying instance count (10m)"))) ∧
  (∀ dc, dc ∈ Object_keys scale →
         Forall (missingBefore (start + default Scale.ms_2m (Scale.timeout opts)) dc) pre →
         start + default Scale.ms_2m (Scale.timeout opts) ≤ clock c →
         ∃ st, Scale.waitForScale deploymentId scale opts start (pre ++ c :: post) c0 tr
               = (st, Threw (Error "Timeout while verifying instance count (10m)")) ∧
               dc ∈ Scale.intendedScaleDcs st).
Proof.
  assert (Hscale : ∀ st,
    Scale.waitForScale deploymentId scale opts start pre c0 tr = (st, Pending) →
    start + default Scale.ms_2m (Scale.timeout opts) ≤ clock c →
    Scale.waitForScale deploymentId scale opts start (pre ++ c :: post) c0 tr
    = (st, Threw Scale.timeoutError)).
  { intros st Hpre Hlate. unfold Scale.waitForScale in *.
    rewrite loop_app, Hpre. simpl. unfold Scale.timedOut.
    destruct (Z.leb_spec (start + default Scale.ms_2m (Scale.timeout opts)) (clock c));
      [reflexivity | lia]. }
  split; [exact Hscale|]. split.
  - intros st Hpre Hlate. unfold Deploy.waitForScale in *.
    rewrite deploy_loop_app, Hpre. simpl.
    destruct (Z.leb_spec (start + Deploy.timeout) (clock c)); [reflexivity | lia].
  - intros dc Hdc Hpre Hlate.
    destruct (loop_missing scale opts deploymentId
                (default Scale.ms_2m (Scale.timeout opts))
                (default 500 (Scale.checkInterval opts)) start dc pre
                {| Scale.intendedScaleDcs := Set_new (Object_keys scale);
                   Scale.closure := c0; Scale.trace := tr |})
      as (st & Hrun & Hin).
    + simpl. apply Set_new_elem_of. exact Hdc.
    + simpl. intros b Hb. apply get_is_Some, Set_new_elem_of. exact Hb.
    + exact Hpre.
    + exists st. split; [|exact Hin]. apply Hscale; [exact Hrun | exact Hlate].
Qed.

Lemma waitForScale_deadline_witness :
  let rule := {| min := Num 1; max := Num 1 |} in
  let scale := [("sfo1", rule); ("bru1", rule)] in
  let opts := {| Scale.timeout := Some 1000; Scale.checkInterval := None;
                 Scale.onDCScaled := None |} in
  let data : snapshot := {[ "sfo1" := {| instances := ["i1"] |} ]} in
  let pre := [{| clock := 10; fetched := FetchOk data |};
              {| clock := 520; fetched := FetchOk data |}] in
  let c := {| clock := 1030; fetched := FetchOk data |} in
  ∃ st, Scale.waitForScale "d" scale opts 0 (pre ++ [c]) () []
        = (st, Threw (Error "Timeout while verifying instance count (10m)")) ∧
        "bru1" ∈ Scale.intendedScaleDcs st.
Proof.
  intros rule scale opts data pre c.
  destruct (waitForScale_deadline "d" scale opts 0 pre c [] () [] [])
    as (_ & _ & Hmissing).
  apply (Hmissing "bru1").
  - apply (bool_decide_unpack _). vm_compute. exact I.
  - repeat (apply Forall_cons; split; [split; [simpl; lia | exists data; split; reflexivity]|]).
    apply Forall_nil_2.
  - simpl. lia.
Defined.

(** ** A failed fetch *)

(** The claim of C8 fails: the first fetch is rejected well before the
    deadline, the second would bring a snapshot that satisfies every
    region; [waitForScale] throws the rejection at once and makes no second
    fetch. *)
Lemma waitForScale_does_not_retry_failed_fetch :
  let rule := {| min := Num 1; max := Num 1 |} in
  let opts := {| Scale.timeout := None; Scale.checkInterval := None;
                 Scale.onDCScaled := None |} in
  let data : snapshot := {[ "sfo1" := {| instances := ["i1"] |} ]} in
  let script := [{| clock := 1; fetched := FetchFailed (ApiError 502 "bad_gateway") |};
                 {| clock := 501; fetched := FetchOk data |}] in
  Scale.waitForScale "d" [("sfo1", rule)] opts 0 script () []
  = ({| Scale.intendedScaleDcs := ["sfo1"]; Scale.closure := ();
        Scale.trace := [Scale.GetInstances "d"] |},
     Threw (ApiError 502 "bad_gateway")) ∧
  Scale.waitForScale "d" [("sfo1", rule)] opts 0 (tail script) () []
  = ({| Scale.intendedScaleDcs := []; Scale.closure := ();
        Scale.trace := [Scale.GetInstances "d"; Scale.Debug (Scale.DcMatch "sfo1")] |},
     Returned ()).
Proof. split; reflexivity. Qed.

(** C8, amended. If a snapshot fetch of [waitForScale] is rejected in a
    poll cycle before the deadline, the invocation fails at once with the
    error of the fetch: nothing is retried and no later cycle runs. That
    holds for the scale command and for the deploy command. *)
Theorem waitForScale_rethrows_failed_fetch {C : Type} (deploymentId : string)
  (scale : scaleObj) (opts : Scale.options C) (start : Z)
  (pre : list cycle) (c : cycle) (post : list cycle) (e : exn)
  (c0 : C) (tr : list Scale.effect) (tr' : list Deploy.effect) :
  fetched c = FetchFailed e →
  (∀ st, Scale.waitForScale deploymentId scale opts start pre c0 tr = (st, Pending) →
         clock c < start + default Scale.ms_2m (Scale.timeout opts) →
         Scale.waitForScale deploymentId scale opts start (pre ++ c :: post) c0 tr
         = (Scale.say [Scale.GetInstances deploymentId] st, Threw e)) ∧
  (∀ st, Deploy.waitForScale deploymentId scale start pre tr' = (st, Pending) →
         clock c < start + Deploy.timeout →
         Deploy.waitForScale deploymentId scale start (pre ++ c :: post) tr'
         = (Deploy.say [Deploy.GetInstances deploymentId] st, Threw e)).
Proof.
  intros Hfetch. split.
  - intros st Hpre Hearly. unfold Scale.waitForScale in *.
    rewrite loop_app, Hpre. simpl. unfold Scale.timedOut.
    destruct (Z.leb_spec (start + default Scale.ms_2m (Scale.timeout opts)) (clock c));
      [lia|].
    rewrite Hfetch. reflexivity.
  - intros st Hpre Hearly. unfold Deploy.waitForScale in *.
    rewrite deploy_loop_app, Hpre. simpl.
    destruct (Z.leb_spec (start + Deploy.timeout) (clock c)); [lia|].
    rewrite Hfetch. reflexivity.
Qed.

Lemma waitForScale_rethrows_failed_fetch_witness :
  let rule := {| min := Num 1; max := Num 1 |} in
  let opts := {| Scale.timeout := None; Scale.checkInterval := None;
                 Scale.onDCScaled := None |} in
  let c := {| clock := 1; fetched := FetchFailed (ApiError 502 "bad_gateway") |} in
  Scale.waitForScale "d" [("sfo1", rule)] opts 0 ([] ++ c :: []) () []
  = ({| Scale.intendedScaleDcs := ["sfo1"]; Scale.closure := ();
        Scale.trace := [Scale.GetInstances "d"] |},
     Threw (ApiError 502 "bad_gateway")) ∧
  Deploy.waitForScale "d" [("sfo1", rule)] 0 ([] ++ c :: []) []
  = ({| Deploy.remainingMatches := ["sfo1"];
        Deploy.trace := [Deploy.WaitStart ["sfo1"]; Deploy.GetInstances "d"] |},
     Threw (ApiError 502 "bad_gateway")).
Proof.
  intros rule opts c.
  destruct (waitForScale_rethrows_failed_fetch "d" [("sfo1", rule)] opts 0
              [] c [] (ApiError 502 "bad_gateway") () [] [] eq_refl)
    as [Hscale Hdeploy].
  split.
  - apply (Hscale {| Scale.intendedScaleDcs := ["sfo1"]; Scale.closure := ();
                     Scale.trace := [] |}); [reflexivity | vm_compute; reflexivity].
  - apply (Hdeploy {| Deploy.remainingMatches := ["sfo1"];
                      Deploy.trace := [Deploy.WaitStart ["sfo1"]] |});
      [reflexivity | vm_compute; reflexivity].
Defined.

End Deadline.

(** ** The build events *)

Section BuildEvents.

Import Deploy Notions.

Lemma isStateChange_ERROR_not_READY (ev : event) :
  isStateChange ev "ERROR" = true → isStateChange ev "READY" = false.
Proof.
  unfold isStateChange. intros H.
  apply andb_prop in H as [_ Hv]. apply bool_decide_eq_true in Hv.
  apply andb_false_intro2, bool_decide_eq_false. rewrite Hv. discriminate.
Qed.

(** Events before a final state are printed one after the other. *)
Lemma forAwait_display (pre rest : list event) (after : ending) (c : consumer) :
  Forall (λ ev, isFinal ev = false) pre →
  forAwait (pre ++ rest) after c
  = forAwait rest after
      {| printed := printed c ++ concat (display <$> pre);
         taken := taken c + length pre |}.
Proof.
  intros Hpre. revert c. induction Hpre as [|ev pre Hev _ IH]; intros c; simpl.
  - rewrite app_nil_r, Nat.add_0_r. destruct c; reflexivity.
  - unfold isFinal in Hev. apply orb_false_elim in Hev as [-> ->].
    rewrite IH. simpl. rewrite <- app_assoc, Nat.add_succ_r. reflexivity.
Qed.

(** C5. The consumer goes through the events in their order: what it has
    printed is the display of each event before the final one, in sequence.
    At the first state-change to READY (no final state before it) it prints
    "Build completed" once and leaves the loop: it has taken the events up
    to that one and no more, whatever follows in the sequence. *)
Theorem forAwait_stops_at_READY (pre : list event) (ev : event)
  (post : list event) (after : ending) (c : consumer) :
  Forall (λ ev, isFinal ev = false) pre →
  isStateChange ev "READY" = true →
  forAwait (pre ++ ev :: post) after c
  = ({| printed := printed c ++ concat (display <$> pre) ++ [Log "Build completed"];
        taken := taken c + length pre + 1 |},
     Returned ()).
Proof.
  intros Hpre Hev. rewrite forAwait_display by exact Hpre.
  simpl. rewrite Hev. unfold take; simpl.
  rewrite <- app_assoc, Nat.add_1_r. reflexivity.
Qed.

Lemma forAwait_stops_at_READY_witness :
  let ev t v x := {| type := t; payload_ := {| value := v; text := x |} |} in
  forAwait ([ev "build-start" "" ""; ev "stdout" "" "a";
             ev "state-change" "BUILDING" ""]
            ++ ev "state-change" "READY" "" :: [ev "stdout" "" "late"])
    Waiting {| printed := []; taken := 0 |}
  = ({| printed := [Log "Building…"; Log "a"; Log "Build completed"]; taken := 4 |},
     Returned ()).
Proof.
  intros ev.
  apply (forAwait_stops_at_READY
           [ev "build-start" "" ""; ev "stdout" "" "a"; ev "state-change" "BUILDING" ""]
           (ev "state-change" "READY" "") [ev "stdout" "" "late"] Waiting
           {| printed := []; taken := 0 |}).
  - repeat (apply Forall_cons; split; [reflexivity|]). apply Forall_nil_2.
  - reflexivity.
Defined.

(** The claim of C6 fails: at a state-change to ERROR nothing is reported
    to a caller. The loop itself ends the process with exit code 1, and so
    does [sync] around it, whose remaining steps never run. *)
Lemma build_failure_exits_in_the_consumer :
  let failed := {| type := "state-change";
                   payload_ := {| value := "ERROR"; text := "" |} |} in
  forAwait [failed] Ended {| printed := []; taken := 0 |}
  = ({| printed := [Error_ "Build failed"]; taken := 1 |}, Exited 1) ∧
  sync {| noVerify := false; deploymentId := "d"; scale := [];
          events := [failed]; after := Ended; start := 0; script := [] |}
  = ([Error_ "Build failed"], Exited 1).
Proof. split; reflexivity. Qed.

(** C6, amended. At the first final state-change, if its value is ERROR,
    the consumer prints "Build failed", takes no further event and ends the
    process itself with exit code 1; no outcome is handed to a caller. A
    sequence that fails before any final state makes the consumer throw the
    error of the sequence: it prints no "Build failed" of its own and does
    not exit with code 1. *)
Theorem forAwait_stops_at_ERROR (pre : list event) (c : consumer) :
  Forall (λ ev, isFinal ev = false) pre →
  (∀ ev post after,
     isStateChange ev "ERROR" = true →
     forAwait (pre ++ ev :: post) after c
     = ({| printed := printed c ++ concat (display <$> pre) ++ [Error_ "Build failed"];
           taken := taken c + length pre + 1 |},
        Exited 1)) ∧
  (∀ e, forAwait pre (Failed e) c
        = ({| printed := printed c ++ concat (display <$> pre);
              taken := taken c + length pre |},
           Threw e)).
Proof.
  intros Hpre. split.
  - intros ev post after Hev. rewrite forAwait_display by exact Hpre.
    simpl. rewrite (isStateChange_ERROR_not_READY ev Hev), Hev.
    unfold take, exit; simpl.
    rewrite <- app_assoc, Nat.add_1_r. reflexivity.
  - intros e. rewrite <- (app_nil_r pre) at 1.
    rewrite forAwait_display by exact Hpre. reflexivity.
Qed.

Lemma forAwait_stops_at_ERROR_witness :
  let ev t v x := {| type := t; payload_ := {| value := v; text := x |} |} in
  forAwait ([ev "build-start" "" ""; ev "stderr" "" "> oops"]
            ++ ev "state-change" "ERROR" "" :: [ev "state-change" "READY" ""])
    Waiting {| printed := []; taken := 0 |}
  = ({| printed := [Log "Building…"; Log "oops"; Error_ "Build failed"]; taken := 3 |},
     Exited 1) ∧
  forAwait [ev "build-start" "" ""; ev "stderr" "" "> oops"]
    (Failed (Error "socket hang up")) {| printed := []; taken := 0 |}
  = ({| printed := [Log "Building…"; Log "oops"]; taken := 2 |},
     Threw (Error "socket hang up")).
Proof.
  intros ev.
  destruct (forAwait_stops_at_ERROR
              [ev "build-start" "" ""; ev "stderr" "" "> oops"]
              {| printed := []; taken := 0 |}) as [Herror Hsevered].
  - repeat (apply Forall_cons; split; [reflexivity|]). apply Forall_nil_2.
  - split.
    + apply (Herror (ev "state-change" "ERROR" "") [ev "state-change" "READY" ""] Waiting).
      reflexivity.
    + apply (Hsevered (Error "socket hang up")).
Defined.

End BuildEvents.

(** ** The exit hook *)

Section ExitHook.

Import Scale Notions.

(** The claim of C9 fails in two ways, because the handler sets its flag
    only after the callback has returned. A callback that throws is called
    again by every invocation. A callback that emits [exit] while it runs
    (as [process.exit()] does) enters the handler again with the flag still
    false: it runs twice in a single invocation and returns normally both
    times. In both the world is the number of calls. *)
Lemma onExit_handler_calls_callback_again :
  let fn := Do S (λ _, Throw (Error "boom")) in
  let fn' := Do S (λ calls, if (calls =? 1)%nat
                            then Emit "exit" (λ r, match r with
                                                   | None => Return
                                                   | Some e => Throw e
                                                   end)
                            else Return) in
  (snd <$> invoke fn 1 1 (onExit.1, 0%nat) = Some 1%nat ∧
   snd <$> invoke fn 1 2 (onExit.1, 0%nat) = Some 2%nat ∧
   snd <$> invoke fn 1 3 (onExit.1, 0%nat) = Some 3%nat ∧
   snd <$> deliver fn 1 ["SIGINT"; "exit"] (onExit.1, 0%nat) = Some 2%nat) ∧
  (onExit_ fn' 2 (onExit.1, 0%nat)
   = Some (({| exit := true; listening := ["SIGTERM"; "SIGINT"; "exit"] |}, 2%nat),
           None) ∧
   snd <$> invoke fn' 2 1 (onExit.1, 0%nat) = Some 2%nat ∧
   snd <$> deliver fn' 2 ["SIGINT"] (onExit.1, 0%nat) = Some 2%nat).
Proof. repeat split; reflexivity. Qed.

Lemma invoke_after_exit {W : Type} (fn : callback W) (depth n : nat)
  (h : exitHook) (w : W) :
  exit h = true → invoke fn (S depth) n (h, w) = Some (h, w).
Proof.
  intros Hexit. induction n as [|n IH]; [reflexivity|].
  cbn [invoke onExit_ fst]. rewrite Hexit. exact IH.
Qed.

(** Callback code keeps the registrations when the listener does. *)
Lemma call_listening {W : Type}
  (listener : string → exitHook * W → option ((exitHook * W) * option exn))
  (c : callback W) :
  (∀ event st st' r, listener event st = Some (st', r) →
                     listening st'.1 = listening st.1) →
  ∀ st st' r, call listener c st = Some (st', r) → listening st'.1 = listening st.1.
Proof.
  intros Hlistener.
  induction c as [|e|f k IH|event k IH]; intros st st' r; cbn [call].
  - intros [= <- <-]. reflexivity.
  - intros [= <- <-]. reflexivity.
  - intros Hrun. apply IH in Hrun. exact Hrun.
  - destruct (listener event st) as [[st1 r1]|] eqn:Hemit; [|discriminate].
    intros Hrun. apply IH in Hrun. rewrite Hrun.
    exact (Hlistener _ _ _ _ Hemit).
Qed.

(** The handler never changes what it is registered on, however deep the
    callback enters it again. *)
Lemma onExit__listening {W : Type} (fn : callback W) (depth : nat)
  (st st' : exitHook * W) (r : option exn) :
  onExit_ fn depth st = Some (st', r) → listening st'.1 = listening st.1.
Proof.
  revert st st' r. induction depth as [|depth IH]; intros st st' r; [discriminate|].
  assert (Hlistener : ∀ event s s' r',
            listenerOf (onExit_ fn depth) event s = Some (s', r') →
            listening s'.1 = listening s.1).
  { intros event s s' r' Hl. unfold listenerOf in Hl.
    case_bool_decide; [exact (IH _ _ _ Hl)|]. injection Hl as <- <-. reflexivity. }
  cbn [onExit_]. destruct (exit st.1); [intros [= <- <-]; reflexivity|].
  destruct (call _ fn st) as [[[h1 w1] [e|]]|] eqn:Hcall; [| |discriminate].
  - intros [= <- <-]. exact (call_listening _ fn Hlistener _ _ _ Hcall).
  - intros [= <- <-]. exact (call_listening _ fn Hlistener _ _ _ Hcall).
Qed.

Lemma deliver_listening {W : Type} (fn : callback W) (depth : nat)
  (events : list string) (st st' : exitHook * W) :
  deliver fn depth events st = Some st' → listening st'.1 = listening st.1.
Proof.
  revert st. induction events as [|event events IH]; intros st; cbn [deliver].
  - intros [= <-]. reflexivity.
  - unfold emit, listenerOf. case_bool_decide.
    + destruct (onExit_ fn depth st) as [[st1 r]|] eqn:Hrun; [|discriminate].
      intros Hrest. rewrite (IH _ Hrest). exact (onExit__listening _ _ _ _ _ Hrun).
    + exact (IH st).
Qed.

(** Events the handler is registered on invoke it, one invocation each. *)
Lemma deliver_invoke {W : Type} (fn : callback W) (depth : nat)
  (events : list string) (st : exitHook * W) :
  Forall (λ event, event ∈ listening st.1) events →
  deliver fn depth events st = invoke fn depth (length events) st.
Proof.
  revert st. induction events as [|event events IH]; intros st Hall; [reflexivity|].
  apply Forall_cons in Hall as [Hev Hall]. cbn [deliver invoke length].
  unfold emit, listenerOf. rewrite bool_decide_eq_true_2 by exact Hev.
  destruct (onExit_ fn depth st) as [[st1 r]|] eqn:Hrun; [|reflexivity].
  apply IH. rewrite (onExit__listening _ _ _ _ _ Hrun). exact Hall.
Qed.

(** Silent code never reaches the handler: it runs as if no listener were
    registered. *)
Lemma call_silent {W : Type} (fn c : callback W) (depth : nat)
  (h : exitHook) (w : W) :
  silent c →
  (∀ event, event ∈ listening h → event ∈ ["SIGTERM"; "SIGINT"; "exit"]) →
  call (listenerOf (onExit_ fn depth)) c (h, w)
  = Some ((h, (plain c w).1), (plain c w).2).
Proof.
  intros Hsilent Hon. revert w.
  induction Hsilent as [|e|f k _ IH|event k Hevent _ IH]; intros w; cbn [call plain].
  - reflexivity.
  - reflexivity.
  - apply IH.
  - unfold listenerOf at 1. cbn [fst].
    rewrite bool_decide_eq_false_2 by (intros Hin; exact (Hevent (Hon _ Hin))).
    apply IH.
Qed.

Lemma silent_lift {W : Type} (c : callback W) : silent c → silent (lift c).
Proof.
  induction 1 as [|e|f k _ IH|event k Hevent _ IH]; cbn [lift].
  - apply silent_Return.
  - apply silent_Throw.
  - apply silent_Do. intros w. apply IH.
  - apply silent_Emit; [exact Hevent|]. intros r. apply IH.
Qed.

Lemma plain_lift {W : Type} (c : callback W) (w : W) (n : nat) :
  plain (lift c) (w, n) = (((plain c w).1, n), (plain c w).2).
Proof.
  revert w. induction c as [|e|f k IH|event k IH]; intros w; cbn [lift plain fst snd].
  - reflexivity.
  - reflexivity.
  - apply IH.
  - apply IH.
Qed.

(** Any number of invocations of the handler with a silent callback that
    returns normally: one run of the callback. *)
Lemma invoke_silent {W : Type} (fn : callback W) (depth n : nat) (w : W) :
  silent fn →
  (plain fn w).2 = None →
  invoke fn (S depth) (S n) (onExit.1, w)
  = Some ({| exit := true; listening := ["SIGTERM"; "SIGINT"; "exit"] |},
          (plain fn w).1).
Proof.
  intros Hsilent Hplain. cbn [invoke onExit_ onExit fst exit].
  rewrite (call_silent fn fn depth _ w Hsilent) by (intros event Hin; exact Hin).
  rewrite Hplain. cbn [listening]. apply invoke_after_exit. reflexivity.
Qed.

(** C9, amended. For every callback [fn] that never emits one of the three
    events itself and whose first run under the handler returns normally,
    invoking the handler installed by [onExit] any number of times
    [n >= 1] calls [fn] exactly once: the state is the one the first
    invocation leaves, with the flag set, the world is the one a single
    run of [fn] leaves, and the call counter is 1. The same holds when the
    invocations come from the process emitting any of the three events
    the handler is registered on. *)
Theorem onExit_handler_idempotent {W : Type} (fn : callback W)
  (depth n : nat) (w w' : W) (h' : exitHook) :
  (1 ≤ n)%nat →
  silent fn →
  onExit_ fn depth (onExit.1, w) = Some ((h', w'), None) →
  h' = {| exit := true; listening := ["SIGTERM"; "SIGINT"; "exit"] |} ∧
  w' = (plain fn w).1 ∧
  invoke fn depth n (onExit.1, w) = invoke fn depth 1 (onExit.1, w) ∧
  invoke fn depth n (onExit.1, w) = Some (h', w') ∧
  snd <$> invoke (counted fn) depth n (onExit.1, (w, 0%nat)) = Some (w', 1%nat) ∧
  (∀ events, length events = n →
             Forall (λ event, event ∈ ["SIGTERM"; "SIGINT"; "exit"]) events →
             deliver fn depth events (onExit.1, w) = invoke fn depth 1 (onExit.1, w)).
Proof.
  intros Hn Hsilent Hfirst.
  destruct depth as [|depth]; [discriminate Hfirst|].
  destruct n as [|n]; [lia|].
  cbn [onExit_ onExit fst exit] in Hfirst.
  rewrite (call_silent fn fn depth _ w Hsilent) in Hfirst
    by (intros event Hin; exact Hin).
  destruct (plain fn w) as [w1 [e|]] eqn:Hplain; [discriminate Hfirst|].
  cbn [fst snd listening] in Hfirst. injection Hfirst as <- <-.
  assert (Hany : ∀ m, invoke fn (S depth) (S m) (onExit.1, w)
                      = Some ({| exit := true;
                                 listening := ["SIGTERM"; "SIGINT"; "exit"] |}, w1)).
  { intros m. rewrite (invoke_silent fn depth m w Hsilent) by (rewrite Hplain; reflexivity).
    rewrite Hplain. reflexivity. }
  split; [reflexivity|]. split; [reflexivity|].
  split; [rewrite (Hany n), (Hany 0%nat); reflexivity|].
  split; [apply Hany|]. split.
  - rewrite (invoke_silent (counted fn) depth n (w, 0%nat)).
    + cbn [counted plain fst snd]. rewrite plain_lift, Hplain. reflexivity.
    + apply silent_Do. intros _. apply silent_lift, Hsilent.
    + cbn [counted plain fst snd]. rewrite plain_lift, Hplain. reflexivity.
  - intros events Hlen Hall. rewrite deliver_invoke by exact Hall.
    rewrite Hlen, (Hany n), (Hany 0%nat). reflexivity.
Qed.

Lemma onExit_handler_idempotent_witness :
  let fn := Do (λ log : list string, log ++ ["aborted"]) (λ _, Return) in
  let h' := {| exit := true; listening := ["SIGTERM"; "SIGINT"; "exit"] |} in
  invoke fn 1 3 (onExit.1, []) = invoke fn 1 1 (onExit.1, []) ∧
  invoke fn 1 3 (onExit.1, []) = Some (h', ["aborted"]) ∧
  snd <$> invoke (counted fn) 1 3 (onExit.1, ([], 0%nat)) = Some (["aborted"], 1%nat) ∧
  deliver fn 1 ["SIGINT"; "SIGINT"; "exit"] (onExit.1, [])
  = invoke fn 1 1 (onExit.1, []).
Proof.
  intros fn h'.
  destruct (onExit_handler_idempotent fn 1 3 [] ["aborted"] h')
    as (_ & _ & H1 & H2 & H3 & H4).
  - lia.
  - apply silent_Do. intros _. apply silent_Return.
  - reflexivity.
  - split; [exact H1|]. split; [exact H2|]. split; [exact H3|].
    apply H4; [reflexivity|].
    repeat (apply Forall_cons; split; [apply (bool_decide_unpack _); vm_compute; exact I|]).
    apply Forall_nil_2.
Defined.

End ExitHook.

(** ** Skipping the verification *)

Section NoVerify.

Import Scale Notions.

Lemma verify_skipped (i : input) (a : argv) (d : deployment)
  (scaleArgs : scaleObj) (dcIds : list string) (lo hi : scaleValue)
  (tr : list effect) :
  type d = "BINARY" ∨ noVerify a = true →
  verify i a d scaleArgs dcIds lo hi tr
  = (tr ++ [ConsoleLog (ScaleRulesSaved dcIds lo hi); NowClose], inr (Returned 0)).
Proof.
  intros Hskip. unfold verify.
  replace (bool_decide (type d = "BINARY") || noVerify a) with true; [reflexivity|].
  symmetry. destruct Hskip as [Hb| ->].
  - rewrite bool_decide_eq_true_2 by exact Hb. reflexivity.
  - apply orb_true_r.
Qed.

Lemma post_ret {A} (a : A) tr (Q : list effect → A + completion Z → Prop) :
  Q tr (inl a) → post (mret a) tr Q.
Proof. intros H. exact H. Qed.

Lemma post_finish {A} (c : completion Z) tr (Q : list effect → A + completion Z → Prop) :
  Q tr (inr c) → post (finish c) tr Q.
Proof. intros H. exact H. Qed.

Lemma post_ret_bind {A B} (a : A) (f : A → M B) tr
  (Q : list effect → B + completion Z → Prop) :
  post (f a) tr Q → post (mret a ≫= f) tr Q.
Proof. intros H. exact H. Qed.

Lemma post_finish_bind {A B} (c : completion Z) (f : A → M B) tr
  (Q : list effect → B + completion Z → Prop) :
  Q tr (inr c) → post (finish c ≫= f) tr Q.
Proof. intros H. exact H. Qed.

Lemma post_perform_bind {B} (es : list effect) (f : () → M B) tr
  (Q : list effect → B + completion Z → Prop) :
  post (f ()) (tr ++ es) Q → post (perform es ≫= f) tr Q.
Proof. intros H. exact H. Qed.

Lemma post_bind_assoc {A B D} (m : M A) (g : A → M B) (f : B → M D) tr
  (Q : list effect → D + completion Z → Prop) :
  post (m ≫= (λ a, g a ≫= f)) tr Q → post ((m ≫= g) ≫= f) tr Q.
Proof.
  unfold post, mbind, M_bind. destruct (m tr) as [tr' [a|c]]; intros H; exact H.
Qed.

(** One step through a computation of [main], in program order. *)
Ltac step :=
  lazymatch goal with
  | |- post (mret _ ≫= _) _ _ => apply post_ret_bind
  | |- post (finish _ ≫= _) _ _ => apply post_finish_bind
  | |- post (perform _ ≫= _) _ _ => apply post_perform_bind
  | |- post ((_ ≫= _) ≫= _) _ _ => apply post_bind_assoc
  | |- post (match ?x with _ => _ end ≫= _) _ _ => destruct x eqn:?
  | |- post (mret _) _ _ => apply post_ret
  | |- post (finish _) _ _ => apply post_finish
  | |- post (match ?x with _ => _ end) _ _ => destruct x eqn:?
  end.

Lemma main_skipped (i : input) (a : argv) (d : deployment) :
  parsed i = Ok a →
  found i = Ok d →
  patched i = Ok () →
  type d = "BINARY" ∨ noVerify a = true →
  post (main i) [] skipped.
Proof.
  intros Hparsed Hfound Hpatched Hskip.
  unfold main, legacyArguments, numericArguments, return_, throw.
  rewrite Hparsed, Hfound, Hpatched.
  repeat step.
  all: lazymatch goal with
       | |- post (verify _ _ _ _ _ _ _) _ _ =>
           unfold post; rewrite verify_skipped by exact Hskip;
           split; [reflexivity|]; intros _; split; [reflexivity|];
           eexists [_; _; _; _; _; _; _], _, _, _, _, _; reflexivity
       | |- skipped _ _ =>
           split; [reflexivity | intros H; discriminate H]
       end.
Qed.

Lemma bind_ext {A B} (m : M A) (f g : A → M B) tr :
  (∀ a tr', f a tr' = g a tr') → (m ≫= f) tr = (m ≫= g) tr.
Proof.
  intros Hfg. unfold mbind, M_bind. destruct (m tr) as [tr' [a|c]]; [apply Hfg | reflexivity].
Qed.

Lemma bind_ret_ext {A B} (a : A) (f g : A → M B) tr :
  f a tr = g a tr → (mret a ≫= f) tr = (mret a ≫= g) tr.
Proof. intros H. exact H. Qed.

(** One step through two computations of [main] that differ at most in
    their last part. *)
Ltac step2 :=
  lazymatch goal with
  | |- (mret ?a ≫= _) _ = (mret ?a ≫= _) _ => apply bind_ret_ext
  | |- (?m ≫= _) _ = (?m ≫= _) _ => apply bind_ext; intros ? ?
  | |- (match ?x with _ => _ end) _ = (match ?x with _ => _ end) _ => destruct x
  end.

Lemma main_withPolling (i : input) (a : argv) (d : deployment)
  (start : Z) (script : list cycle) :
  parsed i = Ok a →
  found i = Ok d →
  type d = "BINARY" ∨ noVerify a = true →
  main (withPolling i start script) [] = main i [].
Proof.
  intros Hparsed Hfound Hskip.
  unfold main, withPolling.
  cbn [parsed ms normalizeRegionsList credentials found patched].
  rewrite Hparsed, Hfound.
  repeat step2.
  all: try reflexivity.
  all: rewrite !verify_skipped by exact Hskip; reflexivity.
Qed.

(** C10. In the scale command, when the deployment's type is "BINARY" or
    [--no-verify] was given, and the scale rules were accepted: no effect
    of the run belongs to the verification (no snapshot is requested, no
    pause is made, no progress display or exit hook is set up); if the run
    sent the scale rules, all that follows is the confirmation and the
    closing of the client, and the command returns 0; and the run is the
    same whatever the clock and the snapshots of a verification would be. *)
Theorem main_skips_verification (i : input) (a : argv) (d : deployment)
  (tr : list effect) (c : completion Z) :
  parsed i = Ok a →
  found i = Ok d →
  patched i = Ok () →
  type d = "BINARY" ∨ noVerify a = true →
  run i = (tr, c) →
  (∀ e, e ∈ tr → ofVerification e = false) ∧
  ((∃ uid scaleArgs, PatchInstances uid scaleArgs ∈ tr) →
   c = Returned 0 ∧
   ∃ pre uid scaleArgs dcIds lo hi,
     tr = pre ++ [PatchInstances uid scaleArgs; WaitStop;
                  ConsoleLog (ScaleRulesSaved dcIds lo hi); NowClose]) ∧
  (∀ start script, run (withPolling i start script) = (tr, c)).
Proof.
  intros Hparsed Hfound Hpatched Hskip Hrun.
  pose proof (main_skipped i a d Hparsed Hfound Hpatched Hskip) as [Hquiet Hsaved].
  unfold run in Hrun.
  split; [|split].
  - intros e He. rewrite forallb_forall in Hquiet.
    destruct (main i []) as [tr0 [code|c0]]; simplify_eq/=;
      apply negb_true_iff, Hquiet, list_elem_of_In, He.
  - intros (uid & scaleArgs & Hin).
    assert (Hex : existsb isPatchInstances (main i []).1 = true).
    { apply existsb_exists. exists (PatchInstances uid scaleArgs).
      split; [|reflexivity]. apply list_elem_of_In.
      destruct (main i []) as [tr0 [code|c0]]; simplify_eq/=; exact Hin. }
    destruct (Hsaved Hex) as (Hr & Hshape).
    destruct (main i []) as [tr0 [code|c0]]; simplify_eq/=.
    split; [reflexivity | exact Hshape].
  - intros start script. unfold run.
    rewrite (main_withPolling i a d start script Hparsed Hfound Hskip).
    exact Hrun.
Qed.

Lemma main_skips_verification_witness :
  let i :=
    {| parsed := Ok {| help := false; noVerify := true; verifyTimeout := None;
                       positional := ["my-app.now.sh"; "sfo1"; "1"; "auto"] |};
       ms := λ _, None;
       normalizeRegionsList := λ l, Ok l;
       credentials := [("sh", "token")];
       found := Ok {| uid := "dpl_1"; url := "my-app.now.sh"; type := "NPM";
                      state_ := "READY" |};
       patched := Ok ();
       start := 0;
       script := [{| clock := 1; fetched := FetchOk ∅ |}] |} in
  (run i).2 = Returned 0 ∧
  ∀ e, e ∈ (run i).1 → ofVerification e = false.
Proof.
  intros i.
  destruct (main_skips_verification i
              {| help := false; noVerify := true; verifyTimeout := None;
                 positional := ["my-app.now.sh"; "sfo1"; "1"; "auto"] |}
              {| uid := "dpl_1"; url := "my-app.now.sh"; type := "NPM";
                 state_ := "READY" |}
              (run i).1 (run i).2)
    as (Hquiet & Hsaved & _).
  - reflexivity.
  - reflexivity.
  - reflexivity.
  - right. reflexivity.
  - reflexivity.
  - split; [|exact Hquiet].
    apply Hsaved. eexists _, _. vm_compute.
    do 7 right. left.
Defined.

End NoVerify.

(** * Further properties *)

Lemma filter_none {A} (P : A → Prop) `{∀ x, Decision (P x)} (l : list A) :
  (∀ x, x ∈ l → ¬ P x) → filter P l = [].
Proof.
  induction l as [|x l IH]; intros Hall; [reflexivity|].
  rewrite filter_cons_False by (apply Hall; left).
  apply IH. intros y Hy. apply Hall. right. exact Hy.
Qed.

(** The deploy command's loop has ended once the clock has passed the
    deadline. *)
Lemma deploy_loop_ends_at_deadline (deploymentId : string) (scale : scaleObj)
  (start : Z) (script : list cycle) (tr : list Deploy.effect) :
  (∃ c, c ∈ script ∧ start + Deploy.timeout ≤ clock c) →
  (Deploy.waitForScale deploymentId scale start script tr).2 ≠ Pending.
Proof.
  intros (c & Hc & Hlate). unfold Deploy.waitForScale.
  generalize ({| Deploy.remainingMatches := Set_new (Object_keys scale);
                 Deploy.trace := tr ++ Deploy.renderRemainingDCsWait (Object_keys scale) |}).
  induction script as [|c' script IH]; intros st; [apply elem_of_nil in Hc; contradiction|].
  simpl.
  destruct (Z.leb_spec (start + Deploy.timeout) (clock c')) as [|Hearly]; [discriminate|].
  destruct (fetched c') as [data|e]; [|discriminate].
  destruct (Deploy.getMatchingScalePresets _ _ _) as [found|e]; [|discriminate].
  assert (Hc' : c ∈ script) by (apply elem_of_cons in Hc as [->|Hc]; [lia | exact Hc]).
  case_bool_decide; [|apply IH, Hc'].
  case_bool_decide; [discriminate|]. apply IH, Hc'.
Qed.

(** ** The scale command's polling, from first to last cycle *)

Section ScalePolling.

Import Scale Notions Facts.

Context {C : Type}.
Variable intendedScale : scaleObj.
Variable opts : options C.

(** With every region to visit satisfied and no callback, one turn empties
    the part of the set it visits and reports a match for each region. *)
Lemma forDcs_all_satisfied (data : snapshot) (todo kept : list string) (st : state C) :
  onDCScaled opts = None →
  intendedScaleDcs st = kept ++ todo →
  NoDup (kept ++ todo) →
  (∀ b, b ∈ todo → satisfied intendedScale data b = true) →
  forDcs intendedScale opts data todo st
  = ({| intendedScaleDcs := kept;
        closure := closure st;
        trace := trace st ++ ((λ dc, Debug (DcMatch dc)) <$> todo) |}, None).
Proof.
  intros Hcb. revert st. induction todo as [|dc todo IH]; intros st Hst Hnd Hsat.
  - simpl. rewrite !app_nil_r in *. destruct st; simpl in *; subst. reflexivity.
  - simpl. pose proof (Hsat dc ltac:(left)) as Hdc. unfold satisfied in Hdc.
    destruct (data !! dc) as [o|]; [|discriminate].
    destruct (get intendedScale dc) as [r|]; [|discriminate].
    rewrite Hdc, Hcb. simpl.
    rewrite IH.
    + simpl. rewrite <- app_assoc. reflexivity.
    + simpl. rewrite Hst. apply Set_delete_middle, Hnd.
    + apply NoDup_app in Hnd as (H1 & H2 & H3).
      apply NoDup_cons in H3 as [H3 H4].
      apply NoDup_app. split; [exact H1|]. split; [|exact H4].
      intros x Hx Hx'. apply (H2 x Hx). right. exact Hx'.
    + intros b Hb. apply Hsat. right. exact Hb.
Qed.

(** A region that one turn takes out of the set was satisfied by the
    snapshot of that turn. *)
Lemma forDcs_removed_satisfied (data : snapshot) (todo : list string)
  (st : state C) (dc : string) :
  dc ∈ intendedScaleDcs st →
  dc ∉ intendedScaleDcs (forDcs intendedScale opts data todo st).1 →
  satisfied intendedScale data dc = true.
Proof.
  revert st. induction todo as [|b todo IH]; intros st Hin Hout; simpl in Hout.
  - contradiction.
  - destruct (data !! b) as [o|] eqn:Ho; [|contradiction].
    destruct (get intendedScale b) as [r|] eqn:Hr; [|contradiction].
    destruct (isInstanceCountBetween _ _ _) eqn:Hb.
    + destruct (decide (dc = b)) as [->|Hne].
      * unfold satisfied. rewrite Ho, Hr. exact Hb.
      * eapply IH; [|exact Hout]. simpl. rewrite callOnDCScaled_dcs.
        apply list_elem_of_filter. split; [exact Hne | exact Hin].
    + eapply IH; [|exact Hout]. exact Hin.
Qed.

Variable deploymentId : string.
Variables timeout checkInterval start : Z.

Local Abbreviation loop :=
  (loop intendedScale opts deploymentId timeout checkInterval start).

(** The loop returns only with an empty set. *)
Lemma loop_Returned_empty (script : list cycle) (st st' : state C) :
  loop script st = (st', Returned ()) → intendedScaleDcs st' = [].
Proof.
  revert st. induction script as [|c script IH]; intros st; simpl; [discriminate|].
  destruct (timedOut timeout start (clock c)); [discriminate|].
  destruct (fetched c) as [data|e]; [|discriminate].
  destruct (forDcs _ _ _ _ _) as [st1 [e|]]; [discriminate|].
  case_bool_decide as Hsize.
  - intros [= <-]. unfold Set_size in Hsize.
    destruct (intendedScaleDcs st1); [reflexivity | discriminate].
  - apply IH.
Qed.

(** A region that left the set did so in a cycle made before the deadline
    whose snapshot satisfied it. *)
Lemma loop_removed_satisfied (script : list cycle) (st : state C) (dc : string) :
  dc ∈ intendedScaleDcs st →
  dc ∉ intendedScaleDcs (loop script st).1 →
  ∃ c data, c ∈ script ∧ clock c < start + timeout ∧
            fetched c = FetchOk data ∧ satisfied intendedScale data dc = true.
Proof.
  revert st. induction script as [|c script IH]; intros st Hin Hout; simpl in Hout.
  - contradiction.
  - unfold timedOut in Hout.
    destruct (Z.leb_spec (start + timeout) (clock c)) as [|Hearly]; [contradiction|].
    destruct (fetched c) as [data|e] eqn:Hfetch; [|contradiction].
    destruct (decide (dc ∈ intendedScaleDcs
                        (forDcs intendedScale opts data (intendedScaleDcs st)
                           (say [GetInstances deploymentId] st)).1)) as [Hstill|Hgone].
    + destruct (forDcs _ _ _ _ _) as [st1 [e|]]; simpl in *; [contradiction|].
      case_bool_decide; [contradiction|].
      destruct (IH (say [Sleep checkInterval] st1) Hstill Hout)
        as (c' & data' & Hc' & Hrest).
      exists c', data'. split; [right; exact Hc' | exact Hrest].
    + exists c, data. split; [left|]. split; [exact Hearly|]. split; [exact Hfetch|].
      eapply forDcs_removed_satisfied; [|exact Hgone]. exact Hin.
Qed.

(** Once the clock has passed the deadline the loop has ended. *)
Lemma loop_ends_at_deadline (script : list cycle) (st : state C) :
  (∃ c, c ∈ script ∧ start + timeout ≤ clock c) →
  (loop script st).2 ≠ Pending.
Proof.
  intros (c & Hc & Hlate). revert st.
  induction script as [|c' script IH]; intros st; [apply elem_of_nil in Hc; contradiction|].
  simpl. unfold timedOut.
  destruct (Z.leb_spec (start + timeout) (clock c')) as [|Hearly]; [discriminate|].
  destruct (fetched c') as [data|e]; [|discriminate].
  destruct (forDcs _ _ _ _ _) as [st1 [e|]]; [discriminate|].
  case_bool_decide; [discriminate|].
  apply IH. apply elem_of_cons in Hc as [->|Hc]; [lia | exact Hc].
Qed.

End ScalePolling.

Section ScalePollingTheorems.

Import Scale Notions Facts.

(** X1. When the first snapshot, fetched before the deadline, shows every
    region of the intended scale inside its bounds, [waitForScale] of the
    scale command returns after that one cycle with an empty set, whatever
    would follow; with no callback its effects are that one request and a
    match message for each region, and no pause. *)
Theorem waitForScale_converged_at_once {C : Type} (deploymentId : string)
  (intendedScale : scaleObj) (opts : options C) (start : Z)
  (c : cycle) (rest : list cycle) (data : snapshot) (c0 : C) (tr : list effect) :
  clock c < start + default ms_2m (timeout opts) →
  fetched c = FetchOk data →
  (∀ dc, dc ∈ Object_keys intendedScale → satisfied intendedScale data dc = true) →
  (∃ st, waitForScale deploymentId intendedScale opts start (c :: rest) c0 tr
         = (st, Returned ()) ∧ intendedScaleDcs st = []) ∧
  (onDCScaled opts = None →
   waitForScale deploymentId intendedScale opts start (c :: rest) c0 tr
   = ({| intendedScaleDcs := [];
         closure := c0;
         trace := tr ++ GetInstances deploymentId ::
                    ((λ dc, Debug (DcMatch dc)) <$> Set_new (Object_keys intendedScale)) |},
      Returned ())).
Proof.
  intros Hearly Hfetch Hsat.
  set (st0 := say [GetInstances deploymentId]
                {| intendedScaleDcs := Set_new (Object_keys intendedScale);
                   closure := c0; trace := tr |}).
  assert (Hpresent : ∀ b, b ∈ intendedScaleDcs st0 → is_Some (data !! b)).
  { intros b Hb.
    assert (Hkey : b ∈ Object_keys intendedScale) by (apply Set_new_elem_of; exact Hb).
    specialize (Hsat b Hkey).
    unfold satisfied in Hsat. destruct (data !! b); [eauto | discriminate]. }
  assert (Hearly' : timedOut (default ms_2m (timeout opts)) start (clock c) = false).
  { unfold timedOut. apply Z.leb_gt. lia. }
  split.
  - destruct (forDcs_survivors intendedScale opts data (intendedScaleDcs st0) [] st0)
      as (st' & Hrun & Hset).
    + reflexivity.
    + apply Set_new_NoDup.
    + intros b Hb. apply get_is_Some, Set_new_elem_of. exact Hb.
    + rewrite survivors_present in Hset by exact Hpresent.
      assert (Hempty : intendedScaleDcs st' = []).
      { rewrite Hset. simpl. apply filter_none.
        intros b Hb.
        assert (Hkey : b ∈ Object_keys intendedScale) by (apply Set_new_elem_of; exact Hb).
        rewrite (Hsat b Hkey). discriminate. }
      exists st'. split; [|exact Hempty].
      unfold waitForScale. simpl. rewrite Hearly', Hfetch.
      fold st0. change (Set_new (Object_keys intendedScale)) with (intendedScaleDcs st0).
      rewrite Hrun, Hempty. reflexivity.
  - intros Hcb. unfold waitForScale. simpl. rewrite Hearly', Hfetch.
    fold st0. change (Set_new (Object_keys intendedScale)) with (intendedScaleDcs st0).
    rewrite (forDcs_all_satisfied intendedScale opts data (intendedScaleDcs st0) [] st0 Hcb).
    + simpl. rewrite <- app_assoc. reflexivity.
    + reflexivity.
    + apply Set_new_NoDup.
    + intros b Hb. apply Hsat, Set_new_elem_of. exact Hb.
Qed.

Lemma waitForScale_converged_at_once_witness :
  let rule := {| min := Num 1; max := Auto |} in
  let scale := [("sfo1", rule); ("bru1", {| min := Num 0; max := Num 1 |})] in
  let opts := {| timeout := None; checkInterval := None; onDCScaled := None |} in
  let data : snapshot :=
    {[ "sfo1" := {| instances := ["i1"; "i2"] |}; "bru1" := {| instances := [] |} ]} in
  waitForScale "d" scale opts 0
    [{| clock := 3; fetched := FetchOk data |};
     {| clock := 600; fetched := FetchFailed (Error "unused") |}] () []
  = ({| intendedScaleDcs := []; closure := ();
        trace := [GetInstances "d"; Debug (DcMatch "sfo1"); Debug (DcMatch "bru1")] |},
     Returned ()).
Proof.
  intros rule scale opts data.
  destruct (waitForScale_converged_at_once "d" scale opts 0
              {| clock := 3; fetched := FetchOk data |}
              [{| clock := 600; fetched := FetchFailed (Error "unused") |}]
              data () []) as [_ Htrace].
  - vm_compute. reflexivity.
  - reflexivity.
  - intros dc Hdc. simpl in Hdc.
    apply elem_of_cons in Hdc as [->|Hdc]; [reflexivity|].
    apply list_elem_of_singleton in Hdc as ->. reflexivity.
  - apply Htrace. reflexivity.
Defined.

(** X2. When [waitForScale] of the scale command returns, every region of
    the intended scale was seen inside its bounds in a snapshot fetched
    before the deadline; for different regions the snapshots may differ. *)
Theorem waitForScale_returns_only_when_seen {C : Type} (deploymentId : string)
  (intendedScale : scaleObj) (opts : options C) (start : Z)
  (script : list cycle) (c0 : C) (tr : list effect) (st : state C) (dc : string) :
  waitForScale deploymentId intendedScale opts start script c0 tr = (st, Returned ()) →
  dc ∈ Object_keys intendedScale →
  ∃ c data, c ∈ script ∧ clock c < start + default ms_2m (timeout opts) ∧
            fetched c = FetchOk data ∧ satisfied intendedScale data dc = true.
Proof.
  intros Hrun Hdc. unfold waitForScale in Hrun.
  apply (loop_removed_satisfied intendedScale opts deploymentId
           (default ms_2m (timeout opts)) (default 500 (checkInterval opts)) start
           script
           {| intendedScaleDcs := Set_new (Object_keys intendedScale);
              closure := c0; trace := tr |}).
  - simpl. apply Set_new_elem_of. exact Hdc.
  - rewrite Hrun. simpl.
    rewrite (loop_Returned_empty _ _ _ _ _ _ _ _ _ Hrun). apply not_elem_of_nil.
Qed.

Lemma waitForScale_returns_only_when_seen_witness :
  let rule := {| min := Num 1; max := Num 1 |} in
  let scale := [("sfo1", rule); ("bru1", rule)] in
  let opts : options () :=
    {| timeout := None; checkInterval := None; onDCScaled := None |} in
  let first : snapshot :=
    {[ "sfo1" := {| instances := ["i1"] |}; "bru1" := {| instances := [] |} ]} in
  let second : snapshot :=
    {[ "sfo1" := {| instances := [] |}; "bru1" := {| instances := ["i2"] |} ]} in
  let script := [{| clock := 3; fetched := FetchOk first |};
                 {| clock := 510; fetched := FetchOk second |}] in
  ∃ c data, c ∈ script ∧ clock c < 0 + default ms_2m (timeout opts) ∧
            fetched c = FetchOk data ∧ satisfied scale data "bru1" = true.
Proof.
  intros rule scale opts first second script.
  apply (waitForScale_returns_only_when_seen "d" scale opts 0 script () []
           {| intendedScaleDcs := []; closure := ();
              trace := [GetInstances "d"; Debug (DcMatch "sfo1");
                        Debug (DcMiss "bru1" (Num 1) (Num 1) 0); Sleep 500;
                        GetInstances "d"; Debug (DcMatch "bru1")] |}).
  - reflexivity.
  - apply (bool_decide_unpack _). vm_compute. exact I.
Defined.

(** X3. [waitForScale] waits no longer than to the deadline: in the scale
    command and in the deploy command, once a reading of the clock at the
    top of the loop is at or past [start + timeout], the function has
    returned or thrown, whatever the snapshots were. *)
Theorem waitForScale_ends_at_deadline {C : Type} (deploymentId : string)
  (scale : scaleObj) (opts : options C) (start : Z)
  (script : list cycle) (c0 : C) (tr : list effect) (tr' : list Deploy.effect) :
  (∃ c, c ∈ script ∧ start + default ms_2m (timeout opts) ≤ clock c) →
  (waitForScale deploymentId scale opts start script c0 tr).2 ≠ Pending ∧
  ((∃ c, c ∈ script ∧ start + Deploy.timeout ≤ clock c) →
   (Deploy.waitForScale deploymentId scale start script tr').2 ≠ Pending).
Proof.
  intros Hlate. split.
  - apply loop_ends_at_deadline. exact Hlate.
  - apply deploy_loop_ends_at_deadline.
Qed.

Lemma waitForScale_ends_at_deadline_witness :
  let rule := {| min := Num 1; max := Num 1 |} in
  let opts : options () :=
    {| timeout := Some 1000; checkInterval := None; onDCScaled := None |} in
  let script := [{| clock := 10; fetched := FetchOk ∅ |};
                 {| clock := 120000; fetched := FetchOk ∅ |}] in
  (waitForScale "d" [("sfo1", rule)] opts 0 script () []).2 ≠ Pending ∧
  (Deploy.waitForScale "d" [] 0 script []).2 ≠ Pending.
Proof.
  intros rule opts script.
  destruct (waitForScale_ends_at_deadline "d" [("sfo1", rule)] opts 0 script () [] [])
    as [Hscale _].
  { exists {| clock := 120000; fetched := FetchOk ∅ |}. split; [|vm_compute; discriminate].
    right. left. }
  destruct (waitForScale_ends_at_deadline "d" [] opts 0 script () [] [])
    as [_ Hdeploy].
  { exists {| clock := 120000; fetched := FetchOk ∅ |}. split; [|vm_compute; discriminate].
    right. left. }
  split; [exact Hscale|]. apply Hdeploy.
  exists {| clock := 120000; fetched := FetchOk ∅ |}. split; [|vm_compute; discriminate].
  right. left.
Defined.

End ScalePollingTheorems.

(** ** The progress display and the exit hook of the scale command *)

Section Display.

Import Scale Notions Facts.

(** The callback [main] passes as [onDCScaled]. *)
Local Abbreviation onScaled :=
  (λ (id : string) (instanceCount : Z), cancelVerifyWait (Some (id, instanceCount))).

Lemma showing_app (tr es : list effect) :
  showing (tr ++ es) = foldl showStep (showing tr) es.
Proof. unfold showing. apply foldl_app. Qed.

Lemma forDcs_display (intendedScale : scaleObj) (opts : options StrSet)
  (data : snapshot) (todo : list string) (st : state StrSet) :
  onDCScaled opts = Some onScaled →
  inStep st →
  inStep (forDcs intendedScale opts data todo st).1.
Proof.
  intros Hcb. revert st. induction todo as [|dc todo IH]; intros st Hst; simpl; [exact Hst|].
  destruct (data !! dc) as [o|].
  2: { destruct Hst as [Hset Hline]. split; [exact Hset|].
       cbn [fst say trace intendedScaleDcs]. rewrite showing_app. exact Hline. }
  destruct (get intendedScale dc) as [r|]; [|exact Hst].
  destruct (isInstanceCountBetween _ _ _); apply IH.
  - rewrite Hcb. destruct Hst as [Hset Hline]. split.
    + simpl. rewrite Hset. reflexivity.
    + simpl. rewrite Hset, !showing_app. reflexivity.
  - destruct Hst as [Hset Hline]. split; [exact Hset|].
    cbn [fst say trace intendedScaleDcs]. rewrite showing_app. exact Hline.
Qed.

Lemma loop_display (intendedScale : scaleObj) (opts : options StrSet)
  (deploymentId : string) (timeout checkInterval start : Z)
  (script : list cycle) (st : state StrSet) :
  onDCScaled opts = Some onScaled →
  inStep st →
  inStep (loop intendedScale opts deploymentId timeout checkInterval start script st).1.
Proof.
  intros Hcb. revert st. induction script as [|c script IH]; intros st Hst; simpl; [exact Hst|].
  destruct (timedOut timeout start (clock c)); [exact Hst|].
  assert (Hsay : ∀ e st0, (∀ line, showStep line e = line) →
                          inStep st0 → inStep (say [e] st0)).
  { intros e st0 He [Hset Hline]. split; [exact Hset|].
    cbn [fst say trace intendedScaleDcs]. rewrite showing_app. cbn [foldl].
    rewrite He. exact Hline. }
  destruct (fetched c) as [data|e]; [|apply Hsay; [reflexivity | exact Hst]].
  pose proof (forDcs_display intendedScale opts data (intendedScaleDcs st)
                (say [GetInstances deploymentId] st) Hcb
                (Hsay (GetInstances deploymentId) st (λ _, eq_refl) Hst)) as Hturn.
  cbn [say intendedScaleDcs] in *.
  destruct (forDcs _ _ _ _ _) as [st1 [e|]]; simpl in *; [exact Hturn|].
  case_bool_decide; [exact Hturn|]. apply IH. apply Hsay; [reflexivity | exact Hturn].
Qed.

(** X4. In the verification of the scale command the progress display of
    [waitDcs] follows [waitForScale]: after any number of poll cycles the
    line on the screen lists exactly the regions still in the set of
    [waitForScale], and a region is off the line only after a snapshot
    fetched before the deadline showed it inside its bounds. (A region
    inside its bounds can still be listed: a cycle stops at a region that
    is missing from its snapshot.) *)
Theorem waitDcs_shows_waited_regions (deploymentId : string)
  (scaleArgs : scaleObj) (timeout checkInterval : option Z) (start : Z)
  (script : list cycle) (tr : list effect) :
  let opts := {| timeout := timeout; checkInterval := checkInterval;
                 onDCScaled := Some onScaled |} in
  let st := (waitForScale deploymentId scaleArgs opts start script
               (waitDcs scaleArgs).1 (tr ++ (waitDcs scaleArgs).2 ++ onExit.2)).1 in
  closure st = intendedScaleDcs st ∧
  showing (trace st) = Some (WaitingForInstances (intendedScaleDcs st)) ∧
  ∀ dc, dc ∈ Object_keys scaleArgs →
        dc ∉ intendedScaleDcs st →
        ∃ c data, c ∈ script ∧ clock c < start + default ms_2m timeout ∧
                  fetched c = FetchOk data ∧ satisfied scaleArgs data dc = true.
Proof.
  intros opts st.
  assert (Hstep : inStep st).
  { unfold st, waitForScale. apply loop_display; [reflexivity|].
    split; [reflexivity|]. cbn [trace intendedScaleDcs].
    rewrite !showing_app. reflexivity. }
  destruct Hstep as [Hset Hline]. split; [exact Hset|]. split; [exact Hline|].
  intros dc Hdc Hout.
  apply (loop_removed_satisfied scaleArgs opts deploymentId
           (default ms_2m timeout) (default 500 checkInterval) start script
           {| intendedScaleDcs := Set_new (Object_keys scaleArgs);
              closure := (waitDcs scaleArgs).1;
              trace := tr ++ (waitDcs scaleArgs).2 ++ onExit.2 |}).
  - simpl. apply Set_new_elem_of. exact Hdc.
  - exact Hout.
Qed.

Lemma waitDcs_shows_waited_regions_witness :
  let rule := {| min := Num 1; max := Num 1 |} in
  let scaleArgs := [("sfo1", rule); ("bru1", rule)] in
  let data : snapshot := {[ "sfo1" := {| instances := ["i1"] |} ]} in
  let script := [{| clock := 1; fetched := FetchOk data |};
                 {| clock := 502; fetched := FetchOk data |}] in
  let opts := {| timeout := None; checkInterval := None;
                 onDCScaled := Some onScaled |} in
  let st := (waitForScale "d" scaleArgs opts 0 script
               (waitDcs scaleArgs).1 ([] ++ (waitDcs scaleArgs).2 ++ onExit.2)).1 in
  showing (trace st) = Some (WaitingForInstances ["bru1"]) ∧
  ∃ c data', c ∈ script ∧ clock c < 0 + default ms_2m None ∧
             fetched c = FetchOk data' ∧ satisfied scaleArgs data' "sfo1" = true.
Proof.
  intros rule scaleArgs data script opts st.
  destruct (waitDcs_shows_waited_regions "d" scaleArgs None None 0 script [])
    as (_ & Hline & Hoff).
  split; [exact Hline|]. apply Hoff.
  - apply (bool_decide_unpack _). vm_compute. exact I.
  - apply (bool_decide_unpack _). vm_compute. exact I.
Defined.

(** X5. Once the function returned by [onExit] has run, no event of the
    process calls the wrapped callback any more, whatever events the
    process emitted before and whatever the callback did then: emitting
    any events leaves the world and the hook as they are. *)
Theorem cancelExit_silences_handler {W : Type} (fn : callback W) (depth : nat)
  (before after : list string) (w w1 : W) (h : exitHook) :
  deliver fn depth before (onExit.1, w) = Some (h, w1) →
  listening (cancelExit h).1 = [] ∧
  deliver fn depth after ((cancelExit h).1, w1) = Some ((cancelExit h).1, w1).
Proof.
  intros Hbefore. apply deliver_listening in Hbefore.
  cbn [fst onExit listening] in Hbefore.
  assert (Hoff : listening (cancelExit h).1 = []).
  { cbn [cancelExit fst listening]. rewrite Hbefore. reflexivity. }
  split; [exact Hoff|].
  induction after as [|event after IH]; [reflexivity|].
  cbn [deliver]. unfold emit, listenerOf. cbn [fst].
  rewrite Hoff, bool_decide_eq_false_2 by apply not_elem_of_nil. exact IH.
Qed.

Lemma cancelExit_silences_handler_witness :
  let fn := Do (λ log : list string, log ++ ["aborted"]) (λ _, Throw (Error "boom")) in
  ∃ h, deliver fn 1 ["SIGINT"] (onExit.1, []) = Some (h, ["aborted"]) ∧
       deliver fn 1 ["SIGINT"; "exit"] ((cancelExit h).1, ["aborted"])
       = Some ((cancelExit h).1, ["aborted"]).
Proof.
  intros fn. eexists. split; [reflexivity|].
  apply (cancelExit_silences_handler fn 1 ["SIGINT"] ["SIGINT"; "exit"] [] ["aborted"]).
  reflexivity.
Defined.

End Display.

(** ** What every run of the scale command keeps *)

Section ScaleRuns.

Import Scale Notions Facts.

(** The effects of one turn are debug messages and what the callback
    does. *)
Lemma forDcs_trace {C : Type} (P : effect → Prop) (intendedScale : scaleObj)
  (opts : options C) (data : snapshot) (todo : list string) (st : state C) :
  (∀ m, P (Debug m)) →
  (∀ f dc n c, onDCScaled opts = Some f → Forall P (f dc n c).2) →
  ∃ es, trace (forDcs intendedScale opts data todo st).1 = trace st ++ es ∧ Forall P es.
Proof.
  intros Hdebug Hcb. revert st. induction todo as [|dc todo IH]; intros st; simpl.
  - exists []. rewrite app_nil_r. split; [reflexivity | constructor].
  - destruct (data !! dc) as [o|].
    2: { exists [Debug (MissingDataForDc dc)]. split; [reflexivity|].
         constructor; [apply Hdebug | constructor]. }
    destruct (get intendedScale dc) as [r|].
    2: { exists []. rewrite app_nil_r. split; [reflexivity | constructor]. }
    destruct (isInstanceCountBetween _ _ _).
    + destruct (IH (say [Debug (DcMatch dc)]
                      (deleteDc dc (callOnDCScaled (onDCScaled opts) dc
                                      (instancesLength o) st))))
        as (es & Hes & HP).
      rewrite Hes. simpl. unfold callOnDCScaled.
      destruct (onDCScaled opts) as [f|] eqn:Hf.
      * specialize (Hcb f dc (instancesLength o) (closure st) eq_refl).
        destruct (f dc (instancesLength o) (closure st)) as [c' es']. simpl in *.
        exists (es' ++ Debug (DcMatch dc) :: es).
        split; [rewrite <- !app_assoc; reflexivity|].
        apply Forall_app. split; [exact Hcb|]. constructor; [apply Hdebug | exact HP].
      * exists (Debug (DcMatch dc) :: es).
        split; [rewrite <- app_assoc; reflexivity|].
        constructor; [apply Hdebug | exact HP].
    + destruct (IH (say [Debug (DcMiss dc (min r) (max r) (instancesLength o))] st))
        as (es & Hes & HP).
      rewrite Hes. simpl.
      exists (Debug (DcMiss dc (min r) (max r) (instancesLength o)) :: es).
      split; [rewrite <- app_assoc; reflexivity|].
      constructor; [apply Hdebug | exact HP].
Qed.

(** The effects of the loop are the requests, the pauses, debug messages
    and what the callback does. *)
Lemma loop_trace {C : Type} (P : effect → Prop) (intendedScale : scaleObj)
  (opts : options C) (deploymentId : string) (timeout checkInterval start : Z)
  (script : list cycle) (st : state C) :
  (∀ m, P (Debug m)) → (∀ id, P (GetInstances id)) → (∀ n, P (Sleep n)) →
  (∀ f dc n c, onDCScaled opts = Some f → Forall P (f dc n c).2) →
  ∃ es, trace (loop intendedScale opts deploymentId timeout checkInterval start
                 script st).1 = trace st ++ es ∧ Forall P es.
Proof.
  intros Hdebug Hget Hsleep Hcb. revert st.
  induction script as [|c script IH]; intros st; simpl.
  - exists []. rewrite app_nil_r. split; [reflexivity | constructor].
  - destruct (timedOut timeout start (clock c)).
    { exists []. rewrite app_nil_r. split; [reflexivity | constructor]. }
    destruct (fetched c) as [data|e].
    2: { exists [GetInstances deploymentId]. split; [reflexivity|].
         constructor; [apply Hget | constructor]. }
    destruct (forDcs_trace P intendedScale opts data (intendedScaleDcs st)
                (say [GetInstances deploymentId] st) Hdebug Hcb) as (es & Hes & HP).
    simpl in Hes.
    assert (Hturn : ∃ es', trace (forDcs intendedScale opts data (intendedScaleDcs st)
                                    (say [GetInstances deploymentId] st)).1
                           = trace st ++ es' ∧ Forall P es').
    { exists (GetInstances deploymentId :: es). split.
      - rewrite Hes, <- app_assoc. reflexivity.
      - constructor; [apply Hget | exact HP]. }
    clear es Hes HP.
    destruct (forDcs _ _ _ _ _) as [st1 [e|]]; simpl in *; [exact Hturn|].
    case_bool_decide; [exact Hturn|].
    destruct Hturn as (es1 & Hes1 & HP1).
    destruct (IH (say [Sleep checkInterval] st1)) as (es2 & Hes2 & HP2).
    rewrite Hes2. simpl. rewrite Hes1.
    exists (es1 ++ Sleep checkInterval :: es2).
    split; [rewrite <- !app_assoc; reflexivity|].
    apply Forall_app. split; [exact HP1|]. constructor; [apply Hsleep | exact HP2].
Qed.

Lemma listeners_app (on : list string) (tr1 tr2 : list effect) :
  listeners on (tr1 ++ tr2) = listeners (listeners on tr1) tr2.
Proof. apply foldl_app. Qed.

Lemma listeners_quiet (on : list string) (es : list effect) :
  Forall (λ e, isProcessEffect e = false) es → listeners on es = on.
Proof.
  intros Hes. revert on. induction Hes as [|e es He _ IH]; intros on; [reflexivity|].
  change (listeners on (e :: es)) with (listeners (listeners on [e]) es).
  rewrite IH. destruct e; try reflexivity; discriminate.
Qed.

Lemma cancelVerifyWait_quiet (args : option (string * Z)) (remaining : StrSet) :
  Forall (λ e, isProcessEffect e = false) (cancelVerifyWait args remaining).2.
Proof.
  destruct args as [[dcId n]|]; simpl; repeat constructor.
Qed.

Lemma loop_not_Exited {C : Type} (intendedScale : scaleObj) (opts : options C)
  (deploymentId : string) (timeout checkInterval start : Z)
  (script : list cycle) (st : state C) (n : Z) :
  (loop intendedScale opts deploymentId timeout checkInterval start script st).2
  ≠ Exited n.
Proof.
  revert st. induction script as [|c script IH]; intros st; simpl; [discriminate|].
  destruct (timedOut timeout start (clock c)); [discriminate|].
  destruct (fetched c) as [data|e]; [|discriminate].
  destruct (forDcs _ _ _ _ _) as [st1 [e|]]; [discriminate|].
  case_bool_decide; [discriminate | apply IH].
Qed.

Lemma listeners_removed :
  listeners ["SIGTERM"; "SIGINT"; "exit"]
    [WaitStop; ProcessRemoveListener "SIGTERM"; ProcessRemoveListener "SIGINT";
     ProcessRemoveListener "exit"] = [].
Proof. vm_compute. reflexivity. Qed.

(** The verification leaves no listener behind unless it is still
    running. *)
Lemma verification_listeners (i : input) (a : argv) (d : deployment)
  (scaleArgs : scaleObj) (tr : list effect) :
  listeners [] tr = [] →
  post (verification i a d scaleArgs) tr
    (λ tr' r, r ≠ inr Pending → listeners [] tr' = []).
Proof.
  intros Hclean. unfold post, verification.
  cbv beta iota zeta delta [waitDcs onExit renderWait].
  set (opts := {| timeout := _; checkInterval := _; onDCScaled := _ |}).
  set (tr0 := tr ++ _ ++ _).
  assert (Hon : listeners [] tr0 = ["SIGTERM"; "SIGINT"; "exit"]).
  { unfold tr0. rewrite listeners_app, Hclean. reflexivity. }
  destruct (loop_trace (λ e, isProcessEffect e = false) scaleArgs opts (uid d)
              (default ms_2m (timeout opts)) (default 500 (checkInterval opts))
              (start i) (script i)
              {| intendedScaleDcs := Set_new (Object_keys scaleArgs);
                 closure := Set_new (Object_keys scaleArgs); trace := tr0 |})
    as (es & Hes & Hquiet);
    [ reflexivity | reflexivity | reflexivity
    | intros f dc n c' [= <-]; apply cancelVerifyWait_quiet |].
  pose proof (loop_not_Exited scaleArgs opts (uid d)
                (default ms_2m (timeout opts)) (default 500 (checkInterval opts))
                (start i) (script i)
                {| intendedScaleDcs := Set_new (Object_keys scaleArgs);
                   closure := Set_new (Object_keys scaleArgs); trace := tr0 |})
    as Hexit.
  unfold waitForScale.
  destruct (loop scaleArgs opts (uid d) _ _ (start i) (script i) _) as [st r].
  cbn [fst snd trace] in Hes, Hexit.
  assert (Hst : listeners [] (trace st) = ["SIGTERM"; "SIGINT"; "exit"]).
  { rewrite Hes, listeners_app, Hon. apply listeners_quiet, Hquiet. }
  destruct r as [|u|e|n]; cbn [fst snd]; intros Hr.
  - congruence.
  - rewrite listeners_app, Hst.
    change (listeners ["SIGTERM"; "SIGINT"; "exit"]
              ([WaitStop; ProcessRemoveListener "SIGTERM";
                ProcessRemoveListener "SIGINT"; ProcessRemoveListener "exit"]
               ++ [Success ScaleStateVerified; NowClose]) = []).
    rewrite listeners_app, listeners_removed. reflexivity.
  - rewrite listeners_app, Hst. apply listeners_removed.
  - destruct (Hexit n). reflexivity.
Qed.

(** One step through a computation of [main], in program order, down to
    the call of [verify]. *)
Ltac walk :=
  lazymatch goal with
  | |- post (mret _ ≫= _) _ _ => apply post_ret_bind
  | |- post (finish _ ≫= _) _ _ => apply post_finish_bind
  | |- post (perform _ ≫= _) _ _ => apply post_perform_bind
  | |- post ((_ ≫= _) ≫= _) _ _ => apply post_bind_assoc
  | |- post (match ?x with _ => _ end ≫= _) _ _ => destruct x eqn:?
  | |- post (mret _) _ _ => apply post_ret
  | |- post (finish _) _ _ => apply post_finish
  | |- post (match ?x with _ => _ end) _ _ => destruct x eqn:?
  end.

Lemma main_listeners (i : input) :
  post (main i) [] (λ tr r, r ≠ inr Pending → listeners [] tr = []).
Proof.
  unfold main, legacyArguments, numericArguments, return_, throw.
  repeat walk.
  all: lazymatch goal with
       | |- post (verify _ _ _ _ _ _ _) _ _ =>
           unfold verify, return_; repeat walk; [intros _; reflexivity|];
           apply verification_listeners; reflexivity
       | |- _ => intros _; reflexivity
       end.
Qed.

(** X6. Whenever a run of the scale command has ended, by a return or by an
    exception, no handler of it is left registered on the process: the
    listeners that [onExit] adds for the verification are removed again on
    every way out of it. *)
Theorem main_leaves_no_listener (i : input) (tr : list effect) (c : completion Z) :
  run i = (tr, c) →
  c ≠ Pending →
  listeners [] tr = [].
Proof.
  intros Hrun Hc. pose proof (main_listeners i) as Hpost.
  unfold post in Hpost. unfold run in Hrun.
  destruct (main i []) as [tr0 [code|c0]]; simplify_eq/=;
    apply Hpost; congruence.
Qed.

Lemma main_leaves_no_listener_witness :
  let data : snapshot := {[ "sfo1" := {| instances := ["i1"] |} ]} in
  let i :=
    {| parsed := Ok {| help := false; noVerify := false; verifyTimeout := None;
                       positional := ["my-app.now.sh"; "sfo1"; "1"] |};
       ms := λ _, None;
       normalizeRegionsList := λ l, Ok l;
       credentials := [("sh", "token")];
       found := Ok {| uid := "dpl_1"; url := "my-app.now.sh"; type := "NPM";
                      state_ := "READY" |};
       patched := Ok ();
       start := 0;
       script := [{| clock := 1; fetched := FetchOk ∅ |};
                  {| clock := 502; fetched := FetchOk data |}] |} in
  (run i).2 = Returned 0 ∧
  existsb isProcessEffect (run i).1 = true ∧
  listeners [] (run i).1 = [].
Proof.
  intros data i.
  split; [reflexivity|]. split.
  - reflexivity.
  - apply (main_leaves_no_listener i (run i).1 (run i).2).
    + reflexivity.
    + vm_compute. discriminate.
Defined.

(** The scale rules are sent only after all checks on the deployment. *)
Lemma main_patch_checked (i : input) :
  post (main i) []
    (λ tr r, existsb isPatchInstances tr = true →
             ∃ a d, parsed i = Ok a ∧ found i = Ok d ∧
                    type d ≠ "STATIC" ∧ state_ d ≠ "ERROR" ∧
                    is_Some (list_find (λ item, item.1 = "sh") (credentials i)) ∧
                    (2 ≤ length (positional a) ≤ 4)%nat).
Proof.
  unfold main, legacyArguments, numericArguments, return_, throw.
  repeat walk.
  all: try (unfold post).
  all: first
    [ intros H; discriminate H
    | intros _;
      repeat match goal with
             | H : bool_decide _ = false |- _ => apply bool_decide_eq_false in H
             end;
      eexists _, _;
      split; [reflexivity|]; split; [reflexivity|];
      split; [assumption|]; split; [assumption|];
      split; [eexists; reflexivity | lia] ].
Qed.

(** X7. The scale command sends scale rules to the platform only for a
    deployment it has found and that is neither static nor in the ERROR
    state, with credentials at hand and two to four arguments given; every
    run that fails one of these ends without a PATCH request. *)
Theorem main_patches_only_checked_deployments (i : input) (tr : list effect)
  (c : completion Z) (deploymentId : string) (scaleArgs : scaleObj) :
  run i = (tr, c) →
  PatchInstances deploymentId scaleArgs ∈ tr →
  ∃ a d, parsed i = Ok a ∧ found i = Ok d ∧
         type d ≠ "STATIC" ∧ state_ d ≠ "ERROR" ∧
         is_Some (list_find (λ item, item.1 = "sh") (credentials i)) ∧
         (2 ≤ length (positional a) ≤ 4)%nat.
Proof.
  intros Hrun Hin. pose proof (main_patch_checked i) as Hpost.
  unfold post in Hpost. apply Hpost.
  apply existsb_exists. exists (PatchInstances deploymentId scaleArgs).
  split; [|reflexivity]. apply list_elem_of_In.
  unfold run in Hrun.
  destruct (main i []) as [tr0 [code|c0]]; simplify_eq/=; exact Hin.
Qed.

Lemma main_patches_only_checked_deployments_witness :
  let data : snapshot := {[ "sfo1" := {| instances := ["i1"] |} ]} in
  let i :=
    {| parsed := Ok {| help := false; noVerify := false; verifyTimeout := None;
                       positional := ["my-app.now.sh"; "sfo1"; "1"] |};
       ms := λ _, None;
       normalizeRegionsList := λ l, Ok l;
       credentials := [("sh", "token")];
       found := Ok {| uid := "dpl_1"; url := "my-app.now.sh"; type := "NPM";
                      state_ := "READY" |};
       patched := Ok ();
       start := 0;
       script := [{| clock := 1; fetched := FetchOk data |}] |} in
  let scaleArgs := [("sfo1", {| min := Num 1; max := Num 1 |})] in
  PatchInstances "dpl_1" scaleArgs ∈ (run i).1 ∧
  ∃ a d, parsed i = Ok a ∧ found i = Ok d ∧
         type d ≠ "STATIC" ∧ state_ d ≠ "ERROR" ∧
         is_Some (list_find (λ item, item.1 = "sh") (credentials i)) ∧
         (2 ≤ length (positional a) ≤ 4)%nat.
Proof.
  intros data i scaleArgs.
  assert (Hin : PatchInstances "dpl_1" scaleArgs ∈ (run i).1).
  { vm_compute. repeat constructor. }
  split; [exact Hin|].
  apply (main_patches_only_checked_deployments i (run i).1 (run i).2 "dpl_1" scaleArgs);
    [reflexivity | exact Hin].
Defined.

End ScaleRuns.

(** ** The two forms of the scale command's arguments *)

Section ArgumentForms.

Import Scale Notions Facts.

Lemma isNumeric_not_auto (v : string) : isNumeric v = true → v ≠ "auto".
Proof. intros Hv ->. discriminate Hv. Qed.

Lemma toMin_numeric (v : string) : isNumeric v = true → toMin v = Num (Number v).
Proof.
  intros Hv. unfold toMin. destruct (decide (v = "auto")) as [->|_]; [discriminate Hv | reflexivity].
Qed.

Lemma isMinOrMaxArgument_numeric (v : string) :
  isNumeric v = true → isMinOrMaxArgument v = true.
Proof. intros Hv. unfold isMinOrMaxArgument. rewrite Hv. apply orb_true_r. Qed.

Lemma bind_ret_fun {A B} (x : A) (f : A → M B) : mret x ≫= f = f x.
Proof. reflexivity. Qed.

(** X8. The legacy form [now scale <url> <min> [max]] with a numeric
    [min] is the command for all dcs: it runs exactly as
    [now scale <url> all <min> [max]] does, effect by effect and with the
    same end, for every [max] that is numeric or "auto" and for no [max]. *)
Theorem legacy_form_scales_all_dcs (i : input) (a : argv) (url lo : string) :
  isNumeric lo = true →
  run (withPositional i a [url; lo]) = run (withPositional i a [url; "all"; lo]) ∧
  (∀ hi, isMinOrMaxArgument hi = true →
         run (withPositional i a [url; lo; hi])
         = run (withPositional i a [url; "all"; lo; hi])).
Proof.
  intros Hlo.
  pose proof (isMinOrMaxArgument_numeric lo Hlo) as Hlo'.
  pose proof (toMin_numeric lo Hlo) as Hmin.
  assert (Hall : isMinOrMaxArgument "all" = false) by reflexivity.
  split; [|intros hi Hhi]; unfold run; f_equal.
  - replace (main (withPositional i a [url; lo]) [])
      with (main (withPositional i a [url; "all"; lo]) []); [reflexivity|].
    unfold main, withPositional.
    cbn [parsed ms normalizeRegionsList credentials found patched start script].
    rewrite !bind_ret_fun.
    unfold legacyArguments, numericArguments.
    cbn [positional help noVerify verifyTimeout
         lookup list_lookup default length from_option id].
    rewrite Hlo', Hall, Hmin.
    repeat (case_bool_decide; try (simpl in *; lia); try reflexivity).
  - replace (main (withPositional i a [url; lo; hi]) [])
      with (main (withPositional i a [url; "all"; lo; hi]) []); [reflexivity|].
    unfold main, withPositional.
    cbn [parsed ms normalizeRegionsList credentials found patched start script].
    rewrite !bind_ret_fun.
    unfold legacyArguments, numericArguments.
    cbn [positional help noVerify verifyTimeout
         lookup list_lookup default length from_option id].
    rewrite Hhi, Hlo', Hall.
    repeat (case_bool_decide; try (simpl in *; lia); try reflexivity).
Qed.

Lemma legacy_form_scales_all_dcs_witness :
  let i :=
    {| parsed := Raise (Error "unused");
       ms := λ _, None;
       normalizeRegionsList := λ l, Ok ["sfo1"; "bru1"];
       credentials := [("sh", "token")];
       found := Ok {| uid := "dpl_1"; url := "my-app.now.sh"; type := "NPM";
                      state_ := "READY" |};
       patched := Ok ();
       start := 0;
       script := [] |} in
  let a := {| help := false; noVerify := true; verifyTimeout := None;
              positional := [] |} in
  run (withPositional i a ["my-app.now.sh"; "3"])
  = run (withPositional i a ["my-app.now.sh"; "all"; "3"]) ∧
  run (withPositional i a ["my-app.now.sh"; "1"; "auto"])
  = run (withPositional i a ["my-app.now.sh"; "all"; "1"; "auto"]) ∧
  (run (withPositional i a ["my-app.now.sh"; "3"])).2 = Returned 0.
Proof.
  intros i a.
  destruct (legacy_form_scales_all_dcs i a "my-app.now.sh" "3" eq_refl) as [H3 _].
  destruct (legacy_form_scales_all_dcs i a "my-app.now.sh" "1" eq_refl) as [_ H1].
  split; [exact H3|]. split; [apply H1; reflexivity | reflexivity].
Defined.

End ArgumentForms.

(** ** Scale objects built region by region *)

Section ScaleObjects.

Import Scale Notions Facts.

Lemma Object_keys_set (o : scaleObj) (dc : string) (r : scaleRule) :
  Object_keys (set o dc r) = Set_add (Object_keys o) dc.
Proof.
  unfold Object_keys, Set_add, Set_has.
  induction o as [|[k r'] o IH]; [reflexivity|].
  cbn [set]. destruct (decide (k = dc)) as [->|Hne]; rewrite !fmap_cons; cbn [fst].
  - rewrite bool_decide_eq_true_2 by left. reflexivity.
  - rewrite IH. case_bool_decide as Hin.
    + rewrite bool_decide_eq_true_2 by (right; exact Hin). reflexivity.
    + rewrite bool_decide_eq_false_2; [reflexivity|].
      intros [Heq|Hin']%elem_of_cons; [congruence | exact (Hin Hin')].
Qed.

Lemma get_set (o : scaleObj) (dc dc' : string) (r : scaleRule) :
  get (set o dc r) dc' = if decide (dc = dc') then Some r else get o dc'.
Proof.
  induction o as [|[k r'] o IH]; simpl.
  - destruct (decide (dc = dc')); reflexivity.
  - destruct (decide (k = dc)) as [->|Hne]; simpl.
    + destruct (decide (dc = dc')); reflexivity.
    + rewrite IH. destruct (decide (k = dc')) as [->|]; [|reflexivity].
      destruct (decide (dc = dc')); [congruence | reflexivity].
Qed.

(** A scale object filled by one assignment for each dc of a list. *)
Lemma foldl_set (r : scaleRule) (dcIds : list string) (o : scaleObj) :
  let o' := foldl (λ scale dc, set scale dc r) o dcIds in
  Object_keys o' = foldl Set_add (Object_keys o) dcIds ∧
  ∀ dc, get o' dc = if bool_decide (dc ∈ dcIds) then Some r else get o dc.
Proof.
  revert o. induction dcIds as [|d dcIds IH]; intros o; simpl.
  - split; [reflexivity|]. intros dc. reflexivity.
  - destruct (IH (set o d r)) as [Hkeys Hget]. split.
    + rewrite Hkeys, Object_keys_set. reflexivity.
    + intros dc. rewrite Hget, get_set.
      destruct (decide (d = dc)) as [->|Hne].
      * rewrite (bool_decide_eq_true_2 (dc ∈ dc :: dcIds)) by left.
        case_bool_decide; reflexivity.
      * case_bool_decide as Hin.
        -- rewrite bool_decide_eq_true_2 by (right; exact Hin). reflexivity.
        -- rewrite bool_decide_eq_false_2; [reflexivity|].
           intros [Heq|Hin']%elem_of_cons; [congruence | exact (Hin Hin')].
Qed.

(** X9. The scale rules that the scale command sends have one entry for
    each dc it was given, duplicates counted once and in the order of
    their first mention, and every entry is the same [{ min, max }]; a dc
    that was not given has none. *)
Theorem buildScaleArgs_lookup (dcIds : list string) (lo hi : scaleValue) :
  Object_keys (buildScaleArgs dcIds lo hi) = Set_new dcIds ∧
  NoDup (Object_keys (buildScaleArgs dcIds lo hi)) ∧
  ∀ dc, get (buildScaleArgs dcIds lo hi) dc
        = if bool_decide (dc ∈ dcIds) then Some {| min := lo; max := hi |} else None.
Proof.
  destruct (foldl_set {| min := lo; max := hi |} dcIds []) as [Hkeys Hget].
  split; [exact Hkeys|]. split; [|exact Hget].
  unfold buildScaleArgs. rewrite Hkeys. apply Set_new_NoDup.
Qed.

End ScaleObjects.

(** ** The deploy command's verification *)

Section DeployVerification.

Import Deploy Notions Facts.

Lemma matchMinPresets_reached (scale : scaleObj) (data : snapshot) (dc : string)
  (preset : scaleRule) :
  get scale dc = Some preset →
  matchMinPresets preset (data !! dc)
  = match data !! dc with
    | Some _ => Ok (reached scale data dc)
    | None => Raise (TypeError "Cannot read property 'instances' of undefined")
    end.
Proof.
  intros Hget. unfold matchMinPresets, reached. rewrite Hget.
  destruct (data !! dc); reflexivity.
Qed.

(** With every key in the snapshot, the reduction keeps the keys that
    reached their minimum, in order. *)
Lemma reduceKeys_present (scale : scaleObj) (data : snapshot)
  (keys acc : list string) :
  (∀ dc, dc ∈ keys → is_Some (get scale dc) ∧ is_Some (data !! dc)) →
  reduceKeys scale data matchMinPresets keys acc
  = Ok (acc ++ filter (λ dc, reached scale data dc = true) keys).
Proof.
  revert acc. induction keys as [|dc keys IH]; intros acc Hall; simpl.
  - rewrite app_nil_r. reflexivity.
  - destruct (Hall dc ltac:(left)) as [[preset Hp] [o Ho]].
    rewrite Hp, (matchMinPresets_reached scale data dc preset Hp), Ho.
    assert (Hrest : ∀ dc', dc' ∈ keys → is_Some (get scale dc') ∧ is_Some (data !! dc'))
      by (intros dc' Hdc'; apply Hall; right; exact Hdc').
    destruct (reached scale data dc) eqn:Hr.
    + rewrite IH by exact Hrest.
      rewrite filter_cons_True by exact Hr. rewrite <- app_assoc. reflexivity.
    + rewrite IH by exact Hrest.
      rewrite filter_cons_False by (rewrite Hr; discriminate). reflexivity.
Qed.

(** A key that is given back reached its minimum in the snapshot. *)
Lemma reduceKeys_found (scale : scaleObj) (data : snapshot)
  (keys acc found : list string) (dc : string) :
  reduceKeys scale data matchMinPresets keys acc = Ok found →
  dc ∈ found → dc ∈ acc ∨ reached scale data dc = true.
Proof.
  revert acc. induction keys as [|k keys IH]; intros acc; simpl.
  - intros [= <-] Hin. left. exact Hin.
  - destruct (get scale k) as [preset|] eqn:Hp; [|discriminate].
    rewrite (matchMinPresets_reached scale data k preset Hp).
    destruct (data !! k) as [o|] eqn:Ho; [|discriminate].
    destruct (reached scale data k) eqn:Hr; intros Hrun Hin.
    + destruct (IH _ Hrun Hin) as [Hacc|Hreached]; [|right; exact Hreached].
      apply elem_of_app in Hacc as [Hacc|Hk]; [left; exact Hacc|].
      apply list_elem_of_singleton in Hk as ->. right. exact Hr.
    + exact (IH _ Hrun Hin).
Qed.

(** The reduction throws at the first key that the snapshot does not
    have. *)
Lemma reduceKeys_missing (scale : scaleObj) (data : snapshot)
  (keys acc : list string) (dc : string) :
  (∀ k, k ∈ keys → is_Some (get scale k)) →
  dc ∈ keys → data !! dc = None →
  reduceKeys scale data matchMinPresets keys acc
  = Raise (TypeError "Cannot read property 'instances' of undefined").
Proof.
  intros Hrules Hin Hdc. revert acc.
  induction keys as [|k keys IH]; intros acc; [apply elem_of_nil in Hin; contradiction|].
  simpl. destruct (Hrules k ltac:(left)) as [preset Hp]. rewrite Hp.
  rewrite (matchMinPresets_reached scale data k preset Hp).
  destruct (data !! k) as [o|] eqn:Ho; [|reflexivity].
  assert (Hin' : dc ∈ keys).
  { apply elem_of_cons in Hin as [->|Hin]; [congruence | exact Hin]. }
  assert (Hrules' : ∀ k', k' ∈ keys → is_Some (get scale k'))
    by (intros k' Hk'; apply Hrules; right; exact Hk').
  destruct (reached scale data k); apply IH; assumption.
Qed.

Variable deploymentId : string.
Variable scale : scaleObj.
Variable start : Z.

Local Abbreviation loop := (loop deploymentId scale start).

Lemma deploy_loop_Returned_empty (script : list cycle) (st st' : state) :
  loop script st = (st', Returned ()) → remainingMatches st' = [].
Proof.
  revert st. induction script as [|c script IH]; intros st; simpl; [discriminate|].
  destruct (start + timeout <=? clock c); [discriminate|].
  destruct (fetched c) as [data|e]; [|discriminate].
  destruct (getMatchingScalePresets _ _ _) as [found|e]; [|discriminate].
  case_bool_decide; [|apply IH].
  case_bool_decide as Hsize; [|apply IH].
  intros [= <-]. simpl. apply nil_length_inv, Hsize.
Qed.

(** The loop returns only in a turn that has new matches. *)
Lemma deploy_loop_Returned_progress (script : list cycle) (st st' : state) :
  loop script st = (st', Returned ()) → remainingMatches st ≠ [].
Proof.
  revert st. induction script as [|c script IH]; intros st; simpl; [discriminate|].
  destruct (start + timeout <=? clock c); [discriminate|].
  destruct (fetched c) as [data|e]; [|discriminate].
  destruct (getMatchingScalePresets _ _ _) as [found|e]; [|discriminate].
  case_bool_decide as Hnew.
  - intros _ Hempty. rewrite Hempty in Hnew. apply Hnew. reflexivity.
  - intros Hrun Hempty. apply (IH _ Hrun). simpl. rewrite Hempty. reflexivity.
Qed.

Lemma deploy_loop_removed_reached (script : list cycle) (st : state) (dc : string) :
  dc ∈ remainingMatches st →
  dc ∉ remainingMatches (loop script st).1 →
  ∃ c data, c ∈ script ∧ clock c < start + timeout ∧
            fetched c = FetchOk data ∧ reached scale data dc = true.
Proof.
  revert st. induction script as [|c script IH]; intros st Hin Hout; simpl in Hout.
  - contradiction.
  - destruct (Z.leb_spec (start + timeout) (clock c)) as [|Hearly]; [contradiction|].
    destruct (fetched c) as [data|e] eqn:Hfetch; [|contradiction].
    destruct (getMatchingScalePresets scale data matchMinPresets) as [found|e] eqn:Hfound;
      [|contradiction].
    destruct (decide (dc ∈ Set_new found)) as [Hmatch|Hno].
    + exists c, data. split; [left|]. split; [exact Hearly|]. split; [exact Hfetch|].
      assert (Hmatch' : dc ∈ found) by (apply Set_new_elem_of; exact Hmatch).
      destruct (reduceKeys_found scale data _ [] found dc Hfound Hmatch') as [Hnil|Hr];
        [apply elem_of_nil in Hnil; contradiction | exact Hr].
    + assert (Hstill : dc ∈ filter (λ dc, ¬ Set_has (Set_new found) dc) (remainingMatches st)).
      { apply list_elem_of_filter. split; [|exact Hin].
        unfold Set_has. rewrite bool_decide_eq_false_2 by exact Hno. tauto. }
      assert (Hnext : ∀ st1, remainingMatches st1
                             = filter (λ dc, ¬ Set_has (Set_new found) dc) (remainingMatches st) →
                dc ∉ remainingMatches (loop script st1).1 →
                ∃ c0 data0, c0 ∈ c :: script ∧ clock c0 < start + timeout ∧
                            fetched c0 = FetchOk data0 ∧ reached scale data0 dc = true).
      { intros st1 Hst1 Hout1.
        destruct (IH st1) as (c' & data' & Hc' & Hrest); [rewrite Hst1; exact Hstill | exact Hout1 |].
        exists c', data'. split; [right; exact Hc' | exact Hrest]. }
      revert Hout. case_bool_decide.
      * case_bool_decide; simpl.
        -- intros Hout. contradiction.
        -- apply Hnext. reflexivity.
      * apply Hnext. reflexivity.
Qed.

Lemma deploy_loop_not_Exited (script : list cycle) (st : state) (n : Z) :
  (loop script st).2 ≠ Exited n.
Proof.
  revert st. induction script as [|c script IH]; intros st; simpl; [discriminate|].
  destruct (start + timeout <=? clock c); [discriminate|].
  destruct (fetched c) as [data|e]; [|discriminate].
  destruct (getMatchingScalePresets _ _ _) as [found|e]; [|discriminate].
  case_bool_decide; [|apply IH].
  case_bool_decide; [discriminate | apply IH].
Qed.

End DeployVerification.

Section DeployVerificationTheorems.

Import Deploy Notions Facts.

(** X10. [waitForScale] of the deploy command returns only after a poll
    cycle that brought a new match. For a scale object without regions
    there is never one, so the function never returns: it runs until the
    deadline or until a fetch fails. *)
Theorem deploy_waitForScale_empty_scale_never_returns (deploymentId : string)
  (scale : scaleObj) (start : Z) (script : list cycle) (tr : list effect) :
  Object_keys scale = [] →
  (waitForScale deploymentId scale start script tr).2 ≠ Returned ().
Proof.
  intros Hkeys Hret. unfold waitForScale in Hret.
  destruct (loop deploymentId scale start script _) as [st' r] eqn:Hrun.
  simpl in Hret. subst r.
  apply deploy_loop_Returned_progress in Hrun. apply Hrun.
  simpl. rewrite Hkeys. reflexivity.
Qed.

Lemma deploy_waitForScale_empty_scale_never_returns_witness :
  let script := [{| clock := 5; fetched := FetchOk ∅ |};
                 {| clock := 1010; fetched := FetchOk ∅ |};
                 {| clock := 120000; fetched := FetchOk ∅ |}] in
  (waitForScale "d" [] 0 script []).2 ≠ Returned () ∧
  (waitForScale "d" [] 0 script []).2
  = Threw (Error "Timeout while verifying instance count (10m)").
Proof.
  intros script. split; [|reflexivity].
  apply deploy_waitForScale_empty_scale_never_returns. reflexivity.
Defined.

(** X11. In the deploy command, a region of the scale object that is
    missing from the snapshot of any poll cycle before the deadline ends
    [waitForScale] in that very cycle with a [TypeError]: after the
    request nothing more is printed and no region is counted as verified
    in that cycle, so the set of regions waited for is the one the cycles
    before have left. It does not matter whether the missing region was
    itself counted as verified in an earlier cycle. *)
Theorem deploy_waitForScale_missing_region_throws (deploymentId : string)
  (scale : scaleObj) (start : Z) (before : list cycle) (c : cycle)
  (rest : list cycle) (tr : list effect) (st : state) (data : snapshot)
  (dc : string) :
  waitForScale deploymentId scale start before tr = (st, Pending) →
  clock c < start + timeout →
  fetched c = FetchOk data →
  dc ∈ Object_keys scale →
  data !! dc = None →
  waitForScale deploymentId scale start (before ++ c :: rest) tr
  = ({| remainingMatches := remainingMatches st;
        trace := trace st ++ [GetInstances deploymentId] |},
     Threw (TypeError "Cannot read property 'instances' of undefined")).
Proof.
  intros Hbefore Hearly Hfetch Hin Hdc. unfold waitForScale in *.
  rewrite deploy_loop_app, Hbefore. cbn [loop].
  destruct (Z.leb_spec (start + timeout) (clock c)); [lia|].
  rewrite Hfetch. unfold getMatchingScalePresets.
  rewrite (reduceKeys_missing scale data (Object_keys scale) [] dc);
    [|intros k Hk; apply get_is_Some, Hk | exact Hin | exact Hdc].
  reflexivity.
Qed.

Lemma deploy_waitForScale_missing_region_throws_witness :
  let rule := {| min := Num 0; max := Num 1 |} in
  let scale := [("sfo1", rule); ("bru1", rule)] in
  let first : snapshot := {[ "sfo1" := {| instances := ["i1"] |};
                             "bru1" := {| instances := [] |} ]} in
  let second : snapshot := {[ "bru1" := {| instances := ["i2"] |} ]} in
  waitForScale "d" scale 0
    [{| clock := 5; fetched := FetchOk first |};
     {| clock := 1010; fetched := FetchOk second |}] []
  = ({| remainingMatches := ["bru1"];
        trace := [WaitStart ["sfo1"; "bru1"]; GetInstances "d"; WaitStop;
                  LogVerified "sfo1" 1; WaitStart ["bru1"]; Sleep 1000;
                  GetInstances "d"] |},
     Threw (TypeError "Cannot read property 'instances' of undefined")).
Proof.
  intros rule scale first second.
  apply (deploy_waitForScale_missing_region_throws "d" scale 0
           [{| clock := 5; fetched := FetchOk first |}]
           {| clock := 1010; fetched := FetchOk second |} [] []
           {| remainingMatches := ["bru1"];
              trace := [WaitStart ["sfo1"; "bru1"]; GetInstances "d"; WaitStop;
                        LogVerified "sfo1" 1; WaitStart ["bru1"]; Sleep 1000] |}
           second "sfo1").
  - reflexivity.
  - vm_compute. reflexivity.
  - reflexivity.
  - apply (bool_decide_unpack _). vm_compute. exact I.
  - reflexivity.
Defined.

(** X12. When [waitForScale] of the deploy command returns, the scale
    object has at least one region, and every region of it was seen in a
    snapshot fetched before the deadline with at least [max(1, min)]
    instances. *)
Theorem deploy_waitForScale_returns_only_when_reached (deploymentId : string)
  (scale : scaleObj) (start : Z) (script : list cycle) (tr : list effect)
  (st : state) :
  waitForScale deploymentId scale start script tr = (st, Returned ()) →
  Object_keys scale ≠ [] ∧
  ∀ dc, dc ∈ Object_keys scale →
        ∃ c data, c ∈ script ∧ clock c < start + timeout ∧
                  fetched c = FetchOk data ∧ reached scale data dc = true.
Proof.
  intros Hrun. unfold waitForScale in Hrun. split.
  - intros Hkeys. apply deploy_loop_Returned_progress in Hrun. apply Hrun.
    simpl. rewrite Hkeys. reflexivity.
  - intros dc Hdc.
    apply (deploy_loop_removed_reached deploymentId scale start script
             {| remainingMatches := Set_new (Object_keys scale);
                trace := tr ++ renderRemainingDCsWait (Object_keys scale) |}).
    + simpl. apply Set_new_elem_of. exact Hdc.
    + rewrite Hrun. simpl.
      rewrite (deploy_loop_Returned_empty _ _ _ _ _ _ Hrun). apply not_elem_of_nil.
Qed.

Lemma deploy_waitForScale_returns_only_when_reached_witness :
  let rule := {| min := Num 0; max := Num 1 |} in
  let scale := [("sfo1", rule)] in
  let none : snapshot := {[ "sfo1" := {| instances := [] |} ]} in
  let one : snapshot := {[ "sfo1" := {| instances := ["i1"] |} ]} in
  let script := [{| clock := 5; fetched := FetchOk none |};
                 {| clock := 1010; fetched := FetchOk one |}] in
  ∃ c data, c ∈ script ∧ clock c < 0 + timeout ∧
            fetched c = FetchOk data ∧ reached scale data "sfo1" = true.
Proof.
  intros rule scale none one script.
  destruct (deploy_waitForScale_returns_only_when_reached "d" scale 0 script []
              {| remainingMatches := [];
                 trace := [WaitStart ["sfo1"]; GetInstances "d"; Sleep 1000;
                           GetInstances "d"; WaitStop; LogVerified "sfo1" 1] |})
    as [_ Hall].
  - reflexivity.
  - apply Hall. apply (bool_decide_unpack _). vm_compute. exact I.
Defined.

(** X13. Once the build events are through, [sync] never lets an error of
    the verification out: whatever [waitForScale] throws, a timeout, a
    rejected fetch or a [TypeError], ends the process with exit code 1
    after the message "Instance verification timed out (2m)"; the process
    ends with code 0 exactly when [waitForScale] returns. *)
Theorem sync_reports_every_verification_error_as_timeout (i : input)
  (c : consumer) :
  forAwait (events i) (after i) {| printed := []; taken := 0 |} = (c, Returned ()) →
  noVerify i = false →
  let w := waitForScale (deploymentId i) (scale i) (start i) (script i) (printed c) in
  (∀ e, (sync i).2 ≠ Threw e) ∧
  (∀ e, w.2 = Threw e →
        sync i = (trace w.1 ++ [Error_ "Instance verification timed out (2m)";
                                Log "Read more: https://err.sh/now-cli/verification-timeout"],
                  Exited 1)) ∧
  ((sync i).2 = Exited 0 ↔ w.2 = Returned ()).
Proof.
  intros Hloop Hverify w. unfold sync. rewrite Hloop, Hverify. fold w.
  pose proof (deploy_loop_not_Exited (deploymentId i) (scale i) (start i) (script i)) as Hexit.
  unfold w in *. unfold waitForScale in *.
  destruct (loop _ _ _ _ _) as [st [|u|e|n]] eqn:Hrun; simpl.
  - split; [discriminate|]. split; [discriminate|]. split; discriminate.
  - split; [discriminate|]. split; [discriminate|]. destruct u. split; reflexivity.
  - split; [discriminate|]. split; [intros e' _; reflexivity|]. split; discriminate.
  - exfalso. eapply Hexit. rewrite Hrun. reflexivity.
Qed.

Lemma sync_reports_every_verification_error_as_timeout_witness :
  let ready := {| type := "state-change";
                  payload_ := {| value := "READY"; text := "" |} |} in
  let i := {| noVerify := false; deploymentId := "d";
              scale := [("sfo1", {| min := Num 0; max := Num 1 |})];
              events := [ready]; after := Waiting; start := 0;
              script := [{| clock := 5;
                            fetched := FetchFailed (ApiError 502 "bad_gateway") |}] |} in
  sync i = ([Log "Build completed"; WaitStart ["sfo1"]; GetInstances "d";
             Error_ "Instance verification timed out (2m)";
             Log "Read more: https://err.sh/now-cli/verification-timeout"],
            Exited 1).
Proof.
  intros ready i.
  destruct (sync_reports_every_verification_error_as_timeout i
              {| printed := [Log "Build completed"]; taken := 1 |})
    as (_ & Hthrew & _); [reflexivity | reflexivity |].
  apply (Hthrew (ApiError 502 "bad_gateway")). reflexivity.
Defined.

(** X14. A sequence of build events that ends without a final state leaves
    the event loop of [sync] the way READY does, only without the line
    "Build completed": with [noVerify], [sync] prints the events and
    "Deployment ready" and ends the process with code 0. *)
Theorem sync_takes_end_of_events_as_ready (pre : list event) (deploymentId : string)
  (scale : scaleObj) (start : Z) (script : list cycle) :
  Forall (λ ev, isFinal ev = false) pre →
  sync {| noVerify := true; deploymentId := deploymentId; scale := scale;
          events := pre; after := Ended; start := start; script := script |}
  = (concat (display <$> pre) ++ [Success "Deployment ready"], Exited 0).
Proof.
  intros Hpre. unfold sync. cbn [events after noVerify].
  rewrite <- (app_nil_r pre) at 1.
  rewrite forAwait_display by exact Hpre. reflexivity.
Qed.

Lemma sync_takes_end_of_events_as_ready_witness :
  let ev t v x := {| type := t; payload_ := {| value := v; text := x |} |} in
  sync {| noVerify := true; deploymentId := "d"; scale := [];
          events := [ev "build-start" "" ""; ev "state-change" "BUILDING" ""];
          after := Ended; start := 0; script := [] |}
  = ([Log "Building…"; Success "Deployment ready"], Exited 0).
Proof.
  intros ev.
  apply (sync_takes_end_of_events_as_ready
           [ev "build-start" "" ""; ev "state-change" "BUILDING" ""] "d" [] 0 []).
  repeat (apply Forall_cons; split; [reflexivity|]). apply Forall_nil_2.
Defined.

End DeployVerificationTheorems.

(** ** The text of build events *)

Section BuildText.

Import Deploy Notions Facts.

Lemma dropFinalNewline_app (t : string) :
  dropFinalNewline (t +:+ String newline "") = t.
Proof.
  induction t as [|a t IH]; simpl.
  - destruct (decide (newline = newline)); [reflexivity | congruence].
  - destruct t as [|b t]; simpl in *.
    + destruct (decide (newline = newline)); [reflexivity | congruence].
    + rewrite IH. reflexivity.
Qed.

Lemma dropFinalNewline_id (t : string) :
  endsWith newline t = false → dropFinalNewline t = t.
Proof.
  induction t as [|a t IH]; simpl; [reflexivity|].
  destruct t as [|b t].
  - intros Ha. apply bool_decide_eq_false in Ha.
    destruct (decide (a = newline)); [contradiction | reflexivity].
  - intros Hends. rewrite IH by exact Hends. reflexivity.
Qed.

(** X15. [formatText] takes one newline off each end and no more: wrapped
    in a newline on both sides, any text comes back as it was, even when it
    starts or ends with newlines itself; and a text that neither starts
    nor ends with a newline is left unchanged. *)
Theorem formatText_strips_one_newline_each_side :
  (∀ t, formatText (String newline (t +:+ String newline "")) = t) ∧
  (∀ t, startsWith newline t = false → endsWith newline t = false →
        formatText t = t).
Proof.
  split.
  - intros t. unfold formatText.
    change (String newline (t +:+ String newline ""))
      with (String newline t +:+ String newline "").
    rewrite dropFinalNewline_app. simpl.
    destruct (decide (newline = newline)); [reflexivity | congruence].
  - intros t Hstart Hend. unfold formatText.
    rewrite dropFinalNewline_id by exact Hend.
    destruct t as [|a t]; [reflexivity|]. simpl in *.
    apply bool_decide_eq_false in Hstart.
    destruct (decide (a = newline)); [contradiction | reflexivity].
Qed.

Lemma formatText_strips_one_newline_each_side_witness :
  formatText "npm install" = "npm install".
Proof.
  destruct formatText_strips_one_newline_each_side as [_ Hid].
  apply Hid; reflexivity.
Defined.

Lemma split_cons (c : ascii) (s : string) : ∃ p ps, split c s = p :: ps.
Proof.
  destruct s as [|a s]; simpl; [eauto|].
  destruct (decide (a = c)); [eauto|]. destruct (split c s); eauto.
Qed.

Lemma split_join (c : ascii) (s : string) : join c (split c s) = s.
Proof.
  induction s as [|a s IH]; [reflexivity|]. simpl.
  destruct (split_cons c s) as (p & ps & Hsplit). rewrite Hsplit in *.
  destruct (decide (a = c)) as [->|Hne].
  - change (join c ("" :: p :: ps)) with ("" +:+ String c (join c (p :: ps))).
    rewrite IH. reflexivity.
  - destruct ps as [|q ps]; simpl in *; rewrite <- IH; reflexivity.
Qed.

Lemma split_length (c : ascii) (s : string) :
  length (split c s) = S (occurrences c s).
Proof.
  induction s as [|a s IH]; [reflexivity|]. simpl.
  destruct (decide (a = c)); simpl.
  - rewrite IH. reflexivity.
  - destruct (split c s); simpl in *; lia.
Qed.

Lemma split_pieces (c : ascii) (s : string) :
  Forall (λ p, contains c p = false) (split c s).
Proof.
  induction s as [|a s IH]; simpl; [repeat constructor|].
  destruct (decide (a = c)) as [->|Hne].
  - constructor; [reflexivity | exact IH].
  - destruct (split c s) as [|p ps]; [repeat constructor|].
    + simpl. rewrite bool_decide_eq_false_2 by exact Hne. reflexivity.
    + apply Forall_cons in IH as [Hp Hps]. constructor; [|exact Hps].
      simpl. rewrite bool_decide_eq_false_2 by exact Hne. exact Hp.
Qed.

Lemma dropPrompt_contains (c : ascii) (v : string) :
  contains c v = false → contains c (dropPrompt v) = false.
Proof.
  unfold dropPrompt. intros Hv.
  destruct v as [|a v]; [exact Hv|].
  destruct (decide (a = ">"%char)) as [->|Hne].
  - destruct v as [|b v]; [exact Hv|].
    destruct (decide (b = " "%char)) as [->|Hne'].
    + simpl in Hv. apply orb_false_elim in Hv as [_ Hv].
      apply orb_false_elim in Hv as [_ Hv]. exact Hv.
    + destruct b as [[] [] [] [] [] [] [] []]; first [exact Hv | congruence].
  - destruct a as [[] [] [] [] [] [] [] []]; first [exact Hv | congruence].
Qed.

(** X16. For a [stdout] or [stderr] event the consumer prints the text,
    after [formatText], line by line: the pieces between the newlines, each
    without a leading prompt [> ]; there is one line more than there are
    newlines, no printed line holds a newline, and the pieces joined by
    newlines are the formatted text. *)
Theorem display_prints_output_line_by_line (ev : event) :
  type ev = "stdout" ∨ type ev = "stderr" →
  ∃ pieces,
    display ev = (λ v, Log (dropPrompt v)) <$> pieces ∧
    join newline pieces = formatText (text (payload_ ev)) ∧
    length pieces = S (occurrences newline (formatText (text (payload_ ev)))) ∧
    Forall (λ v, contains newline (dropPrompt v) = false) pieces.
Proof.
  intros Htype. exists (split newline (formatText (text (payload_ ev)))).
  split; [|split; [apply split_join | split; [apply split_length|]]].
  - unfold display. destruct Htype as [-> | ->]; reflexivity.
  - eapply Forall_impl; [apply split_pieces|].
    intros v Hv. apply dropPrompt_contains, Hv.
Qed.

Lemma display_prints_output_line_by_line_witness :
  let text := String newline ("> build" +:+ String newline "done") in
  display {| type := "stdout"; payload_ := {| value := ""; text := text |} |}
  = [Log "build"; Log "done"].
Proof.
  intros text.
  destruct (display_prints_output_line_by_line
              {| type := "stdout"; payload_ := {| value := ""; text := text |} |})
    as (pieces & Hdisplay & _); [left; reflexivity|].
  reflexivity.
Defined.

End BuildText.

(** ** The environment of a deployment *)

Section Environment.

Import DeployOptions Facts.

Lemma getProp_None {V} (o : list (string * V)) (k : string) :
  k ∉ o.*1 → getProp o k = None.
Proof.
  induction o as [|[k0 v0] o IH]; intros Hk; [reflexivity|]. simpl.
  rewrite fmap_cons in Hk. apply not_elem_of_cons in Hk as [Hne Hk]. simpl in Hne.
  destruct (decide (k0 = k)); [congruence | exact (IH Hk)].
Qed.

Lemma getProp_is_Some {V} (o : list (string * V)) (k : string) :
  is_Some (getProp o k) → k ∈ o.*1.
Proof.
  induction o as [|[k0 v0] o IH]; simpl; [intros [v Hv]; discriminate|].
  destruct (decide (k0 = k)) as [->|Hne]; [intros _; left|].
  intros Hsome. right. exact (IH Hsome).
Qed.

Lemma getProp_replaceProp {V} (o : list (string * V)) (k k' : string) (v : V) :
  k ∈ o.*1 →
  getProp (replaceProp o k v) k' = if decide (k = k') then Some v else getProp o k'.
Proof.
  induction o as [|[k0 v0] o IH]; intros Hin; [apply elem_of_nil in Hin; contradiction|].
  rewrite fmap_cons in Hin. cbn [fst] in Hin. cbn [replaceProp getProp].
  destruct (decide (k0 = k)) as [->|Hne]; cbn [getProp].
  - destruct (decide (k = k')); reflexivity.
  - apply elem_of_cons in Hin as [Heq|Hin]; [congruence|].
    rewrite (IH Hin). destruct (decide (k0 = k')) as [->|]; [|reflexivity].
    destruct (decide (k = k')); [congruence | reflexivity].
Qed.

Lemma replaceProp_keys {V} (o : list (string * V)) (k : string) (v : V) :
  (replaceProp o k v).*1 = o.*1.
Proof.
  induction o as [|[k0 v0] o IH]; [reflexivity|]. cbn [replaceProp].
  destruct (decide (k0 = k)); rewrite !fmap_cons; [reflexivity|].
  rewrite IH. reflexivity.
Qed.

Lemma getProp_createProp {V} (o : list (string * V)) (k k' : string) (v : V) :
  k ∉ o.*1 →
  getProp (createProp o k v) k' = if decide (k = k') then Some v else getProp o k'.
Proof.
  induction o as [|[k0 v0] o IH]; intros Hout; [reflexivity|].
  rewrite fmap_cons in Hout. cbn [fst] in Hout.
  apply not_elem_of_cons in Hout as [Hne Hout]. cbn [createProp].
  destruct (precedes k k0); [reflexivity|]. cbn [getProp]. rewrite (IH Hout).
  destruct (decide (k0 = k')) as [->|]; [|reflexivity].
  destruct (decide (k = k')); [congruence | reflexivity].
Qed.

Lemma createProp_elem {V} (o : list (string * V)) (k : string) (v : V) (x : string) :
  x ∈ (createProp o k v).*1 ↔ x = k ∨ x ∈ o.*1.
Proof.
  induction o as [|[k0 v0] o IH].
  - simpl. rewrite list_elem_of_singleton, elem_of_nil. tauto.
  - cbn [createProp]. destruct (precedes k k0).
    + rewrite fmap_cons. cbn [fst]. rewrite elem_of_cons. tauto.
    + rewrite !fmap_cons. cbn [fst]. rewrite !elem_of_cons, IH. tauto.
Qed.

Lemma createProp_NoDup {V} (o : list (string * V)) (k : string) (v : V) :
  NoDup o.*1 → k ∉ o.*1 → NoDup (createProp o k v).*1.
Proof.
  induction o as [|[k0 v0] o IH]; intros Hnd Hout; [apply NoDup_singleton|].
  cbn [createProp]. destruct (precedes k k0).
  - rewrite fmap_cons. cbn [fst]. apply NoDup_cons. split; assumption.
  - rewrite fmap_cons in Hnd, Hout. cbn [fst] in Hnd, Hout.
    apply NoDup_cons in Hnd as [Hk0 Hnd].
    apply not_elem_of_cons in Hout as [Hne Hout].
    rewrite fmap_cons. cbn [fst]. apply NoDup_cons. split; [|exact (IH Hnd Hout)].
    rewrite createProp_elem. intros [Heq|Hin0]; [congruence | exact (Hk0 Hin0)].
Qed.

(** Apart from [__proto__], an assignment is read back and leaves the other
    properties alone. *)
Lemma getProp_setProp (o : object) (k k' : string) (v : envValue) :
  k' ≠ "__proto__" →
  getProp (own (setProp o k v)) k'
  = if decide (k = k') then Some v else getProp (own o) k'.
Proof.
  intros Hk'. unfold setProp. case_bool_decide as Hown; cbn [own].
  - apply getProp_replaceProp, Hown.
  - destruct (bool_decide (k = "__proto__") && negb (protoNull o)) eqn:Hsetter.
    + apply andb_prop in Hsetter as [Hk _]. apply bool_decide_eq_true in Hk.
      destruct (decide (k = k')); [congruence|]. destruct v; reflexivity.
    + apply getProp_createProp, Hown.
Qed.

Lemma setProp_NoDup (o : object) (k : string) (v : envValue) :
  NoDup (own o).*1 → NoDup (own (setProp o k v)).*1.
Proof.
  intros Hnd. unfold setProp. case_bool_decide as Hown; cbn [own].
  - rewrite replaceProp_keys. exact Hnd.
  - destruct (bool_decide (k = "__proto__") && negb (protoNull o)).
    + destruct v; exact Hnd.
    + apply createProp_NoDup; assumption.
Qed.

(** For every key but [__proto__], a property of the target keeps its
    value unless the source has it. *)
Lemma getProp_Object_assign (target : object) (source : envObj) (k : string) :
  k ≠ "__proto__" →
  NoDup source.*1 →
  getProp (own (Object_assign target source)) k
  = match getProp source k with
    | Some v => Some v
    | None => getProp (own target) k
    end.
Proof.
  intros Hk. unfold Object_assign. revert target.
  induction source as [|[k0 v0] source IH]; intros target Hnd; [reflexivity|].
  rewrite fmap_cons in Hnd. apply NoDup_cons in Hnd as [Hk0 Hnd].
  cbn [foldl fst snd getProp]. rewrite IH by exact Hnd.
  rewrite getProp_setProp by exact Hk.
  destruct (decide (k0 = k)) as [->|Hne]; [|reflexivity].
  rewrite (getProp_None source k Hk0). reflexivity.
Qed.

Lemma addEntry_NoDup (empty : envValue) (l : list string) (o : object) :
  NoDup (own o).*1 → NoDup (own (foldl (addEntry empty) o l)).*1.
Proof.
  revert o. induction l as [|e l IH]; intros o Hnd; [exact Hnd|].
  simpl. apply IH. unfold addEntry.
  destruct (indexOf "=" e); apply setProp_NoDup, Hnd.
Qed.

(** With a prototype and a value that is not [null], no assignment makes
    [__proto__] an own property. *)
Lemma setProp_proto (o : object) (k : string) (v : envValue) :
  v ≠ Null →
  protoNull o = false → "__proto__" ∉ (own o).*1 →
  protoNull (setProp o k v) = false ∧ "__proto__" ∉ (own (setProp o k v)).*1.
Proof.
  intros Hv Hproto Hout. unfold setProp. case_bool_decide as Hown; cbn [own protoNull].
  - rewrite replaceProp_keys. split; assumption.
  - destruct (bool_decide (k = "__proto__") && negb (protoNull o)) eqn:Hsetter.
    + destruct v; first [contradiction | split; assumption].
    + cbn [own protoNull]. split; [exact Hproto|].
      rewrite Hproto, andb_true_r in Hsetter. apply bool_decide_eq_false in Hsetter.
      rewrite createProp_elem. intros [Heq|Hin]; [congruence | exact (Hout Hin)].
Qed.

Lemma addEntry_proto (l : list string) (o : object) :
  protoNull o = false → "__proto__" ∉ (own o).*1 →
  "__proto__" ∉ (own (foldl (addEntry Undefined) o l)).*1.
Proof.
  revert o. induction l as [|e l IH]; intros o Hproto Hout; [exact Hout|].
  simpl. unfold addEntry at 2.
  destruct (indexOf "=" e) as [equalsSign|].
  - destruct (setProp_proto o (substrTo equalsSign e)
                (Str (substrFrom (equalsSign + 1) e))) as [Hp Ho];
      [discriminate | exact Hproto | exact Hout |]. exact (IH _ Hp Ho).
  - destruct (setProp_proto o e Undefined) as [Hp Ho];
      [discriminate | exact Hproto | exact Hout |]. exact (IH _ Hp Ho).
Qed.

Lemma indexOf_key (c : ascii) (key rest : string) :
  contains c key = false →
  indexOf c (key +:+ String c rest) = Some (String.length key).
Proof.
  induction key as [|a key IH]; simpl; intros Hkey.
  - destruct (decide (c = c)); [reflexivity | congruence].
  - apply orb_false_elim in Hkey as [Ha Hkey]. apply bool_decide_eq_false in Ha.
    destruct (decide (a = c)); [contradiction|]. rewrite (IH Hkey). reflexivity.
Qed.

Lemma indexOf_none (c : ascii) (key : string) :
  contains c key = false → indexOf c key = None.
Proof.
  induction key as [|a key IH]; simpl; intros Hkey; [reflexivity|].
  apply orb_false_elim in Hkey as [Ha Hkey]. apply bool_decide_eq_false in Ha.
  destruct (decide (a = c)); [contradiction|]. rewrite (IH Hkey). reflexivity.
Qed.

Lemma substrTo_key (key rest : string) :
  substrTo (String.length key) (key +:+ rest) = key.
Proof.
  induction key as [|a key IH]; simpl; [destruct rest; reflexivity|].
  rewrite IH. reflexivity.
Qed.

Lemma substrFrom_value (key rest : string) (c : ascii) :
  substrFrom (String.length key + 1) (key +:+ String c rest) = rest.
Proof.
  induction key as [|a key IH]; simpl; [destruct rest; reflexivity | exact IH].
Qed.

(** X17. [parseEnv] reads an entry [KEY=value] of an [--env] list by
    splitting it at its first equals sign, so the value may hold equals
    signs itself and comes back unchanged; an entry without an equals sign
    gets the [empty] value; and of several entries for one key the last
    one counts. This holds for every key but [__proto__]: an entry for
    that key does not become a property, and with the [empty] value
    [undefined] of [--env] no list of entries gives the result a property
    [__proto__]. *)
Theorem parseEnv_reads_last_entry (l : list string) (key value : string)
  (empty : envValue) :
  contains "=" key = false →
  key ≠ "__proto__" →
  getProp (parseEnv (ManyEnv (l ++ [key +:+ String "=" value])) empty) key
  = Some (Str value) ∧
  getProp (parseEnv (ManyEnv (l ++ [key])) empty) key = Some empty ∧
  getProp (parseEnv (ManyEnv (l ++ ["__proto__=" +:+ value])) Undefined) "__proto__"
  = None.
Proof.
  intros Hkey Hproto. unfold parseEnv. split; [|split].
  - rewrite foldl_app. cbn [foldl]. unfold addEntry at 1.
    rewrite (indexOf_key "=" key value Hkey).
    rewrite substrTo_key, substrFrom_value, getProp_setProp by exact Hproto.
    destruct (decide (key = key)); [reflexivity | congruence].
  - rewrite foldl_app. cbn [foldl]. unfold addEntry at 1.
    rewrite (indexOf_none "=" key Hkey).
    rewrite getProp_setProp by exact Hproto.
    destruct (decide (key = key)); [reflexivity | congruence].
  - apply getProp_None, addEntry_proto; [reflexivity | apply not_elem_of_nil].
Qed.

Lemma parseEnv_reads_last_entry_witness :
  getProp (parseEnv (ManyEnv ["URL=http://a"; "URL=http://b?x=1"]) Undefined) "URL"
  = Some (Str "http://b?x=1") ∧
  getProp (parseEnv (ManyEnv ["URL=http://a"; "__proto__=http://b?x=1"]) Undefined)
    "__proto__" = None.
Proof.
  destruct (parseEnv_reads_last_entry ["URL=http://a"] "URL" "http://b?x=1" Undefined)
    as (Hvalue & _ & Hnone); [reflexivity | discriminate |].
  split; [exact Hvalue | exact Hnone].
Defined.

(** The env objects that [parseEnv] builds have each key once; an object
    that is passed in is taken as it is. *)
Lemma parseEnv_NoDup (env : envArg) (empty : envValue) :
  (∀ o, env = EnvObject o → NoDup o.*1) → NoDup (parseEnv env empty).*1.
Proof.
  intros Hobj. destruct env as [|e|l|o]; simpl.
  - apply NoDup_nil_2.
  - destruct e; [apply NoDup_nil_2|].
    apply (addEntry_NoDup empty [_] emptyObject), NoDup_nil_2.
  - apply addEntry_NoDup, NoDup_nil_2.
  - apply Hobj. reflexivity.
Qed.

(** Why X18 leaves [__proto__] out: a string under that key in the [env]
    object of now.json does not reach the merged env. *)
Lemma mergeEnv_drops_proto_key :
  getProp (parseEnv (EnvObject [("__proto__", Str "x")]) Null) "__proto__"
  = Some (Str "x") ∧
  getProp (mergeEnv None (EnvObject [("__proto__", Str "x")]) NoEnv) "__proto__"
  = None.
Proof. split; reflexivity. Qed.

(** X18. In the merged env of a deployment an [--env] argument wins over
    the [env] of now.json, which wins over the dotenv file: a key has the
    value of the first of the three, in that order, that has the key. An
    [--env KEY] without a value counts as having the key, with the value
    [undefined]. The key [__proto__] is apart: [Object.assign] writes it
    through the inherited setter, which keeps no string. *)
Theorem mergeEnv_precedence (dotenvConfig : option envObj)
  (nowConfigEnv argvEnv : envArg) (key : string) :
  (∀ o, dotenvConfig = Some o → NoDup o.*1) →
  (∀ o, nowConfigEnv = EnvObject o → NoDup o.*1) →
  (∀ o, argvEnv = EnvObject o → NoDup o.*1) →
  key ≠ "__proto__" →
  getProp (mergeEnv dotenvConfig nowConfigEnv argvEnv) key
  = match getProp (parseEnv argvEnv Undefined) key with
    | Some v => Some v
    | None =>
        match getProp (parseEnv nowConfigEnv Null) key with
        | Some v => Some v
        | None => getProp (default [] dotenvConfig) key
        end
    end.
Proof.
  intros Hdot Hnow Hargv Hkey. unfold mergeEnv.
  rewrite getProp_Object_assign by (first [exact Hkey | apply parseEnv_NoDup, Hargv]).
  rewrite getProp_Object_assign by (first [exact Hkey | apply parseEnv_NoDup, Hnow]).
  rewrite getProp_Object_assign.
  - destruct (getProp (default [] dotenvConfig) key); reflexivity.
  - exact Hkey.
  - destruct dotenvConfig as [o|]; [apply Hdot; reflexivity | apply NoDup_nil_2].
Qed.

Lemma mergeEnv_precedence_witness :
  getProp (mergeEnv (Some [("TOKEN", Str "from-dotenv"); ("MODE", Str "dev")])
             (ManyEnv ["TOKEN=from-now-json"; "MODE=prod"])
             (ManyEnv ["TOKEN"])) "TOKEN"
  = Some Undefined.
Proof.
  rewrite (mergeEnv_precedence (Some [("TOKEN", Str "from-dotenv"); ("MODE", Str "dev")])
             (ManyEnv ["TOKEN=from-now-json"; "MODE=prod"]) (ManyEnv ["TOKEN"]) "TOKEN").
  - reflexivity.
  - intros o [= <-]. apply (bool_decide_unpack _). vm_compute. exact I.
  - intros o Ho. discriminate Ho.
  - intros o Ho. discriminate Ho.
  - discriminate.
Defined.

End Environment.

(** ** The keys and values of the environment *)

Section EnvironmentEntries.

Import DeployOptions Facts.

Lemma matchesNegatedClass_spec (a : ascii) :
  matchesNegatedClass a = negb (digitOrAtoz a).
Proof. destruct a as [[] [] [] [] [] [] [] []]; vm_compute; reflexivity. Qed.

(** X19. The test of an env key, [/[^A-z0-9_]/i], lets exactly the keys
    pass whose characters are all digits or lie between [A] and [z] in
    ASCII. That range holds the letters, the underscore, and also the
    characters [[], [\], []], [^] and the backquote. *)
Theorem testInvalid_spec (key : string) :
  testInvalid key = negb (allChars digitOrAtoz key) ∧
  (allChars (λ a, isDigit a || bool_decide (a = "_"%char)
                  || (65 <=? nat_of_ascii a)%nat && (nat_of_ascii a <=? 90)%nat
                  || (97 <=? nat_of_ascii a)%nat && (nat_of_ascii a <=? 122)%nat) key = true →
   testInvalid key = false) ∧
  testInvalid (String "[" (String "\" (String "]" (String "^" (String "`" key)))))
  = testInvalid key.
Proof.
  assert (Hspec : ∀ k, testInvalid k = negb (allChars digitOrAtoz k)).
  { induction k as [|a k IH]; [reflexivity|]. simpl.
    rewrite IH, matchesNegatedClass_spec, negb_andb. reflexivity. }
  split; [apply Hspec|]. split; [|reflexivity].
  intros Hall. rewrite Hspec. apply negb_false_iff.
  induction key as [|a key IH]; [reflexivity|]. simpl in *.
  apply andb_prop in Hall as [Ha Hall]. rewrite (IH Hall), andb_true_r.
  clear -Ha. destruct a as [[] [] [] [] [] [] [] []]; vm_compute in *; congruence.
Qed.

Lemma testInvalid_spec_witness : testInvalid "API_KEY_2" = false.
Proof.
  destruct (testInvalid_spec "API_KEY_2") as (_ & Hletters & _).
  apply Hletters. reflexivity.
Defined.

(** X20. A key given without a value takes its value from the
    environment of the user as it is, also when that value starts with an
    at sign: it is never read as the reference to a secret. The one
    exception is a value that starts with a backslash and an at sign, which
    loses the backslash. *)
Theorem envEntry_inherits_value (processEnv : gmap string string)
  (secrets : list secret) (deploymentEnv : envObj) (key v : string) :
  key ≠ "" →
  testInvalid key = false →
  getProp deploymentEnv key = Some Undefined →
  processEnv !! key = Some v →
  ((∀ rest, v ≠ String "\" (String "@" rest)) →
   envEntry processEnv secrets deploymentEnv key
   = ([Log (ReadingFromEnv key)], Returned (key, Str v))) ∧
  (∀ rest, v = String "\" (String "@" rest) →
           envEntry processEnv secrets deploymentEnv key
           = ([Log (ReadingFromEnv key)], Returned (key, Str (String "@" rest)))).
Proof.
  intros Hkey Hvalid Hundef Henv. unfold envEntry.
  destruct (decide (key = "")); [contradiction|].
  rewrite Hvalid, Hundef, Henv. cbn [default from_option id].
  split.
  - intros Hplain. destruct v as [|a v]; [reflexivity|].
    destruct (decide (a = "@"%char)) as [->|Hat]; [reflexivity|].
    destruct (decide (a = "\"%char)) as [->|Hbs].
    + destruct v as [|b v]; [reflexivity|].
      destruct (decide (b = "@"%char)) as [->|Hat']; [destruct (Hplain v); reflexivity|].
      destruct b as [[] [] [] [] [] [] [] []]; first [reflexivity | congruence].
    + destruct a as [[] [] [] [] [] [] [] []]; first [reflexivity | congruence].
  - intros rest ->. reflexivity.
Qed.

Lemma envEntry_inherits_value_witness :
  envEntry {[ "HANDLE" := "@zeit" ]} [{| name := "zeit"; uid := "sec_1" |}]
    [("HANDLE", Undefined)] "HANDLE"
  = ([Log (ReadingFromEnv "HANDLE")], Returned ("HANDLE", Str "@zeit")).
Proof.
  destruct (envEntry_inherits_value {[ "HANDLE" := "@zeit" ]}
              [{| name := "zeit"; uid := "sec_1" |}]
              [("HANDLE", Undefined)] "HANDLE" "@zeit") as [Hplain _].
  - discriminate.
  - reflexivity.
  - reflexivity.
  - reflexivity.
  - apply Hplain. intros rest Hrest. discriminate Hrest.
Defined.

End EnvironmentEntries.

(** ** The paths and the regions of a deployment *)

Section PathsAndRegions.

Import DeployOptions Facts.

Lemma append_nil_r (s : string) : s +:+ "" = s.
Proof.
  induction s as [|a s IH]; [reflexivity|].
  change (String a s +:+ "") with (String a (s +:+ "")). rewrite IH. reflexivity.
Qed.

Lemma append_assoc (s t u : string) : (s +:+ t) +:+ u = s +:+ (t +:+ u).
Proof.
  induction s as [|a s IH]; [reflexivity|].
  change (String a ((s +:+ t) +:+ u) = String a (s +:+ (t +:+ u))).
  rewrite IH. reflexivity.
Qed.

(** The suffixes of [deployingList] from the position [k] on, for a list
    of [n] paths in all. *)
Lemma deployingList_from (render : string → string) (n k : nat) (l : list string) :
  n = (k + length l)%nat →
  foldr String.append ""
    (imap (λ index path,
             render path +:+
             (if bool_decide (1 < n)%nat && bool_decide (k + index ≠ n - 1)%nat
              then if bool_decide (k + index < n - 2)%nat then ", " else " and "
              else "")) l)
  = enumeration (render <$> l).
Proof.
  revert k. induction l as [|x l IH]; intros k Hn; [reflexivity|].
  rewrite imap_cons. cbn [foldr]. simpl in Hn.
  rewrite (imap_ext _ (λ index path,
             render path +:+
             (if bool_decide (1 < n)%nat && bool_decide (S k + index ≠ n - 1)%nat
              then if bool_decide (S k + index < n - 2)%nat then ", " else " and "
              else ""))).
  2: { intros i y _. simpl. replace (k + S i)%nat with (S (k + i)) by lia. reflexivity. }
  rewrite (IH (S k)) by lia.
  rewrite Nat.add_0_r, append_assoc.
  destruct l as [|y l].
  - simpl in Hn. rewrite (bool_decide_eq_false_2 (k ≠ n - 1)%nat) by lia.
    rewrite andb_false_r. simpl. rewrite append_nil_r. reflexivity.
  - rewrite (bool_decide_eq_true_2 (1 < n)%nat) by (simpl in Hn; lia).
    rewrite (bool_decide_eq_true_2 (k ≠ n - 1)%nat) by (simpl in Hn; lia).
    cbn [andb]. destruct l as [|z l].
    + rewrite (bool_decide_eq_false_2 (k < n - 2)%nat) by (simpl in Hn; lia).
      reflexivity.
    + rewrite (bool_decide_eq_true_2 (k < n - 2)%nat) by (simpl in Hn; lia).
      reflexivity.
Qed.

(** X21. The paths in the message [Deploying ... under ...] read as a
    sentence: one path alone, two joined by [ and ], more separated by
    commas with [ and ] before the last. *)
Theorem deployingList_enumerates (render : string → string) (paths : list string) :
  deployingList render paths = enumeration (render <$> paths).
Proof.
  unfold deployingList.
  rewrite <- (deployingList_from render (length paths) 0 paths) by reflexivity.
  reflexivity.
Qed.

(** X22. How the deploy command finds the paths to deploy: the words [sh]
    and [deploy] in front are dropped, so [now <paths>], [now deploy
    <paths>] and [now sh deploy <paths>] deploy the same paths when the
    first path is not one of these two words; and without a path it is the
    working directory. *)
Theorem commandPaths_drops_command_words (resolve : string → string)
  (cwd first : string) (rest : list string) :
  first ≠ "sh" → first ≠ "deploy" →
  commandPaths resolve cwd (first :: rest) = resolve <$> (first :: rest) ∧
  commandPaths resolve cwd ("deploy" :: first :: rest) = resolve <$> (first :: rest) ∧
  commandPaths resolve cwd ("sh" :: "deploy" :: first :: rest)
  = resolve <$> (first :: rest) ∧
  commandPaths resolve cwd [] = [cwd] ∧
  commandPaths resolve cwd ["sh"; "deploy"] = [cwd].
Proof.
  intros Hsh Hdeploy.
  assert (Hplain : commandPaths resolve cwd (first :: rest) = resolve <$> (first :: rest)).
  { unfold commandPaths.
    destruct (decide (first = "sh")) as [|_]; [contradiction|].
    destruct (decide (first = "deploy")) as [|_]; [contradiction|].
    destruct first as [|a first]; [reflexivity|].
    destruct a as [[] [] [] [] [] [] [] []]; try reflexivity.
    - destruct first as [|b first]; [reflexivity|].
      destruct b as [[] [] [] [] [] [] [] []]; try reflexivity.
      destruct first as [|c0 first]; [congruence | reflexivity].
    - destruct first as [|b first]; [reflexivity|].
      destruct b as [[] [] [] [] [] [] [] []]; try reflexivity.
      repeat (let x := fresh "x" in
              destruct first as [|x first]; [reflexivity|];
              destruct x as [[] [] [] [] [] [] [] []]; try reflexivity).
      destruct first as [|c0 first]; [congruence | reflexivity]. }
  repeat split; try reflexivity; exact Hplain.
Qed.

Lemma commandPaths_drops_command_words_witness :
  commandPaths (λ p, "/home/me/" +:+ p) "/home/me" ["sh"; "deploy"; "site"; "api"]
  = ["/home/me/site"; "/home/me/api"].
Proof.
  destruct (commandPaths_drops_command_words (λ p, "/home/me/" +:+ p) "/home/me"
              "site" ["api"]) as (_ & _ & Hsh & _); [discriminate | discriminate |].
  exact Hsh.
Defined.

(** The regions enabled on an empty scale object. *)
Lemma enableDcs_empty (dcIds : list string) :
  Object_keys (enableDcs [] dcIds) = Set_new dcIds ∧
  ∀ dc, get (enableDcs [] dcIds) dc
        = if bool_decide (dc ∈ dcIds)
          then Some {| min := Num 0; max := Num 1 |} else None.
Proof. exact (foldl_set {| min := Num 0; max := Num 1 |} dcIds []). Qed.

(** X23. The [--regions] option overrides now.json: when it is given and
    its regions normalise to [dcIds], the scale of the deployment is one
    rule [{ min: 0, max: 1 }] for each of these dcs and nothing else, and
    nothing is reported, whatever the [regions] and [scale] settings of
    now.json are (even a [scale] with an invalid key). *)
Theorem resolveScale_regions_option_overrides_config
  (isValidRegionOrDcId : string → bool)
  (normalizeRegionsList : list string → result (list string))
  (regions : list string) (config : option nowConfig) (dcIds : list string) :
  regions ≠ [] →
  normalizeRegionsList regions = Ok dcIds →
  ∃ scale,
    resolveScale isValidRegionOrDcId normalizeRegionsList regions config
    = ([], Returned scale) ∧
    Object_keys scale = Set_new dcIds ∧
    ∀ dc, get scale dc
          = if bool_decide (dc ∈ dcIds)
            then Some {| min := Num 0; max := Num 1 |} else None.
Proof.
  intros Hregions Hnormal. exists (enableDcs [] dcIds).
  split; [|apply enableDcs_empty].
  unfold resolveScale.
  rewrite (bool_decide_eq_true_2 (length regions ≠ 0%nat))
    by (destruct regions; [congruence | discriminate]).
  cbn [firstInvalidKey Object_keys fmap list_fmap list_find length].
  rewrite (bool_decide_eq_true_2 (length regions ≠ 0%nat))
    by (destruct regions; [congruence | discriminate]).
  unfold firstInvalidKey. simpl. rewrite Hnormal. reflexivity.
Qed.

Lemma resolveScale_regions_option_overrides_config_witness :
  let valid := λ key, bool_decide (key ∈ ["sfo1"; "bru1"]) in
  let normal := λ regions : list string,
    if bool_decide (regions = ["sfo"; "bru"]) then Ok ["sfo1"; "bru1"]
    else Raise (CodedError "INVALID_ID" "x") in
  let config := Some {| configRegions := Some ["all"];
                        configScale := Some [("nowhere", {| min := Num 1; max := Auto |})] |} in
  ∃ scale,
    resolveScale valid normal ["sfo"; "bru"] config = ([], Returned scale) ∧
    Object_keys scale = ["sfo1"; "bru1"] ∧
    ∀ dc, get scale dc
          = if bool_decide (dc ∈ ["sfo1"; "bru1"])
            then Some {| min := Num 0; max := Num 1 |} else None.
Proof.
  intros valid normal config.
  apply (resolveScale_regions_option_overrides_config valid normal ["sfo"; "bru"]
           config ["sfo1"; "bru1"]); [discriminate | reflexivity].
Defined.

(** X24. When the scale of a new deployment is settled without an exit or
    an error, nothing was reported and the scale is one of two things:
    with no region given anywhere, the [scale] of now.json (an empty
    object without one), all of whose keys are valid regions or dcs; with
    regions (of the option, else of now.json), one rule
    [{ min: 0, max: 1 }] for each normalised dc and nothing else. Regions
    and scale rules of now.json are never mixed. *)
Theorem resolveScale_returned_scale (isValidRegionOrDcId : string → bool)
  (normalizeRegionsList : list string → result (list string))
  (regions : list string) (config : option nowConfig)
  (tr : list effect) (scale : scaleObj) :
  resolveScale isValidRegionOrDcId normalizeRegionsList regions config
  = (tr, Returned scale) →
  tr = [] ∧
  let effective := if bool_decide (regions ≠ [])
                   then regions else default [] (config ≫= configRegions) in
  match effective with
  | [] => scale = default [] (config ≫= configScale) ∧
          ∀ key, key ∈ Object_keys scale → isValidRegionOrDcId key = true
  | _ => ∃ dcIds, normalizeRegionsList effective = Ok dcIds ∧
                  Object_keys scale = Set_new dcIds ∧
                  ∀ dc, get scale dc
                        = if bool_decide (dc ∈ dcIds)
                          then Some {| min := Num 0; max := Num 1 |} else None
  end.
Proof.
  unfold resolveScale.
  assert (Hlen : ∀ l : list string,
            bool_decide (length l ≠ 0%nat) = bool_decide (l ≠ [])).
  { intros [|x l]; reflexivity. }
  rewrite !Hlen.
  set (effective := if bool_decide (regions ≠ []) then regions
                    else default [] (config ≫= configRegions)).
  set (given := if bool_decide (regions ≠ []) then []
                else default [] (config ≫= configScale)).
  replace (if bool_decide (regions ≠ []) then (regions, [])
           else (default [] (config ≫= configRegions),
                 default [] (config ≫= configScale)))
    with (effective, given)
    by (unfold effective, given; destruct (bool_decide (regions ≠ [])); reflexivity).
  cbv beta iota. rewrite !Hlen.
  unfold firstInvalidKey.
  destruct (list_find _ (Object_keys given)) as [[i key]|] eqn:Hfind;
    [discriminate|]. cbn [fmap option_fmap option_map].
  apply list_find_None in Hfind.
  assert (Hvalid : ∀ key, key ∈ Object_keys given → isValidRegionOrDcId key = true).
  { intros key Hkey. rewrite Forall_forall in Hfind. specialize (Hfind key Hkey).
    destruct (isValidRegionOrDcId key); [reflexivity | exfalso; apply Hfind; reflexivity]. }
  case_bool_decide as Heff.
  - case_bool_decide as Hkeys; [discriminate|].
    assert (Hgiven : given = []).
    { destruct given; [reflexivity | discriminate Hkeys]. }
    destruct (normalizeRegionsList effective) as [dcIds|err] eqn:Hnormal.
    + intros [= <- <-]. split; [reflexivity|].
      destruct effective as [|r rs]; [congruence|].
      exists dcIds. split; [reflexivity|]. rewrite Hgiven. apply enableDcs_empty.
    + repeat case_bool_decide; discriminate.
  - intros [= <- <-]. split; [reflexivity|].
    rewrite Heff. split; [|exact Hvalid].
    unfold given, effective in *. case_bool_decide as Hregions; [|reflexivity].
    contradiction.
Qed.

Lemma resolveScale_returned_scale_witness :
  let valid := λ key, bool_decide (key ∈ ["sfo1"; "bru1"]) in
  let normal := λ regions : list string,
    if bool_decide (regions = ["all"]) then Ok ["sfo1"; "bru1"]
    else Raise (CodedError "INVALID_ID" "x") in
  let config := Some {| configRegions := Some ["all"]; configScale := None |} in
  ∃ scale dcIds,
    resolveScale valid normal [] config = ([], Returned scale) ∧
    normal ["all"] = Ok dcIds ∧ Object_keys scale = Set_new dcIds.
Proof.
  intros valid normal config.
  destruct (resolveScale_returned_scale valid normal [] config []
              [("sfo1", {| min := Num 0; max := Num 1 |});
               ("bru1", {| min := Num 0; max := Num 1 |})])
    as (_ & dcIds & Hnormal & Hkeys & _); [reflexivity|].
  eexists _, dcIds. split; [reflexivity|]. split; [exact Hnormal | exact Hkeys].
Defined.

End PathsAndRegions.

(** ** The inspect command *)

Section InspectCommand.

Import Inspect.

(** X25. The inspect command returns 0 in exactly these runs: the command
    line parses without [--help] and has one argument, the credentials of
    the provider are stored, the deployment is found, and either it is
    static or both the instances and the events were fetched. *)
Theorem inspect_succeeds_iff (i : input) :
  (main i).2 = Returned 0 ↔
  ∃ a id d, parsed i = Ok a ∧ help a = false ∧ positional a = [id] ∧
            is_Some (list_find (λ item, item.1 = "sh") (credentials i)) ∧
            found i = Ok d ∧
            (type d = STATIC ∨
             ∃ answer events, instancesAnswer i = Ok answer ∧
                              eventsAnswer i = Ok events).
Proof.
  split.
  - unfold main.
    destruct (parsed i) as [a|err] eqn:Hparsed; [|discriminate].
    destruct (help a) eqn:Hhelp; [discriminate|].
    case_bool_decide as Hlen; [discriminate|].
    destruct (positional a) as [|id [|id' rest]] eqn:Hpos;
      [discriminate Hlen | | discriminate Hlen].
    destruct (list_find _ (credentials i)) as [item|] eqn:Hcred; [|discriminate].
    destruct (found i) as [d|err] eqn:Hfound.
    + intros Hcode. exists a, id, d.
      repeat (split; [first [reflexivity | assumption | eexists; reflexivity]|]).
      case_bool_decide as Hstatic; [left; exact Hstatic | right].
      destruct (instancesAnswer i) as [answer|e];
        destruct (eventsAnswer i) as [[events|]|e']; simpl in Hcode;
        first [discriminate Hcode | eexists _, _; split; reflexivity].
    + repeat case_bool_decide; discriminate.
  - intros (a & id & d & Hparsed & Hhelp & Hpos & [item Hcred] & Hfound & Hcase).
    unfold main. rewrite Hparsed, Hhelp, Hpos. simpl. rewrite Hcred, Hfound.
    destruct Hcase as [Hstatic | (answer & events & Hanswer & Hevents)].
    + rewrite (bool_decide_eq_true_2 _ Hstatic). reflexivity.
    + rewrite Hanswer, Hevents. case_bool_decide; [reflexivity|].
      destruct events; reflexivity.
Qed.

(** X26. For a static deployment the instances are fetched but their
    answer is never looked at, and the events are not fetched at all: the
    run is the same whatever the two answers are. *)
Theorem inspect_static_ignores_answers (i : input) (d : deployment)
  (instances' : result (list (string * instancesObj)))
  (events' : result (option (list Event))) :
  found i = Ok d →
  type d = STATIC →
  main {| parsed := parsed i; credentials := credentials i; found := found i;
          instancesAnswer := instances'; eventsAnswer := events' |}
  = main i ∧
  ∀ uid, GetEvents uid ∉ (main i).1.
Proof.
  intros Hfound Hstatic. unfold main. cbn [parsed credentials found instancesAnswer eventsAnswer].
  rewrite Hfound, (bool_decide_eq_true_2 _ Hstatic).
  split; [reflexivity|].
  intros uid Hin.
  destruct (parsed i) as [a|err]; [|simpl in Hin].
  - destruct (help a); [simpl in Hin|].
    + repeat (apply elem_of_cons in Hin as [Hin|Hin]; [discriminate Hin|]).
      exact (proj1 (elem_of_nil _) Hin).
    + case_bool_decide; [simpl in Hin|].
      * repeat (apply elem_of_cons in Hin as [Hin|Hin]; [discriminate Hin|]).
        exact (proj1 (elem_of_nil _) Hin).
      * destruct (list_find _ (credentials i)); simpl in Hin.
        -- repeat (apply elem_of_cons in Hin as [Hin|Hin]; [discriminate Hin|]).
           exact (proj1 (elem_of_nil _) Hin).
        -- exact (proj1 (elem_of_nil _) Hin).
  - repeat (apply elem_of_cons in Hin as [Hin|Hin]; [discriminate Hin|]).
    exact (proj1 (elem_of_nil _) Hin).
Qed.

Lemma inspect_static_ignores_answers_witness :
  let d := {| uid := "dpl_1"; name := "site"; state := "READY"; type := "STATIC";
              url := "site.now.sh"; created_ := 0; scale := [] |} in
  let i := {| parsed := Ok {| help := false; positional := ["site.now.sh"] |};
              credentials := [("sh", "token")];
              found := Ok d;
              instancesAnswer := Raise (ApiError 500 "internal");
              eventsAnswer := Raise (ApiError 500 "internal") |} in
  (main i).2 = Returned 0 ∧ ∀ uid, GetEvents uid ∉ (main i).1.
Proof.
  intros d i. split; [reflexivity|].
  apply (inspect_static_ignores_answers i d (instancesAnswer i) (eventsAnswer i));
    reflexivity.
Defined.

(** X27. When the events cannot be fetched, the error that the request
    gave is never shown: the run is the same for every such error (the
    message printed holds the instances answer in its place). *)
Theorem inspect_never_shows_events_error (i : input) (e e' : exn) :
  eventsAnswer i = Raise e →
  main {| parsed := parsed i; credentials := credentials i; found := found i;
          instancesAnswer := instancesAnswer i; eventsAnswer := Raise e' |}
  = main i.
Proof.
  intros Hevents. unfold main.
  cbn [parsed credentials found instancesAnswer eventsAnswer].
  rewrite Hevents. reflexivity.
Qed.

Lemma inspect_never_shows_events_error_witness :
  let d := {| uid := "dpl_1"; name := "api"; state := "READY"; type := "NPM";
              url := "api.now.sh"; created_ := 0; scale := [] |} in
  let i e := {| parsed := Ok {| help := false; positional := ["api.now.sh"] |};
                credentials := [("sh", "token")];
                found := Ok d;
                instancesAnswer := Ok [("sfo1", {| instances := ["i1"] |})];
                eventsAnswer := Raise e |} in
  main (i (ApiError 403 "forbidden")) = main (i (ApiError 500 "internal")) ∧
  (main (i (ApiError 500 "internal"))).2 = Returned 1.
Proof.
  intros d i. split; [|reflexivity].
  apply (inspect_never_shows_events_error (i (ApiError 500 "internal"))
           (ApiError 500 "internal") (ApiError 403 "forbidden")).
  reflexivity.
Defined.

End InspectCommand.
